(** * Dependency Sorter: a weighted, depth-first topological sort

    A shallow embedding of [dependency-sorter.js] and the properties of its
    sorter.  The JavaScript heap is explicit: the caller's records and
    arrays, the wrappers made by the serializer and the arrays the sorter
    builds all live in one store, and every function of the source is a
    computation over that store that may throw. *)

From Stdlib Require Import ZArith QArith String List Lia Permutation Relations.
From stdpp Require Import base list relations strings sorting.

Set Warnings "-clear-no-such-hyp".

Local Open Scope Z_scope.

(** ** JavaScript values *)

(** Numbers.  The sorter only compares weights ([<], [>], [===]) and asks
    for their truthiness, so a finite double is represented by the rational
    it denotes ([+0] and [-0] are the same rational, as they are for these
    operations); the two infinities and NaN are kept apart. *)
Inductive num : Type :=
| NaN
| NegInfinity
| Fin (q : Q)
| PosInfinity.

Definition Qlt_bool (p q : Q) : bool := negb (Qle_bool q p).

(** [x < y] on numbers; every comparison with NaN is false. *)
Definition num_lt (x y : num) : bool :=
  match x, y with
  | NaN, _ | _, NaN => false
  | _, NegInfinity => false
  | NegInfinity, _ => true
  | PosInfinity, _ => false
  | Fin _, PosInfinity => true
  | Fin p, Fin q => Qlt_bool p q
  end.

(** [x === y] on numbers. *)
Definition num_eq (x y : num) : bool :=
  match x, y with
  | NegInfinity, NegInfinity | PosInfinity, PosInfinity => true
  | Fin p, Fin q => Qeq_bool p q
  | _, _ => false
  end.

(** Addresses of heap objects: the identity of an object or array. *)
Abbreviation loc := nat (only parsing).

Inductive value : Type :=
| VUndefined
| VNull
| VBool (b : bool)
| VNum (x : num)
| VStr (s : string)
| VRef (l : loc).

(** ToBoolean. *)
Definition truthy (v : value) : bool :=
  match v with
  | VUndefined | VNull => false
  | VBool b => b
  | VNum NaN => false
  | VNum (Fin q) => negb (Qeq_bool q 0)
  | VNum _ => true
  | VStr s => negb (String.eqb s "")
  | VRef _ => true
  end.

(** Strict equality [a === b]: objects and arrays are equal when they are
    the same object. *)
Definition strict_eq (a b : value) : bool :=
  match a, b with
  | VUndefined, VUndefined | VNull, VNull => true
  | VBool x, VBool y => Bool.eqb x y
  | VNum x, VNum y => num_eq x y
  | VStr x, VStr y => String.eqb x y
  | VRef x, VRef y => Nat.eqb x y
  | _, _ => false
  end.

(** [xs.indexOf(x)]: the first index holding a value strictly equal to [x],
    or [-1]. *)
Fixpoint indexOf_from (i : Z) (xs : list value) (x : value) : Z :=
  match xs with
  | [] => -1
  | y :: ys => if strict_eq y x then i else indexOf_from (i + 1) ys x
  end.

Definition indexOf (xs : list value) (x : value) : Z := indexOf_from 0 xs x.

(** The truthiness of [~n] for an integer [n]: bitwise NOT is zero only
    at [-1]. *)
Definition tilde (n : Z) : bool := negb (Z.lnot n =? 0).

(** ** The heap *)

(** The three states of [node.mark]: [undefined] as the serializer leaves
    it, [TEMPORARY_MARK = 1] and [PERMANENT_MARK = 2]. *)
Inductive marking : Type :=
| UNMARKED
| TEMPORARY_MARK
| PERMANENT_MARK.

(** The object [serialize] returns.  [depends] holds the elements of the
    array the wrapper refers to: no function of the sorter writes to such an
    array. *)
Record wrapper : Type := Wrapper {
  id : value;
  weight : num;
  depends : list value;
  mark : marking;
  node : value
}.

Inductive cell : Type :=
| Obj (fields : list (string * value))
| Arr (elems : list value)
| Wrap (w : wrapper).

Abbreviation heap := (list cell).

(** ** Computations *)

Inductive error : Type :=
| CycleError (culprit : value)
| TypeError.

(** The outcome of a call: a value, an exception, a program the model does
    not cover ([Stuck]: a dangling address, a node that is not a wrapper, a
    record with built-in properties), or an exhausted recursion budget. *)
Inductive res (A : Type) : Type :=
| Ok (x : A)
| Throw (e : error)
| Stuck
| OutOfFuel.

Arguments Ok {A} x.
Arguments Throw {A} e.
Arguments Stuck {A}.
Arguments OutOfFuel {A}.

(** State passing over a store [S]; the store survives an exception. *)
Definition M (S A : Type) : Type := S -> S * res A.

Definition ret {S A} (x : A) : M S A := fun s => (s, Ok x).

Definition bind {S A B} (c : M S A) (k : A -> M S B) : M S B :=
  fun s =>
    match c s with
    | (s', Ok x) => k x s'
    | (s', Throw e) => (s', Throw e)
    | (s', Stuck) => (s', Stuck)
    | (s', OutOfFuel) => (s', OutOfFuel)
    end.

Definition throw {S A} (e : error) : M S A := fun s => (s, Throw e).
Definition stuck {S A} : M S A := fun s => (s, Stuck).
Definition out_of_fuel {S A} : M S A := fun s => (s, OutOfFuel).

Notation "'let*' x ':=' c 'in' k" := (bind c (fun x => k))
  (at level 10, x name, c at level 100, k at level 200).

(** [xs.forEach(f)] and [xs.map(f)] over the elements an array holds when
    the call starts. *)
Fixpoint forEach {S A} (f : A -> M S unit) (xs : list A) : M S unit :=
  match xs with
  | [] => ret tt
  | x :: xs' => let* _ := f x in forEach f xs'
  end.

Fixpoint mapM {S A B} (f : A -> M S B) (xs : list A) : M S (list B) :=
  match xs with
  | [] => ret []
  | x :: xs' => let* y := f x in let* ys := mapM f xs' in ret (y :: ys)
  end.

(** Heap primitives. *)
Definition alloc (c : cell) : M heap loc :=
  fun h => (h ++ [c], Ok (length h)).

Definition read_array (v : value) : M heap (list value) :=
  fun h =>
    match v with
    | VRef l => match h !! l with
                | Some (Arr xs) => (h, Ok xs)
                | _ => (h, Stuck)
                end
    | _ => (h, Stuck)
    end.

Definition read_wrapper (v : value) : M heap wrapper :=
  fun h =>
    match v with
    | VUndefined | VNull => (h, Throw TypeError)
    | VRef l => match h !! l with
                | Some (Wrap w) => (h, Ok w)
                | _ => (h, Stuck)
                end
    | _ => (h, Stuck)
    end.

Definition set_mark (v : value) (m : marking) : M heap unit :=
  fun h =>
    match v with
    | VRef l => match h !! l with
                | Some (Wrap w) =>
                    (<[l := Wrap (Wrapper (id w) (weight w) (depends w) m (node w))]> h,
                     Ok tt)
                | _ => (h, Stuck)
                end
    | _ => (h, Stuck)
    end.

Fixpoint assoc (name : string) (fields : list (string * value)) : option value :=
  match fields with
  | [] => None
  | (k, v) :: rest => if String.eqb k name then Some v else assoc name rest
  end.

(** [node[name]].  Reading a property of [undefined] or [null] throws; a
    boolean or number has no field; an object has the fields it was built
    with.  Inherited properties, and strings, arrays and wrappers used as
    records (which have built-in or typed properties), are not covered. *)
Definition get (v : value) (name : string) : M heap value :=
  fun h =>
    match v with
    | VUndefined | VNull => (h, Throw TypeError)
    | VBool _ | VNum _ => (h, Ok VUndefined)
    | VStr _ => (h, Stuck)
    | VRef l => match h !! l with
                | Some (Obj fields) => (h, Ok (default VUndefined (assoc name fields)))
                | _ => (h, Stuck)
                end
    end.

(** [Array.isArray(v)], with the elements when it is one. *)
Definition as_array (v : value) : M heap (option (list value)) :=
  fun h =>
    match v with
    | VRef l => match h !! l with
                | Some (Arr xs) => (h, Ok (Some xs))
                | Some _ => (h, Ok None)
                | None => (h, Stuck)
                end
    | _ => (h, Ok None)
    end.

(** ** Serializer *)

(** The options object: [defaultWeight] is any value, the property names
    are strings or absent. *)
Record options : Type := Options {
  opt_defaultWeight : value;
  opt_idProperty : option string;
  opt_weightProperty : option string;
  opt_dependsProperty : option string
}.

(** The variables a [Serializer] closes over. *)
Record serializer : Type := {
  defaultWeight : num;
  idProperty : string;
  weightProperty : string;
  dependsProperty : string
}.

(** [options && options.p || fallback]: an absent or empty name is falsy. *)
Definition name_or (p : option string) (fallback : string) : string :=
  match p with
  | Some s => if String.eqb s "" then fallback else s
  | None => fallback
  end.

Definition Serializer (opts : option options) : serializer :=
  {| defaultWeight :=
       match opts with
       | Some o => match opt_defaultWeight o with VNum x => x | _ => Fin 0 end
       | None => Fin 0
       end;
     idProperty := name_or (opts ≫= opt_idProperty) "id";
     weightProperty := name_or (opts ≫= opt_weightProperty) "weight";
     dependsProperty := name_or (opts ≫= opt_dependsProperty) "depends" |}.

Definition serialize (s : serializer) (node : value) : M heap value :=
  let* id := get node (idProperty s) in
  let* weight := get node (weightProperty s) in
  let* depends := get node (dependsProperty s) in
  let* deps :=
    (if truthy depends
     then let* a := as_array depends in
          ret (match a with Some xs => xs | None => [depends] end)
     else ret []) in
  let* l :=
    alloc (Wrap {| id := match id with VUndefined | VNull => node | _ => id end;
                   weight := match weight with VNum x => x | _ => defaultWeight s end;
                   depends := deps;
                   mark := UNMARKED;
                   node := node |}) in
  ret (VRef l).

Definition deserialize (n : value) : M heap value :=
  let* w := read_wrapper n in ret (node w).

(** ** Depth-first topological sort *)

(** [result.unshift(x)]. *)
Definition unshift (a : value) (x : value) : M heap unit :=
  fun h =>
    match a with
    | VRef l => match h !! l with
                | Some (Arr xs) => (<[l := Arr (x :: xs)]> h, Ok tt)
                | _ => (h, Stuck)
                end
    | _ => (h, Stuck)
    end.

(** [visit], local to [sortByDepends]: [nodes] and [result] are the
    variables it closes over.  The recursion is bounded by [fuel];
    [sortByDepends_spec] shows the bound given by [sortByDepends] is never
    reached. *)
Fixpoint visit (fuel : nat) (nodes : list value) (result : value) (n : value)
  : M heap unit :=
  match fuel with
  | O => out_of_fuel
  | S fuel' =>
      let* w := read_wrapper n in
      match mark w with
      | TEMPORARY_MARK => throw (CycleError (id w))
      | PERMANENT_MARK => ret tt
      | UNMARKED =>
          let* _ := set_mark n TEMPORARY_MARK in
          let* _ :=
            forEach (fun x =>
                       let* wx := read_wrapper x in
                       if tilde (indexOf (depends wx) (id w))
                       then visit fuel' nodes result x
                       else ret tt) nodes in
          let* _ := set_mark n PERMANENT_MARK in
          unshift result n
      end
  end.

Definition sortByDepends (nodes : value) : M heap value :=
  let* r := alloc (Arr []) in
  let result := VRef r in
  let* ns := read_array nodes in
  let* _ :=
    forEach (fun n =>
               let* w := read_wrapper n in
               match mark w with
               | UNMARKED => visit (S (length ns)) ns result n
               | _ => ret tt
               end) ns in
  ret result.

(** ** Range utilities *)

(** The functions below work on one array in place: their store is the
    array's elements, and the heap they read wrappers from is fixed. *)
Definition arrayM (A : Type) : Type := M (list value) A.

(** [arr[i]]: [undefined] outside the array. *)
Definition arr_get (arr : list value) (i : Z) : value :=
  if i <? 0 then VUndefined else default VUndefined (arr !! Z.to_nat i).

(** [arr[i] = v] inside the array.  The source never writes outside it:
    every comparison function dereferences both elements first. *)
Definition arr_set (i : Z) (v : value) : arrayM unit :=
  fun arr =>
    if (0 <=? i) && (i <? Z.of_nat (length arr))
    then (<[Z.to_nat i := v]> arr, Ok tt)
    else (arr, Stuck).

Definition step_of (from to : Z) : Z := if from <? to then 1 else -1.

(** The body of the [for] loop of [runInRange], run [n] more times from
    index [i]; [None] is [undefined]. *)
Fixpoint run_loop {R} (n : nat) (i step : Z)
    (fn : value -> Z -> arrayM (option R)) (defaultResult : option R)
  : arrayM (option R) :=
  match n with
  | O => ret defaultResult
  | S n' =>
      let* result := (fun arr => fn (arr_get arr i) i arr) in
      match result with
      | Some r => ret (Some r)
      | None => run_loop n' (i + step) step fn defaultResult
      end
  end.

(** The loop runs from [from] until [i === to], that is [|to - from|]
    times unless [fn] returns a defined value. *)
Definition runInRange {R} (from to : Z)
    (fn : value -> Z -> arrayM (option R)) (defaultResult : option R)
  : arrayM (option R) :=
  if from =? to then ret None
  else run_loop (Z.abs_nat (to - from)) from (step_of from to) fn defaultResult.

Definition swapInRange (from to : Z) (compare : value -> value -> arrayM bool)
  : arrayM (option Z) :=
  if from =? to then ret None
  else
    let step := step_of from to in
    runInRange from to
      (fun a i =>
         let n := i + step in
         let* b := (fun arr => (arr, Ok (arr_get arr n))) in
         let* c := compare a b in
         if negb c then ret (Some i)
         else
           let* _ := arr_set n a in
           let* _ := arr_set i b in
           if n =? to then ret (Some n) else ret None)
      (Some from).

(** ** Weight sort *)

(** A heap read inside an array computation. *)
Definition reading {A} (h : heap) (c : M heap A) : arrayM A :=
  fun arr => (arr, snd (c h)).

Section SortByWeight.
Variable h : heap.

(** [!~node.depends.indexOf(next.id)] *)
Definition not_depends_on (n next : value) : arrayM bool :=
  let* wn := reading h (read_wrapper n) in
  let* wx := reading h (read_wrapper next) in
  ret (negb (tilde (indexOf (depends wn) (id wx)))).

(** [node.weight > next.weight] *)
Definition heavier (n next : value) : arrayM bool :=
  let* wn := reading h (read_wrapper n) in
  let* wx := reading h (read_wrapper next) in
  ret (num_lt (weight wx) (weight wn)).

(** [!~next.depends.indexOf(node.id)] *)
Definition not_depended_by (n next : value) : arrayM bool :=
  let* wx := reading h (read_wrapper next) in
  let* wn := reading h (read_wrapper n) in
  ret (negb (tilde (indexOf (depends wx) (id wn)))).

(** [node.weight < next.weight] *)
Definition lighter (n next : value) : arrayM bool :=
  let* wn := reading h (read_wrapper n) in
  let* wx := reading h (read_wrapper next) in
  ret (num_lt (weight wn) (weight wx)).

(** [swapInRange(arr, nodePos, i, compare)] where [nodePos] is what the
    first [swapInRange] returned.  It is [undefined] only when that call
    had [from === to], which the two passes never ask for. *)
Definition swapBack (nodePos : option Z) (i : Z)
    (compare : value -> value -> arrayM bool) : arrayM (option Z) :=
  match nodePos with
  | Some p => swapInRange p i compare
  | None => stuck
  end.

(** The callback of the negative pass. *)
Definition float_down (n : value) (i : Z) : arrayM (option unit) :=
  let* w := reading h (read_wrapper n) in
  if num_lt (weight w) (Fin 0) then
    let* nodePos := swapInRange i 0 not_depends_on in
    let* _ := swapBack nodePos i heavier in
    ret None
  else ret None.

(** The callback of the positive pass. *)
Definition float_up (n : value) (i : Z) : arrayM (option unit) :=
  let* w := reading h (read_wrapper n) in
  if num_lt (Fin 0) (weight w) then
    let* nodePos :=
      (fun arr => swapInRange i (Z.of_nat (length arr) - 1) not_depended_by arr) in
    let* _ := swapBack nodePos i lighter in
    ret None
  else ret None.

Definition sortByWeight_array : arrayM unit :=
  let* _ := (fun arr => runInRange 1 (Z.of_nat (length arr)) float_down None arr) in
  let* _ := (fun arr => runInRange (Z.of_nat (length arr) - 2) 0 float_up None arr) in
  ret tt.
End SortByWeight.

(** [sortByWeight] sorts the array it is given in place and returns it. *)
Definition sortByWeight (tsortedNodes : value) : M heap value :=
  fun h =>
    match tsortedNodes with
    | VRef l =>
        match h !! l with
        | Some (Arr arr) =>
            let (arr', r) := sortByWeight_array h arr in
            (<[l := Arr arr']> h,
             match r with
             | Ok _ => Ok tsortedNodes
             | Throw e => Throw e
             | Stuck => Stuck
             | OutOfFuel => OutOfFuel
             end)
        | _ => (h, Stuck)
        end
    | _ => (h, Stuck)
    end.

(** ** The sorter *)

(** [Array.prototype.map]: a new array of the results. *)
Definition array_map (f : value -> M heap value) (a : value) : M heap value :=
  let* xs := read_array a in
  let* ys := mapM f xs in
  let* l := alloc (Arr ys) in
  ret (VRef l).

(** [sort]: the parameter [nodes] is reassigned, the caller's array is only
    read. *)
Definition sort (s : serializer) (nodes : value) : M heap value :=
  let* nodes := array_map (serialize s) nodes in
  let* nodes := sortByDepends nodes in
  let* _ := sortByWeight nodes in
  let* nodes := array_map deserialize nodes in
  ret nodes.

Definition factory (serializerOptions : option options) : value -> M heap value :=
  sort (Serializer serializerOptions).

(** ** The queue of people of the README *)

Definition Jim : value := VRef 0%nat.
Definition Donna : value := VRef 1%nat.
Definition Billie : value := VRef 2%nat.
Definition Chris : value := VRef 3%nat.
Definition Jerk : value := VRef 5%nat.
Definition Sherry : value := VRef 6%nat.
Definition Dillon : value := VRef 7%nat.
Definition Tom : value := VRef 9%nat.

(** The heap holding the eight records, the two dependency arrays and, at
    address 10, the array [people]. *)
Definition people_heap : heap :=
  [ Obj [("name", VStr "Jim")];
    Obj [("name", VStr "Donna"); ("weight", VNum (Fin (-100)))];
    Obj [("name", VStr "Billie"); ("weight", VNum (Fin (-5)))];
    Obj [("name", VStr "Chris"); ("weight", VNum PosInfinity)];
    Arr [VStr "Chris"];
    Obj [("name", VStr "Jerk"); ("depends", VRef 4%nat); ("weight", VNum (Fin 100))];
    Obj [("name", VStr "Sherry"); ("depends", VStr "Donna");
         ("weight", VNum NegInfinity)];
    Obj [("name", VStr "Dillon"); ("weight", VNum (Fin 10))];
    Arr [VStr "Donna"; VStr "Sherry"];
    Obj [("name", VStr "Tom"); ("depends", VRef 8%nat); ("weight", VNum (Fin (-10)))];
    Arr [Jim; Donna; Billie; Chris; Jerk; Sherry; Dillon; Tom] ]%string.

Definition people : value := VRef 10%nat.

Definition peopleSorter : value → M heap value :=
  factory (Some (Options VUndefined (Some "name"%string) None None)).

(** ** Small inputs *)

(** [[{id: "x", depends: "nonexistent"}]] at address 1. *)
Definition lonely_heap : heap :=
  [ Obj [("id", VStr "x"); ("depends", VStr "nonexistent")];
    Arr [VRef 0%nat] ]%string.

(** [[{id: "a"}, {id: "b", weight: 5}]] at address 2. *)
Definition heavy_last_heap : heap :=
  [ Obj [("id", VStr "a")];
    Obj [("id", VStr "b"); ("weight", VNum (Fin 5))];
    Arr [VRef 0%nat; VRef 1%nat] ]%string.

(** [[{id: "a"}, {id: "b"}]] at address 2. *)
Definition pair_heap : heap :=
  [ Obj [("id", VStr "a")];
    Obj [("id", VStr "b")];
    Arr [VRef 0%nat; VRef 1%nat] ]%string.

(** Two nodes fresh from the serializer, [a] and [b], and the array of
    both at address 2. *)
Definition two_nodes_heap : heap :=
  [ Wrap (Wrapper (VStr "a") (Fin 0) [] UNMARKED VNull);
    Wrap (Wrapper (VStr "b") (Fin 0) [] UNMARKED VNull);
    Arr [VRef 0%nat; VRef 1%nat] ]%string.

(** A node [a] of weight 0 before a node [b] of weight -1. *)
Definition light_last_heap : heap :=
  [ Wrap (Wrapper (VStr "a") (Fin 0) [] UNMARKED VNull);
    Wrap (Wrapper (VStr "b") (Fin (-1)) [] UNMARKED VNull) ]%string.

(** [[{id: "a", depends: "a"}, {id: "b"}]] at address 2: the first record
    depends on itself. *)
Definition selfish_heap : heap :=
  [ Obj [("id", VStr "a"); ("depends", VStr "a")];
    Obj [("id", VStr "b")];
    Arr [VRef 0%nat; VRef 1%nat] ]%string.

(** [[{id: "a", weight: 5}, {id: "b", weight: -1}, {id: "c"}]] at
    address 3. *)
Definition weights_heap : heap :=
  [ Obj [("id", VStr "a"); ("weight", VNum (Fin 5))];
    Obj [("id", VStr "b"); ("weight", VNum (Fin (-1)))];
    Obj [("id", VStr "c")];
    Arr [VRef 0%nat; VRef 1%nat; VRef 2%nat] ]%string.

(** Three nodes: [a] of weight 0, [b] of weight 5, and [c] of weight -1
    that depends on [a]. *)
Definition three_nodes_heap : heap :=
  [ Wrap (Wrapper (VStr "a") (Fin 0) [] UNMARKED VNull);
    Wrap (Wrapper (VStr "b") (Fin 5) [] UNMARKED VNull);
    Wrap (Wrapper (VStr "c") (Fin (-1)) [VStr "a"] UNMARKED VNull) ]%string.

(** ** Vocabulary of the specification *)

#[global] Instance marking_eq_dec : EqDecision marking.
Proof. solve_decision. Defined.

(** Identity of representations, used to tell nodes apart in proofs; the
    source compares with [strict_eq]. *)
#[global] Instance Q_eq_dec : EqDecision Q.
Proof.
  intros [a b] [c d].
  destruct (decide (a = c)), (decide (b = d)); [left|right..]; congruence.
Defined.

#[global] Instance num_eq_dec : EqDecision num.
Proof. solve_decision. Defined.

#[global] Instance value_eq_dec : EqDecision value.
Proof. solve_decision. Defined.

(** The wrapper a node refers to. *)
Definition wrapper_at (h : heap) (v : value) : option wrapper :=
  match v with
  | VRef l => match h !! l with Some (Wrap w) => Some w | _ => None end
  | _ => None
  end.

Definition mark_at (h : heap) (v : value) : option marking :=
  mark <$> wrapper_at h v.

(** What [sortByDepends] never changes of a wrapper. *)
Definition static (w : wrapper) : value * num * list value * value :=
  (id w, weight w, depends w, node w).

Definition static_at (h : heap) (v : value) :=
  static <$> wrapper_at h v.

(** [dep h x y]: node [x] depends on node [y], as the source tests it:
    [~x.depends.indexOf(y.id)]. *)
Definition dep (h : heap) (x y : value) : bool :=
  match wrapper_at h x, wrapper_at h y with
  | Some wx, Some wy => tilde (indexOf (depends wx) (id wy))
  | _, _ => false
  end.

(** The dependency graph over the nodes [ns]: an edge leads from a node to
    each of its dependents. *)
Definition edge (h : heap) (ns : list value) (a b : value) : Prop :=
  a ∈ ns ∧ b ∈ ns ∧ dep h b a = true.

Definition cyclic (h : heap) (ns : list value) : Prop :=
  ∃ c, c ∈ ns ∧ tc (edge h ns) c c.

(** Dependency order: whenever [y] depends on [x], [x] comes first. *)
Definition ordered (h : heap) (arr : list value) : Prop :=
  ∀ p q x y, arr !! p = Some x → arr !! q = Some y → dep h y x = true → (p < q)%nat.

(** Every dependent of the head of a suffix lies further down. *)
Fixpoint tsorted (h : heap) (ns res : list value) : Prop :=
  match res with
  | [] => True
  | a :: post => (∀ b, b ∈ ns → dep h b a = true → b ∈ post) ∧ tsorted h ns post
  end.

Definition unmarked (h : heap) (ns : list value) : nat :=
  length (filter (λ x, mark_at h x = Some UNMARKED) ns).

(** The state of [sortByDepends] between two steps: only marks have changed
    since [h0], and [result] holds exactly the permanently marked nodes,
    each before its dependents. *)
Record dfs_inv (h0 : heap) (ns : list value) (r : loc) (h : heap) (res : list value)
  : Prop := {
  inv_static : ∀ v, static_at h v = static_at h0 v;
  inv_res : h !! r = Some (Arr res);
  inv_nodup : NoDup res;
  inv_perm : ∀ x, x ∈ res ↔ x ∈ ns ∧ mark_at h x = Some PERMANENT_MARK;
  inv_sorted : tsorted h0 ns res;
  inv_length : length h = length h0
}.

Definition temporary (h : heap) (y : value) : Prop :=
  mark_at h y = Some TEMPORARY_MARK.

Definition permanent (h : heap) (y : value) : Prop :=
  mark_at h y = Some PERMANENT_MARK.

(** What a call of [visit] on [x] that returns has done, from [h] to [h']. *)
Definition visited (h0 : heap) (ns : list value) (r : loc)
    (h : heap) (x : value) (h' : heap) : Prop :=
  (∃ res', dfs_inv h0 ns r h' res') ∧
  permanent h' x ∧
  (∀ y, temporary h' y ↔ temporary h y) ∧
  (∀ y, permanent h y → permanent h' y).

(** An exception of [visit] names a node on a cycle. *)
Definition cycle_found (h0 : heap) (ns : list value) (e : error) : Prop :=
  ∃ c w, tc (edge h0 ns) c c ∧ wrapper_at h0 c = Some w ∧ e = CycleError (id w).

(** The elements of a node array are wrappers of the heap. *)
Definition nodes_ok (h : heap) (arr : list value) : Prop :=
  Forall (λ v, is_Some (wrapper_at h v)) arr.

(** The comparisons of [sortByWeight] on two wrappers. *)
Definition weight_lt (h : heap) (x y : value) : bool :=
  match wrapper_at h x, wrapper_at h y with
  | Some wx, Some wy => num_lt (weight wx) (weight wy)
  | _, _ => false
  end.

(** While the node scanned at index [i] crawls toward the front, at index
    [j]: the array is a rearrangement of the one the pass step started on,
    and if that one was in dependency order so is this one, and none of the
    nodes the crawler has passed depends on it. *)
Definition crawl_down (h : heap) (arr0 : list value) (i j : nat) (arr : list value)
  : Prop :=
  arr ≡ₚ arr0 ∧
  (ordered h arr0 →
   ordered h arr ∧
   ∀ m a c, (j < m ≤ i)%nat → arr !! j = Some a → arr !! m = Some c →
            dep h c a = false).

(** The same toward the back: the crawler depends on none of the nodes it
    has passed. *)
Definition crawl_up (h : heap) (arr0 : list value) (i j : nat) (arr : list value)
  : Prop :=
  arr ≡ₚ arr0 ∧
  (ordered h arr0 →
   ordered h arr ∧
   ∀ m a c, (i ≤ m < j)%nat → arr !! j = Some a → arr !! m = Some c →
            dep h a c = false).

(** A record: an object of the heap whose fields refer to cells of the
    heap. *)
Definition is_record (h : heap) (v : value) : Prop :=
  ∃ l fields, v = VRef l ∧ h !! l = Some (Obj fields) ∧
    ∀ k l', assoc k fields = Some (VRef l') → is_Some (h !! l').

(** The value of a field of a record, [undefined] when it has none. *)
Definition field (h : heap) (v : value) (name : string) : value :=
  match v with
  | VRef l => match h !! l with
              | Some (Obj fields) => default VUndefined (assoc name fields)
              | _ => VUndefined
              end
  | _ => VUndefined
  end.

(** The elements of a list value. *)
Definition list_of (h : heap) (v : value) : option (list value) :=
  match v with
  | VRef l => match h !! l with Some (Arr xs) => Some xs | _ => None end
  | _ => None
  end.

(** [normalize] as the specification words it: the id is the id field
    when present and non-null, else the record itself; the weight is the
    weight field when a number, else the default; the dependencies are the
    depends field when a list, the field alone when a truthy scalar, and
    nothing when absent or falsy. *)
Definition normalize (s : serializer) (h : heap) (record : value) : wrapper :=
  {| id := match field h record (idProperty s) with
           | VUndefined | VNull => record
           | _ => field h record (idProperty s)
           end;
     weight := match field h record (weightProperty s) with
               | VNum x => x
               | _ => defaultWeight s
               end;
     depends := match list_of h (field h record (dependsProperty s)) with
                | Some xs => xs
                | None => if truthy (field h record (dependsProperty s))
                          then [field h record (dependsProperty s)]
                          else []
                end;
     mark := UNMARKED;
     node := record |}.

(** Record [m] depends on record [n]: the dependencies of [m] name the id
    of [n]. *)
Definition depends_on (s : serializer) (h : heap) (m n : value) : bool :=
  tilde (indexOf (depends (normalize s h m)) (id (normalize s h n))).

(** The dependency graph of the records [xs], from a record to each of its
    dependents. *)
Definition record_edge (s : serializer) (h : heap) (xs : list value) (a b : value)
  : Prop :=
  a ∈ xs ∧ b ∈ xs ∧ depends_on s h b a = true.

Definition acyclic (s : serializer) (h : heap) (xs : list value) : Prop :=
  ∀ c, ¬ tc (record_edge s h xs) c c.

(** No record comes after one of its dependents. *)
Definition in_dependency_order (s : serializer) (h : heap) (out : list value) : Prop :=
  ∀ p q n m, out !! p = Some n → out !! q = Some m →
             depends_on s h m n = true → (p < q)%nat.

(** The record a node wraps. *)
Definition node_of (h : heap) (v : value) : value :=
  match wrapper_at h v with
  | Some w => node w
  | None => VUndefined
  end.

(** The array and the heap after [nodes.map(serializer.serialize)]. *)
Definition serialized_nodes (h : heap) (xs : list value) : list value :=
  VRef <$> seq (length h) (length xs).

Definition serialized_heap (s : serializer) (h : heap) (xs : list value) : heap :=
  (h ++ (Wrap ∘ normalize s h <$> xs)) ++ [Arr (serialized_nodes h xs)].

(** Frame: from [h] to [h'] no cell was freed, and only cells at the
    addresses [L] were written. *)
Definition unchanged_outside (L : loc → Prop) (h h' : heap) : Prop :=
  (length h ≤ length h')%nat ∧
  ∀ l c, h !! l = Some c → ¬ L l → h' !! l = Some c.

(** A computation that writes to existing cells only at the addresses [L]. *)
Definition keeps {A} (L : loc → Prop) (c : M heap A) : Prop :=
  ∀ h, unchanged_outside L h (fst (c h)).

(** The order the specification expects of [sortByDepends]: two nodes
    that do not depend on one another come out in their input order. *)
Definition stable_for_unrelated (h : heap) (ns out : list value) : Prop :=
  ∀ i j a b, ns !! i = Some a → ns !! j = Some b → (i < j)%nat →
    dep h a b = false → dep h b a = false →
    ∃ p q, out !! p = Some a ∧ out !! q = Some b ∧ (p < q)%nat.

(** Calling the callback of a pass on the node at each of the given
    indices in turn. *)
Fixpoint scan (fn : value → Z → arrayM (option unit)) (indices : list Z)
  : arrayM unit :=
  match indices with
  | [] => ret tt
  | i :: rest => let* _ := (λ arr, fn (arr_get arr i) i arr) in scan fn rest
  end.

(** The indices the two passes of [sortByWeight] consider on an array of
    [n] nodes, in the order they are considered: 1 up to the last index,
    then [n - 2] down to 1. *)
Definition negative_movers (n : nat) : list Z := Z.of_nat <$> seq 1 (n - 1).
Definition positive_movers (n : nat) : list Z := Z.of_nat <$> rev (seq 1 (n - 2)).

(** The indices [i], [i + step], ... of [n] rounds of a loop. *)
Fixpoint steps (n : nat) (i step : Z) : list Z :=
  match n with
  | O => []
  | S n' => i :: steps n' (i + step) step
  end.

(** An array computation that leaves the length of the array alone. *)
Definition same_length {A} (c : arrayM A) : Prop :=
  ∀ arr, length (fst (c arr)) = length arr.

(** C9 as the specification words it: the nodes at the very front and at
    the very back never initiate a swap, so a callback that a pass runs at
    the first or at the last index leaves the array as it is. *)
Definition boundaries_never_initiate (h : heap) (arr : list value) : Prop :=
  ∀ i, i = 0 ∨ i = Z.of_nat (length arr) - 1 →
    (i ∈ negative_movers (length arr) →
     fst (float_down h (arr_get arr i) i arr) = arr) ∧
    (i ∈ positive_movers (length arr) →
     fst (float_up h (arr_get arr i) i arr) = arr).

(** ** Two runs *)

(** What a caller sees of a call that returns an array: its elements. *)
Definition outcome (x : heap * res value) : res (list value) :=
  match x with
  | (h, Ok (VRef l)) => match h !! l with Some (Arr xs) => Ok xs | _ => Stuck end
  | (_, Ok _) => Stuck
  | (_, Throw e) => Throw e
  | (_, Stuck) => Stuck
  | (_, OutOfFuel) => OutOfFuel
  end.

(** The nodes of a second run are those of the first at addresses [d]
    further up. *)
Definition shift (d : nat) (v : value) : value :=
  match v with
  | VRef l => VRef (l + d)
  | _ => v
  end.

(** Two calls correspond: both return, with results related by [Q] in
    stores related by [R], or both fail the same way. *)
Definition sim_out {S T A B} (R : S → T → Prop) (Q : A → B → Prop)
    (x : S * res A) (y : T * res B) : Prop :=
  match snd x, snd y with
  | Ok a, Ok b => Q a b ∧ R (fst x) (fst y)
  | Throw e, Throw e' => e = e'
  | Stuck, Stuck => True
  | OutOfFuel, OutOfFuel => True
  | _, _ => False
  end.

(** A node of the first run, or [undefined]. *)
Definition node_or_undefined (ns : list value) (v : value) : Prop :=
  v ∈ ns ∨ v = VUndefined.

(** The heaps of the two runs hold the same wrappers at corresponding
    nodes. *)
Definition sim_heap (ns : list value) (d : nat) (G H : heap) : Prop :=
  ∀ v, v ∈ ns → wrapper_at H (shift d v) = wrapper_at G v.

(** ... and corresponding [result] arrays, at [r] and [r']. *)
Definition sim_dfs (ns : list value) (d : nat) (r r' : loc) (G H : heap) : Prop :=
  sim_heap ns d G H ∧
  ∃ res, G !! r = Some (Arr res) ∧ H !! r' = Some (Arr (shift d <$> res)) ∧
         Forall (node_or_undefined ns) res.

(** Corresponding node arrays. *)
Definition sim_arr (ns : list value) (d : nat) (arr arr' : list value) : Prop :=
  arr' = shift d <$> arr ∧ Forall (node_or_undefined ns) arr.

(** ** Ranges *)

(** The indices [runInRange] visits from [from] to [to], in order. *)
Definition range_indices (from to : Z) : list Z :=
  steps (Z.abs_nat (to - from)) from (step_of from to).

(** The first defined result of a callback that only reads, over the
    given indices; [d] when there is none. *)
Fixpoint first_defined {R} (f : value → Z → option R) (arr : list value)
    (indices : list Z) (d : option R) : option R :=
  match indices with
  | [] => d
  | i :: rest =>
      match f (arr_get arr i) i with
      | Some r => Some r
      | None => first_defined f arr rest d
      end
  end.

(** ** Moves *)

(** The array with the element at index [from] moved to index [pos]: the
    elements between the two indices each shift by one toward [from]. *)
Definition move (from pos : nat) (arr : list value) : list value :=
  match arr !! from with
  | Some a => take pos (delete from arr) ++ a :: drop pos (delete from arr)
  | None => arr
  end.

(** How many leading elements pass [test]. *)
Fixpoint passed (test : value → bool) (xs : list value) : nat :=
  match xs with
  | x :: rest => if test x then S (passed test rest) else O
  | [] => O
  end.

(** The elements [swapInRange] may swap the element at [from] with,
    nearest first: those after it up to index [to], or those before it
    down to index [to]. *)
Definition neighbours (from to : nat) (arr : list value) : list value :=
  if (from <? to)%nat then take (to - from) (drop (S from) arr)
  else reverse (take (from - to) (drop to arr)).

(** Where [swapInRange] stops: [k] steps from [from] toward [to]. *)
Definition toward (from to k : nat) : nat :=
  if (from <? to)%nat then (from + k)%nat else (from - k)%nat.

(** ** Order by weight *)

(** The weight of a node. *)
Definition weight_of (h : heap) (x : value) : num :=
  match wrapper_at h x with
  | Some w => weight w
  | None => NaN
  end.

Definition negative (h : heap) (x : value) : Prop :=
  num_lt (weight_of h x) (Fin 0) = true.

Definition positive (h : heap) (x : value) : Prop :=
  num_lt (Fin 0) (weight_of h x) = true.

#[global] Instance negative_dec h x : Decision (negative h x).
Proof. unfold negative. apply _. Defined.

#[global] Instance positive_dec h x : Decision (positive h x).
Proof. unfold positive. apply _. Defined.

(** [y] is not lighter than [x]. *)
Definition no_lighter (h : heap) (x y : value) : Prop :=
  num_lt (weight_of h y) (weight_of h x) = false.

(** Non-decreasing weight: no node is lighter than a node before it. *)
Definition by_weight (h : heap) (arr : list value) : Prop :=
  ∀ p q x y, arr !! p = Some x → arr !! q = Some y → (p < q)%nat →
             num_lt (weight_of h y) (weight_of h x) = false.

(** * Properties *)

(** ** Computations *)

Lemma forEach_rule {S A} (f : A → M S unit) (I : list A → S → Prop)
    (E : S → error → Prop) (xs : list A) :
  (∀ done x rest s, xs = done ++ x :: rest → I done s →
     match f x s with
     | (s', Ok _) => I (done ++ [x]) s'
     | (s', Throw e) => E s' e
     | _ => False
     end) →
  ∀ s, I [] s →
     match forEach f xs s with
     | (s', Ok _) => I xs s'
     | (s', Throw e) => E s' e
     | _ => False
     end.
Proof.
  intros Hstep.
  assert (G : ∀ rest done s, xs = done ++ rest → I done s →
     match forEach f rest s with
     | (s', Ok _) => I xs s'
     | (s', Throw e) => E s' e
     | _ => False
     end).
  { induction rest as [|x rest IH]; intros done s Hxs HI; simpl.
    - rewrite app_nil_r in Hxs. subst. exact HI.
    - unfold bind. specialize (Hstep done x rest s Hxs HI).
      destruct (f x s) as [s' [[]|e| |]]; try done.
      apply (IH (done ++ [x])); [|done]. by rewrite <- app_assoc. }
  intros s HI. by apply (G xs []).
Qed.

(** ** Heap primitives *)

Lemma read_wrapper_at h v w :
  wrapper_at h v = Some w → read_wrapper v h = (h, Ok w).
Proof.
  destruct v; simpl; try done.
  destruct (h !! l) as [[| |w']|]; try done. by intros [= ->].
Qed.

Lemma wrapper_at_insert_wrap h l w' v :
  is_Some (wrapper_at h (VRef l)) →
  wrapper_at (<[l := Wrap w']> h) v
  = if decide (v = VRef l) then Some w' else wrapper_at h v.
Proof.
  intros [w Hw]. simpl in Hw.
  destruct (h !! l) as [[| |w0]|] eqn:Hl; try done.
  assert (l < length h)%nat by (eapply lookup_lt_Some; eauto).
  destruct v as [| | | | |l0]; simpl; try done.
  destruct (decide (VRef l0 = VRef l)) as [Hv|Hv].
  - injection Hv as ->. by rewrite list_lookup_insert_eq.
  - rewrite list_lookup_insert_ne; [done|]. congruence.
Qed.

Lemma wrapper_at_insert_arr h l xs ys v :
  h !! l = Some (Arr xs) →
  wrapper_at (<[l := Arr ys]> h) v = wrapper_at h v.
Proof.
  intros Hl. destruct v as [| | | | |l0]; simpl; try done.
  destruct (decide (l0 = l)) as [->|Hne].
  - rewrite list_lookup_insert_eq; [|by eapply lookup_lt_Some]. by rewrite Hl.
  - by rewrite list_lookup_insert_ne.
Qed.

Lemma set_mark_at h x w m :
  wrapper_at h x = Some w →
  ∃ h', set_mark x m h = (h', Ok tt) ∧
    length h' = length h ∧
    (∀ v, mark_at h' v = if decide (v = x) then Some m else mark_at h v) ∧
    (∀ v, static_at h' v = static_at h v) ∧
    (∀ l xs, h !! l = Some (Arr xs) → h' !! l = Some (Arr xs)).
Proof.
  intros Hw. destruct x as [| | | | |l]; try done.
  pose proof Hw as Hw'. simpl in Hw'.
  destruct (h !! l) as [[| |w1]|] eqn:Hl; try done. injection Hw' as ->.
  eexists. unfold set_mark. rewrite Hl. split; [done|].
  split; [by rewrite length_insert|].
  assert (Hs : is_Some (wrapper_at h (VRef l))) by (by rewrite Hw).
  repeat split.
  - intros v. unfold mark_at. rewrite wrapper_at_insert_wrap by done.
    by case_decide.
  - intros v. unfold static_at. rewrite wrapper_at_insert_wrap by done.
    case_decide; [|done]. subst v. by rewrite Hw.
  - intros l' xs Hl'. rewrite list_lookup_insert_ne; [done|]. congruence.
Qed.

Lemma unshift_at h r res x :
  h !! r = Some (Arr res) →
  ∃ h', unshift (VRef r) x h = (h', Ok tt) ∧
    length h' = length h ∧
    h' !! r = Some (Arr (x :: res)) ∧
    (∀ v, wrapper_at h' v = wrapper_at h v).
Proof.
  intros Hr. eexists. unfold unshift. rewrite Hr. split; [done|].
  split; [by rewrite length_insert|]. split.
  - rewrite list_lookup_insert_eq; [done|]. by eapply lookup_lt_Some.
  - intros v. by eapply wrapper_at_insert_arr.
Qed.

Lemma static_at_wrapper h h0 v w :
  static_at h v = static_at h0 v → wrapper_at h0 v = Some w →
  ∃ w', wrapper_at h v = Some w' ∧ static w' = static w.
Proof.
  unfold static_at. intros Hs Hw. rewrite Hw in Hs.
  destruct (wrapper_at h v) as [w'|]; [|done].
  exists w'. split; [done|]. simpl in Hs. congruence.
Qed.

Lemma dep_static h h0 x y :
  (∀ v, static_at h v = static_at h0 v) → dep h x y = dep h0 x y.
Proof.
  intros Hs. unfold dep.
  pose proof (Hs x) as Hx. pose proof (Hs y) as Hy. unfold static_at, static in *.
  destruct (wrapper_at h x) as [[]|], (wrapper_at h0 x) as [[]|]; try done;
  destruct (wrapper_at h y) as [[]|], (wrapper_at h0 y) as [[]|]; try done.
  simpl in *. congruence.
Qed.

Lemma unmarked_le h h' ns :
  (∀ y, y ∈ ns → mark_at h' y = Some UNMARKED → mark_at h y = Some UNMARKED) →
  (unmarked h' ns ≤ unmarked h ns)%nat.
Proof.
  unfold unmarked. induction ns as [|a ns IH]; intros Hm; [done|].
  rewrite !filter_cons.
  assert (IH' := IH (λ y Hy, Hm y (list_elem_of_further _ _ _ Hy))).
  destruct (decide (mark_at h' a = Some UNMARKED)) as [Ha|Ha].
  - rewrite decide_True by (apply Hm; [left|done]). simpl. lia.
  - case_decide; simpl; lia.
Qed.

Lemma unmarked_lt h h' ns x :
  (∀ y, y ∈ ns → mark_at h' y = Some UNMARKED → mark_at h y = Some UNMARKED) →
  x ∈ ns → mark_at h x = Some UNMARKED → mark_at h' x ≠ Some UNMARKED →
  (unmarked h' ns < unmarked h ns)%nat.
Proof.
  unfold unmarked. induction ns as [|a ns IH]; intros Hm Hx Hu Hn.
  - by apply elem_of_nil in Hx.
  - rewrite !filter_cons.
    assert (Hm' := λ y Hy, Hm y (list_elem_of_further _ _ _ Hy)).
    pose proof (unmarked_le h h' ns Hm') as Hle. unfold unmarked in Hle.
    apply elem_of_cons in Hx as [->|Hx].
    + rewrite decide_False by done. rewrite decide_True by done. simpl. lia.
    + specialize (IH Hm' Hx Hu Hn).
      destruct (decide (mark_at h' a = Some UNMARKED)) as [Ha|Ha].
      * rewrite decide_True by (apply Hm; [left|done]). simpl. lia.
      * case_decide; simpl; lia.
Qed.

(** ** Depth-first topological sort *)

Section Visit.
Variables (h0 : heap) (ns : list value) (r : loc).
Hypothesis Hns : ∀ x, x ∈ ns → is_Some (wrapper_at h0 x).

Lemma marks_unmarked_back h h' :
  (∀ v, static_at h v = static_at h0 v) →
  (∀ v, static_at h' v = static_at h0 v) →
  (∀ y, temporary h' y ↔ temporary h y) →
  (∀ y, permanent h y → permanent h' y) →
  ∀ y, mark_at h' y = Some UNMARKED → mark_at h y = Some UNMARKED.
Proof.
  intros Hs Hs' Ht Hp y Hu.
  assert (Hsy : static_at h y = static_at h' y) by (by rewrite Hs, Hs').
  unfold static_at, mark_at in *.
  destruct (wrapper_at h' y) as [w'|] eqn:Hw'; [|done].
  destruct (wrapper_at h y) as [w|] eqn:Hw; [|done].
  simpl in *. destruct (mark w) eqn:Hm; [done| |].
  - assert (temporary h' y) as Hty.
    { apply Ht. unfold temporary, mark_at. by rewrite Hw; simpl; rewrite Hm. }
    unfold temporary, mark_at in Hty. rewrite Hw' in Hty. simpl in Hty. congruence.
  - assert (permanent h' y) as Hty.
    { apply Hp. unfold permanent, mark_at. by rewrite Hw; simpl; rewrite Hm. }
    unfold permanent, mark_at in Hty. rewrite Hw' in Hty. simpl in Hty. congruence.
Qed.

Lemma visit_spec fuel : ∀ h res x,
  x ∈ ns → dfs_inv h0 ns r h res → (unmarked h ns < fuel)%nat →
  (∀ t, t ∈ ns → temporary h t → tc (edge h0 ns) t x) →
  match visit fuel ns (VRef r) x h with
  | (h', Ok _) => visited h0 ns r h x h'
  | (h', Throw e) => cycle_found h0 ns e
  | _ => False
  end.
Proof.
  induction fuel as [|fuel IH]; intros h res x Hx Hinv Hfuel Hpath; [lia|].
  destruct (Hns x Hx) as [w0 Hw0].
  destruct (static_at_wrapper h h0 x w0 (inv_static _ _ _ _ _ Hinv x) Hw0)
    as (w & Hw & Hsw).
  assert (Hmx : mark_at h x = Some (mark w)) by (unfold mark_at; by rewrite Hw).
  simpl. unfold bind at 1. rewrite (read_wrapper_at _ _ _ Hw).
  destruct (mark w) eqn:Hm.
  - (* unvisited *)
    destruct (set_mark_at h x w TEMPORARY_MARK Hw) as (h1 & E1 & Hlen1 & Hm1 & Hs1 & Ha1).
    unfold bind at 1. rewrite E1.
    assert (Hinv1 : dfs_inv h0 ns r h1 res).
    { destruct Hinv as [Is Ir In Ip It Il]. split; try done.
      - intros v. by rewrite Hs1.
      - by apply Ha1.
      - intros y. rewrite Ip, Hm1. case_decide as Hy; [|done].
        subst y. rewrite Hmx. naive_solver.
      - congruence. }
    assert (Hlt1 : (unmarked h1 ns < unmarked h ns)%nat).
    { apply (unmarked_lt h h1 ns x); try done.
      - intros y _. rewrite Hm1. case_decide; [done|done].
      - rewrite Hm1. by rewrite decide_True. }
    set (body := λ y : value,
           let* wx := read_wrapper y in
           if tilde (indexOf (depends wx) (id w))
           then visit fuel ns (VRef r) y else ret tt).
    pose (I := λ (done : list value) (h' : heap),
           (∃ res', dfs_inv h0 ns r h' res') ∧
           (∀ y, temporary h' y ↔ temporary h1 y) ∧
           (∀ y, permanent h1 y → permanent h' y) ∧
           (∀ y, y ∈ done → dep h0 y x = true → permanent h' y)).
    pose proof (forEach_rule body I (λ _ e, cycle_found h0 ns e) ns) as Hloop.
    unfold bind at 1.
    lapply Hloop; [clear Hloop; intros Hloop|].
    + specialize (Hloop h1). lapply Hloop; [clear Hloop; intros Hloop|].
      2:{ split; [by exists res|]. split; [done|]. split; [done|].
          intros y Hy. by apply elem_of_nil in Hy. }
      destruct (forEach body ns h1) as [h2 [[]|e| |]]; try done.
      destruct Hloop as ((res2 & Hinv2) & Ht2 & Hp2 & Hd2).
      assert (Hw2 : ∃ w2, wrapper_at h2 x = Some w2).
      { destruct (static_at_wrapper h2 h0 x w0 (inv_static _ _ _ _ _ Hinv2 x) Hw0)
          as (w2 & Hw2 & _). by exists w2. }
      destruct Hw2 as [w2 Hw2].
      destruct (set_mark_at h2 x w2 PERMANENT_MARK Hw2) as (h3 & E3 & Hlen3 & Hm3 & Hs3 & Ha3).
      unfold bind at 1. rewrite E3.
      destruct (unshift_at h3 r res2 x (Ha3 _ _ (inv_res _ _ _ _ _ Hinv2)))
        as (h4 & E4 & Hlen4 & Hr4 & Hw4).
      rewrite E4.
      assert (Hm4 : ∀ v, mark_at h4 v = if decide (v = x) then Some PERMANENT_MARK else mark_at h2 v).
      { intros v. unfold mark_at at 1. rewrite Hw4. apply Hm3. }
      assert (Htx : temporary h2 x).
      { apply Ht2. unfold temporary. rewrite Hm1. by rewrite decide_True. }
      split; [|split; [|split]].
      * exists (x :: res2). destruct Hinv2 as [Is Ir In Ip It Il]. split.
        -- intros v. unfold static_at. rewrite Hw4. fold (static_at h3 v).
           by rewrite Hs3.
        -- done.
        -- constructor; [|done]. intros Hin. apply Ip in Hin as [_ Hin].
           unfold temporary in Htx. congruence.
        -- intros y. rewrite elem_of_cons, Hm4, Ip.
           case_decide as Hy; [subst y|]; naive_solver.
        -- split; [|done]. intros b Hb Hdep. apply Ip. split; [done|].
           by apply Hd2.
        -- congruence.
      * unfold permanent. rewrite Hm4. by rewrite decide_True.
      * intros y. unfold temporary. rewrite Hm4. case_decide as Hy.
        -- subst y. rewrite Hmx. naive_solver.
        -- fold (temporary h2 y). rewrite Ht2. unfold temporary.
           rewrite Hm1. by rewrite decide_False.
      * intros y Hy. unfold permanent. rewrite Hm4. case_decide; [done|].
        apply Hp2. unfold permanent. rewrite Hm1. by rewrite decide_False.
    + (* one step of the loop over the dependents *)
      intros done y rest h' Hsplit ((res' & Hinv') & Ht' & Hp' & Hd').
      assert (Hy : y ∈ ns) by (rewrite Hsplit; set_solver).
      destruct (Hns y Hy) as [wy0 Hwy0].
      destruct (static_at_wrapper h' h0 y wy0 (inv_static _ _ _ _ _ Hinv' y) Hwy0)
        as (wy & Hwy & Hswy).
      unfold body, bind. rewrite (read_wrapper_at _ _ _ Hwy).
      assert (Hdep : tilde (indexOf (depends wy) (id w)) = dep h0 y x).
      { unfold dep. rewrite Hwy0, Hw0. unfold static in *. congruence. }
      rewrite Hdep. destruct (dep h0 y x) eqn:Hd.
      * assert (Hback : ∀ z, mark_at h' z = Some UNMARKED → mark_at h1 z = Some UNMARKED).
        { apply marks_unmarked_back; try done.
          - by destruct Hinv1.
          - by destruct Hinv'. }
        pose proof (unmarked_le h1 h' ns (λ z _, Hback z)) as Hle.
        specialize (IH h' res' y Hy Hinv' ltac:(lia)).
        lapply IH; [clear IH; intros IH|].
        2:{ intros t Ht Htt. apply Ht' in Htt. unfold temporary in Htt.
            rewrite Hm1 in Htt. case_decide as Htx.
            - subst t. apply tc_once. by split.
            - eapply tc_r; [by apply Hpath|]. by split. }
        destruct (visit fuel ns (VRef r) y h') as [h'' [[]|e| |]]; try done.
        destruct IH as (Hi'' & Hpy & Ht'' & Hp'').
        split; [done|]. split; [|split].
        -- intros z. by rewrite Ht'', Ht'.
        -- intros z Hz. by apply Hp'', Hp'.
        -- intros z Hz Hdz. apply elem_of_app in Hz as [Hz|Hz].
           ++ by apply Hp'', Hd'.
           ++ apply list_elem_of_singleton in Hz. by subst z.
      * simpl. split; [by exists res'|]. split; [done|]. split; [done|].
        intros z Hz Hdz. apply elem_of_app in Hz as [Hz|Hz]; [by apply Hd'|].
        apply list_elem_of_singleton in Hz. subst z. congruence.
  - (* in progress: a cycle *)
    simpl. exists x, w0. split; [|split; [done|]].
    + apply Hpath; [done|]. done.
    + unfold static in Hsw. congruence.
  - (* done *)
    simpl. split; [by exists res|]. done.
Qed.
End Visit.

Lemma wrapper_at_app_arr h xs v :
  wrapper_at (h ++ [Arr xs]) v = wrapper_at h v.
Proof.
  destruct v as [| | | | |l]; simpl; try done.
  destruct (decide (l < length h)%nat) as [Hl|Hl].
  - by rewrite lookup_app_l.
  - rewrite (lookup_ge_None_2 h l) by lia.
    destruct (decide (l = length h)) as [->|Hne].
    + by rewrite list_lookup_middle.
    + rewrite lookup_ge_None_2; [done|]. rewrite length_app. simpl. lia.
Qed.

Lemma tsorted_elem h ns res x :
  tsorted h ns res → x ∈ res →
  ∀ b, b ∈ ns → dep h b x = true → b ∈ res.
Proof.
  induction res as [|a post IH]; intros Hs Hx b Hb Hd.
  - by apply elem_of_nil in Hx.
  - destruct Hs as [Ha Hs]. apply elem_of_cons in Hx as [->|Hx].
    + right. by apply Ha.
    + right. by apply IH.
Qed.

Lemma tsorted_ordered h ns res :
  NoDup res → (∀ x, x ∈ res → x ∈ ns) → tsorted h ns res → ordered h res.
Proof.
  induction res as [|a post IH]; intros Hnd Hin Hs p q x y Hp Hq Hd.
  - done.
  - destruct Hs as [Ha Hs]. apply NoDup_cons in Hnd as [Hna Hnd].
    assert (Hy : y ∈ ns) by (apply Hin; by eapply list_elem_of_lookup_2).
    destruct p as [|p], q as [|q]; simpl in *.
    + injection Hp as <-. injection Hq as <-.
      exfalso. apply Hna. by apply Ha.
    + lia.
    + injection Hq as <-. exfalso. apply Hna.
      apply (tsorted_elem h ns post x); try done.
      by eapply list_elem_of_lookup_2.
    + assert (p < q)%nat; [|lia].
      eapply (IH Hnd (λ z Hz, Hin z (list_elem_of_further _ _ _ Hz)) Hs); eauto.
Qed.

(** [sortByDepends] on nodes nobody has visited: it returns a new array of
    the same nodes in dependency order and leaves them permanently marked,
    or throws at a node on a cycle; it never runs out of fuel. *)
Lemma sortByDepends_spec h a ns :
  h !! a = Some (Arr ns) →
  (∀ x, x ∈ ns → ∃ w, wrapper_at h x = Some w ∧ mark w = UNMARKED) →
  match sortByDepends (VRef a) h with
  | (h', Ok v) =>
      v = VRef (length h) ∧
      length h' = S (length h) ∧
      (∀ v, static_at h' v = static_at h v) ∧
      (∀ x, x ∈ ns → permanent h' x) ∧
      ∃ res, h' !! length h = Some (Arr res) ∧ NoDup res ∧
             (∀ x, x ∈ res ↔ x ∈ ns) ∧ ordered h res
  | (_, Throw e) => cycle_found h ns e
  | _ => False
  end.
Proof.
  intros Ha Hfresh. unfold sortByDepends, bind at 1, alloc.
  unfold bind at 1, read_array.
  rewrite (lookup_app_l h) by (by eapply lookup_lt_Some). rewrite Ha.
  set (h1 := h ++ [Arr []]). set (r := length h).
  assert (Hw1 : ∀ v, wrapper_at h1 v = wrapper_at h v)
    by (intros; apply wrapper_at_app_arr).
  assert (Hs1 : ∀ v, static_at h1 v = static_at h v)
    by (intros; unfold static_at; by rewrite Hw1).
  assert (Hd1 : ∀ x y, dep h1 x y = dep h x y)
    by (intros; apply dep_static; done).
  assert (Hedge : ∀ x y, edge h1 ns x y → edge h ns x y).
  { intros x y (?&?&?). split; [done|]. split; [done|]. by rewrite <- Hd1. }
  assert (Hcyc : ∀ e, cycle_found h1 ns e → cycle_found h ns e).
  { intros e (c & w & Hc & Hw & ->). exists c, w. split; [|by rewrite <- Hw1].
    eapply tc_congruence with (f := λ x, x); [|done]. exact Hedge. }
  assert (Hns : ∀ x, x ∈ ns → is_Some (wrapper_at h1 x)).
  { intros x Hx. destruct (Hfresh x Hx) as (w & Hw & _). rewrite Hw1. eauto. }
  set (body := λ n : value,
         let* w := read_wrapper n in
         match mark w with
         | UNMARKED => visit (S (length ns)) ns (VRef r) n
         | _ => ret tt
         end).
  pose (I := λ (done : list value) (h' : heap),
         (∃ res, dfs_inv h1 ns r h' res) ∧
         (∀ y, y ∈ ns → ¬ temporary h' y) ∧
         (∀ y, y ∈ done → permanent h' y)).
  pose proof (forEach_rule body I (λ _ e, cycle_found h1 ns e) ns) as Hloop.
  lapply Hloop; [clear Hloop; intros Hloop|].
  - specialize (Hloop h1). lapply Hloop; [clear Hloop; intros Hloop|].
    2:{ split; [|split].
        - exists []. split; try done.
          + subst h1 r. by rewrite list_lookup_middle.
          + constructor.
          + intros x. split; [by intros ?%elem_of_nil|].
            intros [Hx Hp]. destruct (Hfresh x Hx) as (w & Hw & Hm).
            unfold permanent, mark_at in Hp. rewrite Hw1, Hw in Hp. simpl in Hp.
            congruence.
        - intros y Hy Ht. destruct (Hfresh y Hy) as (w & Hw & Hm).
          unfold temporary, mark_at in Ht. rewrite Hw1, Hw in Ht. simpl in Ht.
          congruence.
        - by intros y ?%elem_of_nil. }
    unfold bind. destruct (forEach body ns h1) as [h2 [[]|e| |]]; try done.
    + destruct Hloop as ((res & Hinv) & Hnt & Hperm). simpl.
      destruct Hinv as [Is Ir In Ip It Il].
      split; [done|]. split.
      { rewrite Il. subst h1. rewrite length_app. simpl. lia. }
      split; [intros v; by rewrite Is|]. split; [done|].
      exists res. split; [done|]. split; [done|].
      assert (Hmem : ∀ x, x ∈ res ↔ x ∈ ns).
      { intros x. rewrite Ip. split; [by intros []|]. intros Hx. split; [done|].
        by apply Hperm. }
      split; [done|].
      intros p q x y Hp Hq Hd.
      eapply (tsorted_ordered h1 ns res); eauto;
        first [intros z; by rewrite Hmem | by rewrite Hd1].
    + by apply Hcyc.
  - intros done y rest h' Hsplit ((res & Hinv) & Hnt & Hperm).
    assert (Hy : y ∈ ns) by (rewrite Hsplit; set_solver).
    destruct (Hns y Hy) as [wy0 Hwy0].
    destruct (static_at_wrapper h' h1 y wy0 (inv_static _ _ _ _ _ Hinv y) Hwy0)
      as (wy & Hwy & Hswy).
    unfold body, bind. rewrite (read_wrapper_at _ _ _ Hwy).
    assert (Hmy : mark_at h' y = Some (mark wy)) by (unfold mark_at; by rewrite Hwy).
    destruct (mark wy) eqn:Hm.
    + pose proof (visit_spec h1 ns r Hns (S (length ns)) h' res y Hy Hinv) as Hv.
      lapply Hv; [clear Hv; intros Hv|].
      2:{ unfold unmarked. pose proof (length_filter (λ x, mark_at h' x = Some UNMARKED) ns). lia. }
      lapply Hv; [clear Hv; intros Hv|].
      2:{ intros t Ht Htt. by destruct (Hnt t Ht). }
      destruct (visit (S (length ns)) ns (VRef r) y h') as [h'' [[]|e| |]]; try done.
      destruct Hv as (Hi'' & Hpy & Ht'' & Hp'').
      split; [done|]. split.
      * intros z Hz Htz. apply Ht'' in Htz. by apply (Hnt z).
      * intros z Hz. apply elem_of_app in Hz as [Hz|Hz]; [by apply Hp'', Hperm|].
        apply list_elem_of_singleton in Hz. by subst z.
    + destruct (Hnt y Hy). done.
    + simpl. split; [by exists res|]. split; [done|].
      intros z Hz. apply elem_of_app in Hz as [Hz|Hz]; [by apply Hperm|].
      apply list_elem_of_singleton in Hz. by subst z.
Qed.

(** ** Range utilities *)

Lemma run_loop_rule {R} (fn : value → Z → arrayM (option R)) (d : option R)
    (step : Z) (J : nat → list value → Prop) (Q : option R → list value → Prop)
    (n : nat) (i0 : Z) :
  (∀ k arr, (k < n)%nat → J k arr →
     match fn (arr_get arr (i0 + Z.of_nat k * step)) (i0 + Z.of_nat k * step) arr with
     | (arr', Ok None) => J (S k) arr'
     | (arr', Ok (Some x)) => Q (Some x) arr'
     | _ => False
     end) →
  (∀ arr, J n arr → Q d arr) →
  ∀ arr, J 0%nat arr →
    match run_loop n i0 step fn d arr with
    | (arr', Ok x) => Q x arr'
    | _ => False
    end.
Proof.
  intros Hstep Hend.
  assert (G : ∀ m k i arr, (k + m = n)%nat → i = i0 + Z.of_nat k * step → J k arr →
    match run_loop m i step fn d arr with
    | (arr', Ok x) => Q x arr'
    | _ => False
    end).
  { induction m as [|m IH]; intros k i arr Hk Hi HJ; simpl.
    - replace k with n in HJ by lia. by apply Hend.
    - unfold bind. subst i. specialize (Hstep k arr ltac:(lia) HJ).
      destruct (fn _ _ arr) as [arr' [[x|]|e| |]]; try done.
      apply (IH (S k)); [lia|lia|done]. }
  intros arr HJ. apply (G n 0%nat); [lia|lia|done].
Qed.

Lemma arr_get_lookup (arr : list value) i x :
  0 ≤ i → arr !! Z.to_nat i = Some x → arr_get arr i = x.
Proof.
  intros Hi Hx. unfold arr_get.
  destruct (i <? 0) eqn:E; [lia|]. by rewrite Hx.
Qed.

Lemma arr_set_ok (arr : list value) i v :
  0 ≤ i < Z.of_nat (length arr) →
  arr_set i v arr = (<[Z.to_nat i := v]> arr, Ok tt).
Proof.
  intros Hi. unfold arr_set.
  destruct (0 <=? i) eqn:E1; [|lia]. destruct (i <? Z.of_nat (length arr)) eqn:E2; [|lia].
  done.
Qed.

Lemma nodes_ok_lookup h (arr : list value) i :
  nodes_ok h arr → (i < length arr)%nat →
  ∃ x w, arr !! i = Some x ∧ wrapper_at h x = Some w.
Proof.
  intros Hok Hi. destruct (lookup_lt_is_Some_2 arr i Hi) as [x Hx].
  destruct (proj1 (Forall_lookup _ _) Hok i x Hx) as [w Hw]. eauto.
Qed.

Section Swap.
Variable h : heap.

Lemma swapInRange_rule (compare : value → value → arrayM bool)
    (cmp : value → value → bool) (P : Z → list value → Prop) (from to len : Z) :
  from ≠ to → 0 ≤ from < len → 0 ≤ to < len →
  (∀ x y arr, is_Some (wrapper_at h x) → is_Some (wrapper_at h y) →
     compare x y arr = (arr, Ok (cmp x y))) →
  (∀ i (arr : list value) a b,
     P i arr → Z.of_nat (length arr) = len → nodes_ok h arr →
     (from ≤ i < to ∨ to < i ≤ from) →
     arr !! Z.to_nat i = Some a →
     arr !! Z.to_nat (i + step_of from to) = Some b →
     cmp a b = true →
     P (i + step_of from to)
       (<[Z.to_nat i := b]> (<[Z.to_nat (i + step_of from to) := a]> arr))) →
  ∀ arr, nodes_ok h arr → Z.of_nat (length arr) = len → P from arr →
  ∃ arr' pos,
    swapInRange from to compare arr = (arr', Ok (Some pos)) ∧
    P pos arr' ∧ nodes_ok h arr' ∧ length arr' = length arr ∧
    (from ≤ pos ≤ to ∨ to ≤ pos ≤ from).
Proof.
  intros Hne Hfrom Hto Hcmp Hstep arr Hok Hlen HP.
  unfold swapInRange, runInRange.
  destruct (from =? to) eqn:E; [lia|]. clear E.
  set (s := step_of from to).
  assert (Hs : (from < to ∧ s = 1) ∨ (to < from ∧ s = -1)).
  { unfold s, step_of. destruct (from <? to) eqn:E; lia. }
  set (n := Z.abs_nat (to - from)).
  set (fn := λ (a : value) (i : Z),
         let* b := (λ arr0 : list value, (arr0, Ok (arr_get arr0 (i + s)))) in
         let* c := compare a b in
         if negb c then ret (Some i)
         else let* _ := arr_set (i + s) a in
              let* _ := arr_set i b in
              if i + s =? to then ret (Some (i + s)) else ret None).
  pose (J := λ (k : nat) (arr1 : list value),
         (k < n)%nat ∧ P (from + Z.of_nat k * s) arr1 ∧ nodes_ok h arr1 ∧
         length arr1 = length arr).
  pose (Q := λ (x : option Z) (arr1 : list value),
         ∃ pos, x = Some pos ∧ P pos arr1 ∧ nodes_ok h arr1 ∧
                length arr1 = length arr ∧ (from ≤ pos ≤ to ∨ to ≤ pos ≤ from)).
  pose proof (run_loop_rule fn (Some from) s J Q n from) as Hrule.
  lapply Hrule; [clear Hrule; intros Hrule|].
  - lapply Hrule; [clear Hrule; intros Hrule|].
    2:{ intros arr1 (Hk & _). lia. }
    specialize (Hrule arr). lapply Hrule; [clear Hrule; intros Hrule|].
    2:{ split; [unfold n; lia|]. split; [|done].
        by replace (from + Z.of_nat 0 * s) with from by lia. }
    destruct (run_loop n from s fn (Some from) arr) as [arr' [x| | |]]; try done.
    destruct Hrule as (pos & -> & ?). by exists arr', pos.
  - intros k arr1 Hk (_ & HP1 & Hok1 & Hlen1).
    set (i := from + Z.of_nat k * s).
    assert (Hi : (from ≤ i < to ∨ to < i ≤ from)) by (unfold i, n in *; lia).
    assert (Hi' : 0 ≤ i < len ∧ 0 ≤ i + s < len) by lia.
    destruct (nodes_ok_lookup h arr1 (Z.to_nat i) Hok1 ltac:(lia)) as (a & wa & Ha & Hwa).
    destruct (nodes_ok_lookup h arr1 (Z.to_nat (i + s)) Hok1 ltac:(lia)) as (b & wb & Hb & Hwb).
    rewrite (arr_get_lookup arr1 i a) by (done || lia).
    unfold fn, bind. rewrite (arr_get_lookup arr1 (i + s) b) by (done || lia).
    rewrite Hcmp by eauto.
    destruct (cmp a b) eqn:Hc; simpl.
    + rewrite arr_set_ok by lia.
      rewrite arr_set_ok by (rewrite length_insert; lia).
      assert (HP2 := Hstep i arr1 a b HP1 ltac:(lia) Hok1 Hi Ha Hb Hc).
      fold s in HP2.
      assert (Hok2 : nodes_ok h (<[Z.to_nat i := b]> (<[Z.to_nat (i + s) := a]> arr1))).
      { apply Forall_insert; [apply Forall_insert|]; eauto. }
      assert (Hlen2 : length (<[Z.to_nat i := b]> (<[Z.to_nat (i + s) := a]> arr1)) = length arr).
      { by rewrite !length_insert. }
      destruct (i + s =? to) eqn:Et; simpl.
      * exists (i + s). repeat split; try done. lia.
      * split; [unfold n in *; lia|].
        replace (from + Z.of_nat (S k) * s) with (i + s) by (unfold i; lia).
        done.
    + exists i. repeat split; try done. lia.
Qed.
End Swap.

(** ** Swapping neighbours *)

Lemma swap_lookup (arr : list value) j x y p :
  arr !! j = Some x → arr !! S j = Some y →
  <[j := y]> (<[S j := x]> arr) !! p
  = arr !! (if decide (p = j) then S j else if decide (p = S j) then j else p).
Proof.
  intros Hx Hy.
  assert (S j < length arr)%nat by (by eapply lookup_lt_Some).
  case_decide as Hp; [subst p|case_decide as Hp'; [subst p|]].
  - rewrite list_lookup_insert_eq by (rewrite length_insert; lia). done.
  - rewrite list_lookup_insert_ne by lia.
    rewrite list_lookup_insert_eq by lia. done.
  - by rewrite !list_lookup_insert_ne by lia.
Qed.

Lemma swap_Permutation (arr : list value) j x y :
  arr !! j = Some x → arr !! S j = Some y →
  <[j := y]> (<[S j := x]> arr) ≡ₚ arr.
Proof.
  revert arr. induction j as [|j IH]; intros [|a [|b arr]] Hx Hy; simpl in *; try done.
  - injection Hx as ->. injection Hy as ->. apply perm_swap.
  - constructor. by apply (IH (b :: arr)).
Qed.

Lemma ordered_swap h (arr : list value) j x y :
  ordered h arr → arr !! j = Some x → arr !! S j = Some y →
  dep h y x = false →
  ordered h (<[j := y]> (<[S j := x]> arr)).
Proof.
  intros Ho Hx Hy Hd p q u v Hp Hq Hdep.
  rewrite (swap_lookup arr j x y) in Hp, Hq by done.
  pose proof (Ho _ _ _ _ Hp Hq Hdep) as Hlt.
  repeat case_decide; subst; try lia.
  assert (u = x) by congruence. assert (v = y) by congruence. subst. congruence.
Qed.

(** The two writes of [swapInRange], as the source orders them, when the
    element moves toward the back ... *)
Lemma swap_up h (arr : list value) i a b :
  0 ≤ i →
  arr !! Z.to_nat i = Some a → arr !! Z.to_nat (i + 1) = Some b →
  let arr' := <[Z.to_nat i := b]> (<[Z.to_nat (i + 1) := a]> arr) in
  arr' ≡ₚ arr ∧ (ordered h arr → dep h b a = false → ordered h arr').
Proof.
  intros Hi Ha Hb. replace (Z.to_nat (i + 1)) with (S (Z.to_nat i)) in * by lia.
  split; [by apply swap_Permutation|]. intros Ho Hd. by apply ordered_swap.
Qed.

(** ... and when it moves toward the front. *)
Lemma swap_down h (arr : list value) i a b :
  1 ≤ i →
  arr !! Z.to_nat i = Some a → arr !! Z.to_nat (i + -1) = Some b →
  let arr' := <[Z.to_nat i := b]> (<[Z.to_nat (i + -1) := a]> arr) in
  arr' ≡ₚ arr ∧ (ordered h arr → dep h a b = false → ordered h arr').
Proof.
  intros Hi Ha Hb.
  replace (Z.to_nat i) with (S (Z.to_nat (i + -1))) in * by lia.
  set (j := Z.to_nat (i + -1)) in *. simpl.
  rewrite list_insert_insert_ne by lia.
  split; [by apply swap_Permutation|]. intros Ho Hd. by apply ordered_swap.
Qed.

(** ** Weight sort *)

Section Weights.
Variable h : heap.

Lemma reading_wrapper x w (arr : list value) :
  wrapper_at h x = Some w → reading h (read_wrapper x) arr = (arr, Ok w).
Proof. intros Hw. unfold reading. by rewrite (read_wrapper_at _ _ _ Hw). Qed.

Lemma not_depends_on_ok x y (arr : list value) :
  is_Some (wrapper_at h x) → is_Some (wrapper_at h y) →
  not_depends_on h x y arr = (arr, Ok (negb (dep h x y))).
Proof.
  intros [wx Hx] [wy Hy]. unfold not_depends_on, bind, dep. cbv beta.
  rewrite (reading_wrapper _ _ _ Hx), (reading_wrapper _ _ _ Hy), Hx, Hy. done.
Qed.

Lemma not_depended_by_ok x y (arr : list value) :
  is_Some (wrapper_at h x) → is_Some (wrapper_at h y) →
  not_depended_by h x y arr = (arr, Ok (negb (dep h y x))).
Proof.
  intros [wx Hx] [wy Hy]. unfold not_depended_by, bind, dep. cbv beta.
  rewrite (reading_wrapper _ _ _ Hy), (reading_wrapper _ _ _ Hx), Hx, Hy. done.
Qed.

Lemma heavier_ok x y (arr : list value) :
  is_Some (wrapper_at h x) → is_Some (wrapper_at h y) →
  heavier h x y arr = (arr, Ok (weight_lt h y x)).
Proof.
  intros [wx Hx] [wy Hy]. unfold heavier, bind, weight_lt. cbv beta.
  rewrite (reading_wrapper _ _ _ Hx), (reading_wrapper _ _ _ Hy), Hx, Hy. done.
Qed.

Lemma lighter_ok x y (arr : list value) :
  is_Some (wrapper_at h x) → is_Some (wrapper_at h y) →
  lighter h x y arr = (arr, Ok (weight_lt h x y)).
Proof.
  intros [wx Hx] [wy Hy]. unfold lighter, bind, weight_lt. cbv beta.
  rewrite (reading_wrapper _ _ _ Hx), (reading_wrapper _ _ _ Hy), Hx, Hy. done.
Qed.

Lemma nodes_ok_Permutation (arr arr' : list value) :
  arr' ≡ₚ arr → nodes_ok h arr → nodes_ok h arr'.
Proof. intros Hp Hok. unfold nodes_ok. by rewrite Hp. Qed.
End Weights.

Lemma ordered_no_back h (arr : list value) p q x y :
  ordered h arr → arr !! p = Some x → arr !! q = Some y → (q ≤ p)%nat →
  dep h y x = false.
Proof.
  intros Ho Hp Hq Hle. destruct (dep h y x) eqn:Hd; [|done].
  pose proof (Ho _ _ _ _ Hp Hq Hd). lia.
Qed.

Section Crawl.
Variables (h : heap) (arr0 : list value) (i : nat).

Lemma crawl_down_front j (arr : list value) a b :
  (S j ≤ i)%nat → crawl_down h arr0 i (S j) arr →
  arr !! S j = Some a → arr !! j = Some b → dep h a b = false →
  crawl_down h arr0 i j (<[j := a]> (<[S j := b]> arr)).
Proof.
  intros Hj [Hperm Hord] Ha Hb Hd. split.
  - by rewrite (swap_Permutation arr j b a).
  - intros Ho0. destruct (Hord Ho0) as [Ho Haux]. split.
    + by apply ordered_swap.
    + intros m a' c Hm Ha' Hc.
      rewrite (swap_lookup arr j b a) in Ha', Hc by done.
      rewrite decide_True in Ha' by done.
      rewrite decide_False in Hc by lia.
      assert (a' = a) by congruence. subst a'.
      case_decide as Hmj.
      * subst m. assert (c = b) by congruence. subst c.
        apply (ordered_no_back h arr (S j) j); [done|done|done|lia].
      * apply (Haux m a c); [lia|done|done].
Qed.

Lemma crawl_down_back j (arr : list value) a b :
  (S j ≤ i)%nat → crawl_down h arr0 i j arr →
  arr !! j = Some a → arr !! S j = Some b →
  crawl_down h arr0 i (S j) (<[j := b]> (<[S j := a]> arr)).
Proof.
  intros Hj [Hperm Hord] Ha Hb. split.
  - by rewrite (swap_Permutation arr j a b).
  - intros Ho0. destruct (Hord Ho0) as [Ho Haux]. split.
    + apply ordered_swap; try done. apply (Haux (S j) a b); [lia|done|done].
    + intros m a' c Hm Ha' Hc.
      rewrite (swap_lookup arr j a b) in Ha', Hc by done.
      rewrite decide_False in Ha' by lia. rewrite decide_True in Ha' by done.
      rewrite !decide_False in Hc by lia.
      assert (a' = a) by congruence. subst a'.
      apply (Haux m a c); [lia|done|done].
Qed.

Lemma crawl_up_back j (arr : list value) a b :
  crawl_up h arr0 i j arr →
  arr !! j = Some a → arr !! S j = Some b → dep h b a = false →
  crawl_up h arr0 i (S j) (<[j := b]> (<[S j := a]> arr)).
Proof.
  intros [Hperm Hord] Ha Hb Hd. split.
  - by rewrite (swap_Permutation arr j a b).
  - intros Ho0. destruct (Hord Ho0) as [Ho Haux]. split.
    + by apply ordered_swap.
    + intros m a' c Hm Ha' Hc.
      rewrite (swap_lookup arr j a b) in Ha', Hc by done.
      rewrite decide_False in Ha' by lia. rewrite decide_True in Ha' by done.
      assert (a' = a) by congruence. subst a'.
      case_decide as Hmj.
      * subst m. assert (c = b) by congruence. subst c.
        apply (ordered_no_back h arr (S j) j); [done|done|done|lia].
      * rewrite decide_False in Hc by lia.
        apply (Haux m a c); [lia|done|done].
Qed.

Lemma crawl_up_front j (arr : list value) a b :
  (i ≤ j)%nat → crawl_up h arr0 i (S j) arr →
  arr !! S j = Some a → arr !! j = Some b →
  crawl_up h arr0 i j (<[j := a]> (<[S j := b]> arr)).
Proof.
  intros Hj [Hperm Hord] Ha Hb. split.
  - by rewrite (swap_Permutation arr j b a).
  - intros Ho0. destruct (Hord Ho0) as [Ho Haux]. split.
    + apply ordered_swap; try done. apply (Haux j a b); [lia|done|done].
    + intros m a' c Hm Ha' Hc.
      rewrite (swap_lookup arr j b a) in Ha', Hc by done.
      rewrite decide_True in Ha' by done.
      rewrite !decide_False in Hc by lia.
      assert (a' = a) by congruence. subst a'.
      apply (Haux m a c); [lia|done|done].
Qed.
End Crawl.

Section Passes.
Variable h : heap.

Lemma crawl_down_start (arr : list value) i :
  crawl_down h arr i i arr.
Proof. split; [done|]. intros Ho. split; [done|]. intros; lia. Qed.

Lemma crawl_up_start (arr : list value) i :
  crawl_up h arr i i arr.
Proof. split; [done|]. intros Ho. split; [done|]. intros; lia. Qed.

(** One step of the negative pass. *)
Lemma float_down_spec (arr : list value) (i : Z) :
  nodes_ok h arr → 1 ≤ i < Z.of_nat (length arr) →
  ∃ arr', float_down h (arr_get arr i) i arr = (arr', Ok None) ∧
          arr' ≡ₚ arr ∧ (ordered h arr → ordered h arr').
Proof.
  intros Hok Hi.
  destruct (nodes_ok_lookup h arr (Z.to_nat i) Hok ltac:(lia)) as (a & wa & Ha & Hwa).
  rewrite (arr_get_lookup arr i a) by (done || lia).
  unfold float_down, bind at 1. rewrite (reading_wrapper h a wa arr Hwa).
  destruct (num_lt (weight wa) (Fin 0)); [|by exists arr].
  set (P := λ (j : Z) (arr1 : list value),
         0 ≤ j ≤ i ∧ crawl_down h arr (Z.to_nat i) (Z.to_nat j) arr1).
  destruct (swapInRange_rule h (not_depends_on h) (λ x y, negb (dep h x y)) P
              i 0 (Z.of_nat (length arr)) ltac:(lia) ltac:(lia) ltac:(lia))
    with (arr := arr) as (arr1 & p & E1 & [Hp HP1] & Hok1 & Hlen1 & _); try done.
  { intros; by apply not_depends_on_ok. }
  { intros j arr1 x y [Hj HP] Hl Hk Hr Hx Hy Hc.
    assert (Hs : step_of i 0 = -1) by (unfold step_of; destruct (i <? 0) eqn:E; lia).
    rewrite Hs in *. split; [lia|].
    replace (Z.to_nat j) with (S (Z.to_nat (j + -1))) in * by lia.
    rewrite list_insert_insert_ne by lia.
    apply crawl_down_front; try done; [lia|].
    by destruct (dep h x y). }
  { split; [lia|]. apply crawl_down_start. }
  unfold bind at 1. rewrite E1. unfold swapBack, bind.
  destruct (decide (p = i)) as [->|Hpi].
  - unfold swapInRange. rewrite Z.eqb_refl. simpl.
    exists arr1. destruct HP1 as [? Ho]. split; [done|]. split; [done|].
    intros Ho0. by destruct (Ho Ho0).
  - destruct (swapInRange_rule h (heavier h) (λ x y, weight_lt h y x) P
                p i (Z.of_nat (length arr)) ltac:(lia) ltac:(lia) ltac:(lia))
      with (arr := arr1) as (arr2 & q & E2 & [Hq HP2] & Hok2 & Hlen2 & _); try done.
    { intros; by apply heavier_ok. }
    { intros j arr2 x y [Hj HP] Hl Hk Hr Hx Hy Hc.
      assert (Hs : step_of p i = 1) by (unfold step_of; destruct (p <? i) eqn:E; lia).
      rewrite Hs in *. split; [lia|].
      replace (Z.to_nat (j + 1)) with (S (Z.to_nat j)) in * by lia.
      apply crawl_down_back; try done. lia. }
    { lia. }
    rewrite E2. simpl.
    exists arr2. destruct HP2 as [? Ho]. split; [done|]. split; [done|].
    intros Ho0. by destruct (Ho Ho0).
Qed.

(** One step of the positive pass. *)
Lemma float_up_spec (arr : list value) (i : Z) :
  nodes_ok h arr → 0 ≤ i < Z.of_nat (length arr) - 1 →
  ∃ arr', float_up h (arr_get arr i) i arr = (arr', Ok None) ∧
          arr' ≡ₚ arr ∧ (ordered h arr → ordered h arr').
Proof.
  intros Hok Hi.
  destruct (nodes_ok_lookup h arr (Z.to_nat i) Hok ltac:(lia)) as (a & wa & Ha & Hwa).
  rewrite (arr_get_lookup arr i a) by (done || lia).
  unfold float_up, bind at 1. rewrite (reading_wrapper h a wa arr Hwa).
  destruct (num_lt (Fin 0) (weight wa)); [|by exists arr].
  set (last := Z.of_nat (length arr) - 1).
  set (P := λ (j : Z) (arr1 : list value),
         i ≤ j ≤ last ∧ crawl_up h arr (Z.to_nat i) (Z.to_nat j) arr1).
  destruct (swapInRange_rule h (not_depended_by h) (λ x y, negb (dep h y x)) P
              i last (Z.of_nat (length arr)) ltac:(lia) ltac:(lia) ltac:(lia))
    with (arr := arr) as (arr1 & p & E1 & [Hp HP1] & Hok1 & Hlen1 & _); try done.
  { intros; by apply not_depended_by_ok. }
  { intros j arr1 x y [Hj HP] Hl Hk Hr Hx Hy Hc.
    assert (Hs : step_of i last = 1) by (unfold step_of; destruct (i <? last) eqn:E; lia).
    rewrite Hs in *. split; [lia|].
    replace (Z.to_nat (j + 1)) with (S (Z.to_nat j)) in * by lia.
    apply crawl_up_back; try done.
    by destruct (dep h y x). }
  { split; [lia|]. apply crawl_up_start. }
  unfold bind at 1. fold last. rewrite E1. unfold swapBack, bind.
  destruct (decide (p = i)) as [->|Hpi].
  - unfold swapInRange. rewrite Z.eqb_refl. simpl.
    exists arr1. destruct HP1 as [? Ho]. split; [done|]. split; [done|].
    intros Ho0. by destruct (Ho Ho0).
  - destruct (swapInRange_rule h (lighter h) (λ x y, weight_lt h x y) P
                p i (Z.of_nat (length arr)) ltac:(lia) ltac:(lia) ltac:(lia))
      with (arr := arr1) as (arr2 & q & E2 & [Hq HP2] & Hok2 & Hlen2 & _); try done.
    { intros; by apply lighter_ok. }
    { intros j arr2 x y [Hj HP] Hl Hk Hr Hx Hy Hc.
      assert (Hs : step_of p i = -1) by (unfold step_of; destruct (p <? i) eqn:E; lia).
      rewrite Hs in *. split; [lia|].
      replace (Z.to_nat j) with (S (Z.to_nat (j + -1))) in * by lia.
      rewrite list_insert_insert_ne by lia.
      apply crawl_up_front; try done. lia. }
    { lia. }
    rewrite E2. simpl.
    exists arr2. destruct HP2 as [? Ho]. split; [done|]. split; [done|].
    intros Ho0. by destruct (Ho Ho0).
Qed.
End Passes.

(** [sortByWeight] on at least two nodes rearranges the array and keeps it
    in dependency order when it was. *)
Lemma sortByWeight_array_spec h (arr : list value) :
  nodes_ok h arr → (2 ≤ length arr)%nat →
  ∃ arr', sortByWeight_array h arr = (arr', Ok tt) ∧
          arr' ≡ₚ arr ∧ (ordered h arr → ordered h arr').
Proof.
  intros Hok Hlen.
  pose (J := λ (_ : nat) (arr1 : list value),
         arr1 ≡ₚ arr ∧ (ordered h arr → ordered h arr1)).
  pose (Q := λ (x : option unit) (arr1 : list value), J 0%nat arr1).
  assert (Hstep1 : ∀ arr1, J 0%nat arr1 →
    match runInRange 1 (Z.of_nat (length arr1)) (float_down h) None arr1 with
    | (arr', Ok _) => J 0%nat arr'
    | _ => False
    end).
  { intros arr1 [Hp Ho]. unfold runInRange.
    assert (Hl : length arr1 = length arr) by (by rewrite Hp).
    destruct (1 =? Z.of_nat (length arr1)) eqn:E; [lia|].
    assert (Hs : step_of 1 (Z.of_nat (length arr1)) = 1).
    { unfold step_of. destruct (1 <? Z.of_nat (length arr1)) eqn:E'; lia. }
    rewrite Hs.
    pose proof (run_loop_rule (float_down h) None 1 J Q
                  (Z.abs_nat (Z.of_nat (length arr1) - 1)) 1) as Hrule.
    lapply Hrule; [clear Hrule; intros Hrule|].
    - specialize (Hrule (λ _ H, H) arr1 (conj Hp Ho)).
      by destruct (run_loop _ _ _ _ _ arr1) as [arr' [x| | |]].
    - intros k arr2 Hk [Hp2 Ho2].
      assert (Hl2 : length arr2 = length arr) by (by rewrite Hp2).
      destruct (float_down_spec h arr2 (1 + Z.of_nat k * 1))
        as (arr3 & E3 & Hp3 & Ho3); [by eapply nodes_ok_Permutation|lia|].
      rewrite E3. split; [by rewrite Hp3|]. intros Ho0. by apply Ho3, Ho2. }
  assert (Hstep2 : ∀ arr1, J 0%nat arr1 →
    match runInRange (Z.of_nat (length arr1) - 2) 0 (float_up h) None arr1 with
    | (arr', Ok _) => J 0%nat arr'
    | _ => False
    end).
  { intros arr1 [Hp Ho]. unfold runInRange.
    assert (Hl : length arr1 = length arr) by (by rewrite Hp).
    destruct (Z.of_nat (length arr1) - 2 =? 0) eqn:E; [done|].
    assert (Hs : step_of (Z.of_nat (length arr1) - 2) 0 = -1).
    { unfold step_of. destruct (Z.of_nat (length arr1) - 2 <? 0) eqn:E'; lia. }
    rewrite Hs.
    pose proof (run_loop_rule (float_up h) None (-1) J Q
                  (Z.abs_nat (0 - (Z.of_nat (length arr1) - 2)))
                  (Z.of_nat (length arr1) - 2)) as Hrule.
    lapply Hrule; [clear Hrule; intros Hrule|].
    - specialize (Hrule (λ _ H, H) arr1 (conj Hp Ho)).
      by destruct (run_loop _ _ _ _ _ arr1) as [arr' [x| | |]].
    - intros k arr2 Hk [Hp2 Ho2].
      assert (Hl2 : length arr2 = length arr) by (by rewrite Hp2).
      destruct (float_up_spec h arr2 (Z.of_nat (length arr1) - 2 + Z.of_nat k * -1))
        as (arr3 & E3 & Hp3 & Ho3); [by eapply nodes_ok_Permutation|lia|].
      rewrite E3. split; [by rewrite Hp3|]. intros Ho0. by apply Ho3, Ho2. }
  unfold sortByWeight_array, bind.
  pose proof (Hstep1 arr ltac:(by split)) as H1.
  destruct (runInRange 1 _ (float_down h) None arr) as [arr1 [x| | |]]; try done.
  pose proof (Hstep2 arr1 H1) as H2.
  destruct (runInRange _ 0 (float_up h) None arr1) as [arr2 [y| | |]]; try done.
  exists arr2. by destruct H2.
Qed.

Lemma sortByWeight_spec h l (arr : list value) :
  h !! l = Some (Arr arr) → nodes_ok h arr → (2 ≤ length arr)%nat →
  ∃ arr', sortByWeight (VRef l) h = (<[l := Arr arr']> h, Ok (VRef l)) ∧
          arr' ≡ₚ arr ∧ (ordered h arr → ordered h arr').
Proof.
  intros Hl Hok Hlen.
  destruct (sortByWeight_array_spec h arr Hok Hlen) as (arr' & E & Hp & Ho).
  exists arr'. unfold sortByWeight. rewrite Hl, E. done.
Qed.

(** ** Serializer *)

Lemma get_object h l fs name :
  h !! l = Some (Obj fs) →
  get (VRef l) name h = (h, Ok (default VUndefined (assoc name fs))).
Proof. intros Hl. unfold get. by rewrite Hl. Qed.

Lemma serialize_normalize s h k v :
  is_record h v →
  serialize s v (h ++ k)
  = ((h ++ k) ++ [Wrap (normalize s h v)], Ok (VRef (length (h ++ k)))).
Proof.
  intros (l & fs & -> & Hl & Hclosed).
  assert (Hl' : (h ++ k) !! l = Some (Obj fs)).
  { rewrite lookup_app_l; [done|]. by eapply lookup_lt_Some. }
  unfold serialize, normalize, field. rewrite Hl.
  do 3 (unfold bind at 1; rewrite (get_object _ _ _ _ Hl')).
  set (d := default VUndefined (assoc (dependsProperty s) fs)).
  assert (Hd : ∀ l', d = VRef l' → (h ++ k) !! l' = h !! l' ∧ is_Some (h !! l')).
  { intros l' Hd. unfold d in Hd.
    destruct (assoc (dependsProperty s) fs) as [d'|] eqn:Ed; simpl in Hd; [|done].
    subst d'. pose proof (Hclosed _ _ Ed) as Hs. split; [|done].
    rewrite lookup_app_l; [done|]. by apply lookup_lt_is_Some. }
  assert (E : (if truthy d
               then let* a := as_array d in
                    ret (match a with Some xs => xs | None => [d] end)
               else ret []) (h ++ k)
              = (h ++ k, Ok (match list_of h d with
                             | Some xs => xs
                             | None => if truthy d then [d] else []
                             end))).
  { unfold bind, as_array, list_of, ret.
    destruct d as [| |b|x|str|l'] eqn:Ed; simpl; try done.
    - by destruct b.
    - by destruct x as [| |q|]; simpl; try done; destruct (Qeq_bool q 0).
    - by destruct (negb _).
    - destruct (Hd l' eq_refl) as [-> [c Hc]]. rewrite Hc. by destruct c. }
  unfold bind at 1. rewrite E. unfold bind, alloc, ret. done.
Qed.

Lemma normalize_app s h k v :
  is_record h v → normalize s (h ++ k) v = normalize s h v.
Proof.
  intros Hr.
  assert (Hr' : is_record (h ++ k) v).
  { destruct Hr as (l & fs & -> & Hl & Hc). exists l, fs. split; [done|]. split.
    - rewrite lookup_app_l; [done|]. by eapply lookup_lt_Some.
    - intros k' l' Hk. destruct (Hc k' l' Hk) as [c Hc'].
      exists c. rewrite lookup_app_l; [done|]. by eapply lookup_lt_Some. }
  pose proof (serialize_normalize s h k v Hr) as E1.
  pose proof (serialize_normalize s (h ++ k) [] v Hr') as E2.
  rewrite !app_nil_r in E2. rewrite E1 in E2.
  injection E2 as E2. apply app_inj_tail in E2 as [_ E2]. congruence.
Qed.

Lemma is_record_app h k v : is_record h v → is_record (h ++ k) v.
Proof.
  intros (l & fs & -> & Hl & Hc). exists l, fs. split; [done|]. split.
  - rewrite lookup_app_l; [done|]. by eapply lookup_lt_Some.
  - intros k' l' Hk. destruct (Hc k' l' Hk) as [c Hc'].
    exists c. rewrite lookup_app_l; [done|]. by eapply lookup_lt_Some.
Qed.

(** [nodes.map(serializer.serialize)]: one new wrapper per record, in
    order, then the new array. *)
Lemma mapM_serialize s h xs : ∀ k,
  Forall (is_record h) xs →
  mapM (serialize s) xs (h ++ k)
  = ((h ++ k) ++ (Wrap ∘ normalize s h <$> xs),
     Ok (VRef <$> seq (length (h ++ k)) (length xs))).
Proof.
  induction xs as [|x xs IH]; intros k Hall; simpl.
  - by rewrite app_nil_r.
  - apply Forall_cons in Hall as [Hx Hall].
    unfold bind at 1. rewrite (serialize_normalize s h k x Hx).
    rewrite <- (app_assoc h k). unfold bind at 1. rewrite (IH _ Hall).
    unfold ret. rewrite !length_app. simpl.
    rewrite <- !app_assoc. simpl.
    do 5 f_equal. lia.
Qed.

Lemma deserialize_at h x w :
  wrapper_at h x = Some w → deserialize x h = (h, Ok (node w)).
Proof.
  intros Hw. unfold deserialize, bind. by rewrite (read_wrapper_at _ _ _ Hw).
Qed.

Lemma mapM_deserialize h (arr : list value) :
  nodes_ok h arr → mapM deserialize arr h = (h, Ok (node_of h <$> arr)).
Proof.
  induction arr as [|x arr IH]; intros Hok; simpl; [done|].
  apply Forall_cons in Hok as [[w Hw] Hok].
  unfold bind at 1. rewrite (deserialize_at _ _ _ Hw).
  unfold bind at 1. rewrite (IH Hok). unfold ret, node_of. by rewrite Hw.
Qed.

(** ** The sorter *)

Section Serialized.
Variables (s : serializer) (h : heap) (xs : list value).

Lemma serialized_wrapper i x :
  xs !! i = Some x →
  wrapper_at (serialized_heap s h xs) (VRef (length h + i)) = Some (normalize s h x).
Proof.
  intros Hx. unfold serialized_heap. rewrite wrapper_at_app_arr. simpl.
  rewrite lookup_app_r by lia.
  replace (length h + i - length h)%nat with i by lia.
  rewrite list_lookup_fmap, Hx. done.
Qed.

Lemma serialized_nodes_elem n :
  n ∈ (serialized_nodes h xs) →
  ∃ i x, n = VRef (length h + i) ∧ xs !! i = Some x.
Proof.
  unfold serialized_nodes. intros (j & -> & Hj)%list_elem_of_fmap.
  apply elem_of_seq in Hj.
  destruct (lookup_lt_is_Some_2 xs (j - length h)) as [x Hx]; [lia|].
  exists (j - length h)%nat, x. split; [f_equal; lia|done].
Qed.

Lemma serialized_node_wrapper n :
  n ∈ (serialized_nodes h xs) →
  node_of (serialized_heap s h xs) n ∈ xs ∧
  wrapper_at (serialized_heap s h xs) n
  = Some (normalize s h (node_of (serialized_heap s h xs) n)).
Proof.
  intros (i & x & -> & Hx)%serialized_nodes_elem.
  unfold node_of. rewrite (serialized_wrapper i x Hx). simpl.
  split; [by eapply list_elem_of_lookup_2|done].
Qed.

Lemma serialized_nodes_records :
  node_of (serialized_heap s h xs) <$> (serialized_nodes h xs) = xs.
Proof.
  apply list_eq. intros i. unfold serialized_nodes.
  rewrite !list_lookup_fmap.
  destruct (xs !! i) as [x|] eqn:Hx.
  - rewrite lookup_seq_lt by (by eapply lookup_lt_Some). simpl.
    unfold node_of. by rewrite (serialized_wrapper i x Hx).
  - rewrite lookup_seq_ge; [done|]. by apply lookup_ge_None.
Qed.

Lemma serialized_nodes_NoDup : NoDup (serialized_nodes h xs).
Proof.
  unfold serialized_nodes. apply NoDup_fmap_2; [|apply NoDup_seq].
  by intros ?? [= ->].
Qed.

Lemma serialized_dep x y :
  x ∈ (serialized_nodes h xs) → y ∈ (serialized_nodes h xs) →
  dep (serialized_heap s h xs) x y
  = depends_on s h (node_of (serialized_heap s h xs) x) (node_of (serialized_heap s h xs) y).
Proof.
  intros [_ Hx]%serialized_node_wrapper [_ Hy]%serialized_node_wrapper.
  unfold dep, depends_on. by rewrite Hx, Hy.
Qed.

Lemma serialized_edge x y :
  edge (serialized_heap s h xs) (serialized_nodes h xs) x y →
  record_edge s h xs (node_of (serialized_heap s h xs) x) (node_of (serialized_heap s h xs) y).
Proof.
  intros (Hx & Hy & Hd). split; [|split].
  - by apply serialized_node_wrapper.
  - by apply serialized_node_wrapper.
  - by rewrite <- serialized_dep.
Qed.
End Serialized.

Lemma array_map_serialize s h a xs :
  h !! a = Some (Arr xs) → Forall (is_record h) xs →
  array_map (serialize s) (VRef a) h
  = (serialized_heap s h xs, Ok (VRef (length h + length xs)%nat)).
Proof.
  intros Ha Hall. unfold array_map, bind at 1, read_array. rewrite Ha.
  pose proof (mapM_serialize s h xs [] Hall) as E. rewrite !app_nil_r in E.
  unfold bind at 1. rewrite E. unfold bind, alloc, ret, serialized_heap.
  rewrite length_app, length_fmap. done.
Qed.

Lemma array_map_deserialize h l (arr : list value) :
  h !! l = Some (Arr arr) → nodes_ok h arr →
  array_map deserialize (VRef l) h
  = (h ++ [Arr (node_of h <$> arr)], Ok (VRef (length h))).
Proof.
  intros Hl Hok. unfold array_map, bind at 1, read_array. rewrite Hl.
  unfold bind at 1. rewrite (mapM_deserialize h arr Hok). done.
Qed.

(** What [sort] does on at least two records: it returns a new array of
    the same records in dependency order, or throws at a record on a
    cycle. *)
Lemma sort_spec s h a xs :
  h !! a = Some (Arr xs) → Forall (is_record h) xs → (2 ≤ length xs)%nat →
  match sort s (VRef a) h with
  | (h', Ok v) =>
      ∃ l out, v = VRef l ∧ (length h ≤ l)%nat ∧ h' !! l = Some (Arr out) ∧
               out ≡ₚ xs ∧ in_dependency_order s h out
  | (_, Throw e) =>
      ∃ c, tc (record_edge s h xs) c c ∧ e = CycleError (id (normalize s h c))
  | _ => False
  end.
Proof.
  intros Ha Hall Hlen. unfold sort, bind at 1.
  rewrite (array_map_serialize s h a xs Ha Hall).
  set (h1 := serialized_heap s h xs). set (ns := serialized_nodes h xs).
  assert (Ha1 : h1 !! (length h + length xs)%nat = Some (Arr ns)).
  { unfold h1, serialized_heap.
    replace (length h + length xs)%nat
      with (length (h ++ (Wrap ∘ normalize s h <$> xs)))
      by (by rewrite length_app, length_fmap).
    by rewrite list_lookup_middle. }
  assert (Hfresh : ∀ x, x ∈ ns → ∃ w, wrapper_at h1 x = Some w ∧ mark w = UNMARKED).
  { intros x Hx. apply (serialized_node_wrapper s h xs) in Hx as [_ Hx].
    eexists. split; [exact Hx|done]. }
  pose proof (sortByDepends_spec h1 _ ns Ha1 Hfresh) as Hdfs.
  unfold bind at 1.
  destruct (sortByDepends _ h1) as [h2 [v| e | |]]; try done.
  - destruct Hdfs as (-> & Hlen2 & Hstat & _ & res & Hres & Hnd & Hmem & Hord).
    assert (Hperm : res ≡ₚ ns).
    { apply NoDup_Permutation; [done|apply serialized_nodes_NoDup|done]. }
    assert (Hok2 : nodes_ok h2 res).
    { apply Forall_forall. intros x Hx. apply Hmem in Hx.
      destruct (Hfresh x Hx) as (w & Hw & _).
      destruct (static_at_wrapper h2 h1 x w (Hstat x) Hw) as (w' & Hw' & _). eauto. }
    assert (Hlres : length res = length xs).
    { rewrite Hperm. unfold ns, serialized_nodes. by rewrite length_fmap, length_seq. }
    destruct (sortByWeight_spec h2 (length h1) res Hres Hok2 ltac:(lia))
      as (arr & E3 & Hp3 & Ho3).
    unfold bind at 1. rewrite E3.
    set (h3 := <[length h1 := Arr arr]> h2).
    assert (Hw3 : ∀ v, wrapper_at h3 v = wrapper_at h2 v).
    { intros v. by eapply wrapper_at_insert_arr. }
    assert (Hnode : ∀ x, x ∈ ns → node_of h3 x = node_of h1 x).
    { intros x Hx. unfold node_of. rewrite Hw3.
      pose proof (Hstat x) as Hsx. unfold static_at, static in Hsx.
      destruct (wrapper_at h2 x), (wrapper_at h1 x); simpl in Hsx; congruence. }
    assert (Hok3 : nodes_ok h3 arr).
    { eapply nodes_ok_Permutation in Hok2; [|exact Hp3].
      eapply Forall_impl; [exact Hok2|]. intros v Hv. by rewrite Hw3. }
    assert (Hl3 : h3 !! length h1 = Some (Arr arr)).
    { unfold h3. rewrite list_lookup_insert_eq; [done|]. by eapply lookup_lt_Some. }
    unfold bind at 1. rewrite (array_map_deserialize h3 _ arr Hl3 Hok3).
    unfold ret.
    exists (length h3), (node_of h3 <$> arr).
    split; [done|]. split.
    { unfold h3. rewrite length_insert, Hlen2. unfold h1, serialized_heap.
      rewrite !length_app. lia. }
    split; [by rewrite list_lookup_middle|].
    assert (Harr : ∀ x, x ∈ arr → x ∈ ns).
    { intros x Hx. apply Hmem. by rewrite <- Hp3. }
    split.
    + rewrite Hp3, Hperm, <- (serialized_nodes_records s h xs).
      fold ns h1. apply Permutation_refl'.
      apply list_fmap_ext. intros i x Hx. apply Hnode.
      by eapply list_elem_of_lookup_2.
    + intros p q n m Hp Hq Hd.
      rewrite list_lookup_fmap in Hp, Hq.
      destruct (arr !! p) as [x|] eqn:Hx; [|done].
      destruct (arr !! q) as [y|] eqn:Hy; [|done].
      injection Hp as <-. injection Hq as <-.
      assert (Hxn : x ∈ ns) by (apply Harr; by eapply list_elem_of_lookup_2).
      assert (Hyn : y ∈ ns) by (apply Harr; by eapply list_elem_of_lookup_2).
      rewrite !Hnode in Hd by done.
      assert (Ho2 : ordered h2 arr).
      { apply Ho3. intros p' q' x' y' Hp' Hq' Hd'.
        rewrite (dep_static h2 h1) in Hd' by done. eauto. }
      apply (Ho2 p q x y Hx Hy).
      rewrite (dep_static h2 h1) by done.
      unfold h1, ns in *. by rewrite serialized_dep.
  - destruct Hdfs as (c & w & Hc & Hw & ->).
    exists (node_of h1 c). split.
    + eapply tc_congruence; [|exact Hc]. apply serialized_edge.
    + assert (Hcn : c ∈ ns).
      { inversion Hc as [?? [? _]|??? [? _]]; done. }
      apply (serialized_node_wrapper s h xs) in Hcn as [_ Hcw].
      fold h1 in Hcw. rewrite Hw in Hcw. by injection Hcw as ->.
Qed.

(** ** Frame *)

Lemma unchanged_refl L h : unchanged_outside L h h.
Proof. by split. Qed.

Lemma unchanged_trans L h1 h2 h3 :
  unchanged_outside L h1 h2 → unchanged_outside L h2 h3 →
  unchanged_outside L h1 h3.
Proof.
  intros [Hl1 H1] [Hl2 H2]. split; [lia|]. intros l c Hc HL.
  apply H2; [|done]. by apply H1.
Qed.

Lemma unchanged_weaken (L L' : loc → Prop) h h' :
  (∀ l, (l < length h)%nat → L l → L' l) →
  unchanged_outside L h h' → unchanged_outside L' h h'.
Proof.
  intros HL [Hlen H]. split; [done|]. intros l c Hc Hn. apply H; [done|].
  intros Hl. apply Hn, HL; [|done]. by eapply lookup_lt_Some.
Qed.

Lemma unchanged_app L h k : unchanged_outside L h (h ++ k).
Proof.
  split; [rewrite length_app; lia|]. intros l c Hc _.
  rewrite lookup_app_l; [done|]. by eapply lookup_lt_Some.
Qed.

Lemma unchanged_insert (L : loc → Prop) h l c :
  L l → unchanged_outside L h (<[l := c]> h).
Proof.
  intros HL. split; [by rewrite length_insert|]. intros l' c' Hc Hn.
  rewrite list_lookup_insert_ne; [done|]. by intros ->.
Qed.

Section Keeps.
Context (L : loc → Prop).

Lemma keeps_ret {A} (x : A) : keeps L (ret x).
Proof. intros h. apply unchanged_refl. Qed.

Lemma keeps_throw {A} e : keeps L (@throw heap A e).
Proof. intros h. apply unchanged_refl. Qed.

Lemma keeps_bind {A B} (c : M heap A) (k : A → M heap B) :
  keeps L c → (∀ x, keeps L (k x)) → keeps L (bind c k).
Proof.
  intros Hc Hk h. unfold bind. specialize (Hc h).
  destruct (c h) as [h1 [x|e| |]]; simpl in *; try done.
  eapply unchanged_trans; [done|]. apply Hk.
Qed.

Lemma keeps_forEach {A} (f : A → M heap unit) xs :
  (∀ x, x ∈ xs → keeps L (f x)) → keeps L (forEach f xs).
Proof.
  induction xs as [|x xs IH]; intros Hf; simpl; [apply keeps_ret|].
  apply keeps_bind; [apply Hf; left|]. intros _. apply IH.
  intros y Hy. apply Hf. by right.
Qed.

Lemma keeps_mapM {A B} (f : A → M heap B) xs :
  (∀ x, x ∈ xs → keeps L (f x)) → keeps L (mapM f xs).
Proof.
  induction xs as [|x xs IH]; intros Hf; simpl; [apply keeps_ret|].
  apply keeps_bind; [apply Hf; left|]. intros y.
  apply keeps_bind; [|intros; apply keeps_ret]. apply IH.
  intros z Hz. apply Hf. by right.
Qed.

Lemma keeps_alloc c : keeps L (alloc c).
Proof. intros h. apply unchanged_app. Qed.

Lemma keeps_read_array v : keeps L (read_array v).
Proof.
  intros h. unfold read_array.
  destruct v as [| | | | |l]; try apply unchanged_refl.
  destruct (h !! l) as [[]|]; apply unchanged_refl.
Qed.

Lemma keeps_read_wrapper v : keeps L (read_wrapper v).
Proof.
  intros h. unfold read_wrapper.
  destruct v as [| | | | |l]; try apply unchanged_refl.
  destruct (h !! l) as [[]|]; apply unchanged_refl.
Qed.

Lemma keeps_get v name : keeps L (get v name).
Proof.
  intros h. unfold get.
  destruct v as [| | | | |l]; try apply unchanged_refl.
  destruct (h !! l) as [[]|]; apply unchanged_refl.
Qed.

Lemma keeps_as_array v : keeps L (as_array v).
Proof.
  intros h. unfold as_array.
  destruct v as [| | | | |l]; try apply unchanged_refl.
  destruct (h !! l) as [[]|]; apply unchanged_refl.
Qed.

Lemma keeps_set_mark v m :
  (∀ l, v = VRef l → L l) → keeps L (set_mark v m).
Proof.
  intros Hv h. unfold set_mark.
  destruct v as [| | | | |l]; try apply unchanged_refl.
  destruct (h !! l) as [[]|]; try apply unchanged_refl.
  simpl. apply unchanged_insert. by apply Hv.
Qed.

Lemma keeps_unshift v x :
  (∀ l, v = VRef l → L l) → keeps L (unshift v x).
Proof.
  intros Hv h. unfold unshift.
  destruct v as [| | | | |l]; try apply unchanged_refl.
  destruct (h !! l) as [[]|]; try apply unchanged_refl.
  simpl. apply unchanged_insert. by apply Hv.
Qed.

Lemma keeps_serialize s v : keeps L (serialize s v).
Proof.
  unfold serialize.
  repeat (apply keeps_bind; [apply keeps_get|intros ?]).
  apply keeps_bind.
  - destruct (truthy _); [|apply keeps_ret].
    apply keeps_bind; [apply keeps_as_array|intros; apply keeps_ret].
  - intros deps. apply keeps_bind; [apply keeps_alloc|intros; apply keeps_ret].
Qed.

Lemma keeps_deserialize v : keeps L (deserialize v).
Proof.
  unfold deserialize.
  apply keeps_bind; [apply keeps_read_wrapper|intros; apply keeps_ret].
Qed.

Lemma keeps_array_map f v :
  (∀ x, keeps L (f x)) → keeps L (array_map f v).
Proof.
  intros Hf. unfold array_map.
  apply keeps_bind; [apply keeps_read_array|intros xs].
  apply keeps_bind; [by apply keeps_mapM|intros ys].
  apply keeps_bind; [apply keeps_alloc|intros; apply keeps_ret].
Qed.

Lemma keeps_visit fuel ns r : ∀ n,
  (∀ l, VRef l ∈ ns → L l) → L r → n ∈ ns →
  keeps L (visit fuel ns (VRef r) n).
Proof.
  induction fuel as [|fuel IH]; intros n Hns Hr Hn; simpl.
  - intros h. apply unchanged_refl.
  - apply keeps_bind; [apply keeps_read_wrapper|intros w].
    destruct (mark w); [|apply keeps_throw|apply keeps_ret].
    assert (Hnl : ∀ l, n = VRef l → L l) by (intros l ->; by apply Hns).
    apply keeps_bind; [by apply keeps_set_mark|intros _].
    apply keeps_bind.
    + apply keeps_forEach. intros x Hx.
      apply keeps_bind; [apply keeps_read_wrapper|intros wx].
      destruct (tilde _); [by apply IH|apply keeps_ret].
    + intros _. apply keeps_bind; [by apply keeps_set_mark|intros _].
      apply keeps_unshift. by intros l [= ->].
Qed.
End Keeps.

Lemma bind_ok_inv {S A B} (c : M S A) (k : A → M S B) s s' y :
  bind c k s = (s', Ok y) → ∃ s1 x, c s = (s1, Ok x) ∧ k x s1 = (s', Ok y).
Proof.
  unfold bind. destruct (c s) as [s1 [x| | |]]; try done. eauto.
Qed.

Lemma keeps_length {A} L (c : M heap A) h h' r :
  keeps L c → c h = (h', r) → (length h ≤ length h')%nat.
Proof. intros Hk E. destruct (Hk h) as [Hl _]. by rewrite E in Hl. Qed.

(** [serialize] returns a wrapper it has just allocated, unmarked and
    wrapping its argument. *)
Lemma serialize_new s v h h' y :
  serialize s v h = (h', Ok y) →
  ∃ l w, y = VRef l ∧ (length h ≤ l)%nat ∧ h' !! l = Some (Wrap w) ∧
         mark w = UNMARKED ∧ node w = v.
Proof.
  unfold serialize. intros E.
  apply bind_ok_inv in E as (h1 & i & E1 & E).
  apply bind_ok_inv in E as (h2 & w & E2 & E).
  apply bind_ok_inv in E as (h3 & d & E3 & E).
  apply bind_ok_inv in E as (h4 & deps & E4 & E).
  apply bind_ok_inv in E as (h5 & l & E5 & E).
  injection E as <- <-. injection E5 as <- <-.
  apply (keeps_length (λ _, False)) in E1; [|apply keeps_get].
  apply (keeps_length (λ _, False)) in E2; [|apply keeps_get].
  apply (keeps_length (λ _, False)) in E3; [|apply keeps_get].
  apply (keeps_length (λ _, False)) in E4.
  2:{ destruct (truthy d); [|apply keeps_ret].
      apply keeps_bind; [apply keeps_as_array|intros; apply keeps_ret]. }
  eexists _, _. split; [done|]. split; [lia|].
  split; [by rewrite list_lookup_middle|done].
Qed.

Lemma serialize_fresh s v h h' y :
  serialize s v h = (h', Ok y) → ∃ l, y = VRef l ∧ (length h ≤ l)%nat.
Proof. intros (l & w & ? & ? & _)%serialize_new. eauto. Qed.

Lemma mapM_serialize_fresh s xs : ∀ h h' ys,
  mapM (serialize s) xs h = (h', Ok ys) →
  Forall (λ y, ∃ l, y = VRef l ∧ (length h ≤ l)%nat) ys.
Proof.
  induction xs as [|x xs IH]; intros h h' ys; simpl.
  - intros [= <- <-]. constructor.
  - unfold bind at 1.
    destruct (serialize s x h) as [h1 [y| | |]] eqn:E1; try done.
    unfold bind at 1.
    destruct (mapM (serialize s) xs h1) as [h2 [ys'| | |]] eqn:E2; try done.
    intros [= <- <-].
    pose proof (keeps_serialize (λ _, False) s x h) as [Hlen _].
    rewrite E1 in Hlen. simpl in Hlen.
    constructor.
    + by eapply serialize_fresh.
    + eapply Forall_impl; [by eapply IH|].
      intros z (l & -> & Hl). exists l. split; [done|lia].
Qed.

Lemma array_map_result f v h h' x :
  (∀ y, keeps (λ _, False) (f y)) →
  array_map f v h = (h', Ok x) →
  ∃ l out, x = VRef l ∧ (length h ≤ l)%nat ∧ h' !! l = Some (Arr out) ∧
           unchanged_outside (λ _, False) h h'.
Proof.
  intros Hf. unfold array_map, bind at 1.
  pose proof (keeps_read_array (λ _, False) v h) as H1.
  destruct (read_array v h) as [h1 [xs| | |]]; try done.
  unfold bind at 1.
  pose proof (keeps_mapM (λ _, False) f xs (λ y _, Hf y) h1) as H2.
  destruct (mapM f xs h1) as [h2 [ys| | |]]; try done.
  simpl in *. unfold bind, alloc, ret. intros [= <- <-].
  exists (length h2), ys.
  pose proof (unchanged_trans _ _ _ _ H1 H2) as H3.
  split; [done|]. split; [by destruct H3|]. split; [by rewrite list_lookup_middle|].
  eapply unchanged_trans; [exact H3|apply unchanged_app].
Qed.

Lemma array_map_serialize_fresh s v h h1 x :
  array_map (serialize s) v h = (h1, Ok x) →
  ∃ a ys, x = VRef a ∧ h1 !! a = Some (Arr ys) ∧
          Forall (λ y, ∃ l, y = VRef l ∧ (length h ≤ l)%nat) ys.
Proof.
  unfold array_map, bind at 1.
  pose proof (keeps_read_array (λ _, False) v h) as H1.
  destruct (read_array v h) as [h0 [xs| | |]]; try done.
  unfold bind at 1.
  destruct (mapM (serialize s) xs h0) as [h2 [ys| | |]] eqn:E; try done.
  unfold bind, alloc, ret. intros [= <- <-].
  exists (length h2), ys. split; [done|]. split; [by rewrite list_lookup_middle|].
  eapply Forall_impl; [by eapply mapM_serialize_fresh|].
  intros z (l & -> & Hl). exists l. split; [done|]. destruct H1; simpl in *; lia.
Qed.

Lemma read_array_inv v h h' xs :
  read_array v h = (h', Ok xs) →
  h' = h ∧ ∃ a, v = VRef a ∧ h !! a = Some (Arr xs).
Proof.
  unfold read_array. destruct v as [| | | | |a]; try done.
  destruct (h !! a) as [[|ys|]|] eqn:E; try done.
  intros [= <- <-]. eauto.
Qed.

(** [sortByDepends] writes only to the nodes of the array it is given. *)
Lemma sortByDepends_frame v h :
  unchanged_outside
    (λ l, ∃ a ns, v = VRef a ∧ h !! a = Some (Arr ns) ∧ VRef l ∈ ns)
    h (fst (sortByDepends v h)) ∧
  ∀ x, snd (sortByDepends v h) = Ok x → x = VRef (length h).
Proof.
  destruct (sortByDepends v h) as [hf rf] eqn:Ef. cbn [fst snd]. revert Ef.
  unfold sortByDepends, bind at 1, alloc.
  set (h1 := h ++ [Arr []]). unfold bind at 1.
  pose proof (keeps_read_array (λ _, False) v h1) as Hk0.
  destruct (read_array v h1) as [h1' [ns| | |]] eqn:E; cbn [fst snd] in *.
  2-4: intros [= <- <-]; split; [|done]; eapply unchanged_weaken;
         [|eapply unchanged_trans;
            [apply (unchanged_app (λ _, False))|exact Hk0]]; done.
  apply read_array_inv in E as [-> (a & -> & Ha)].
  set (body := λ n : value,
         let* w := read_wrapper n in
         match mark w with
         | UNMARKED => visit (S (length ns)) ns (VRef (length h)) n
         | _ => ret tt
         end).
  pose (L1 := λ l, VRef l ∈ ns ∨ l = length h).
  assert (Hk : keeps L1 (forEach body ns)).
  { apply keeps_forEach. intros x Hx. unfold body.
    apply keeps_bind; [apply keeps_read_wrapper|intros w].
    destruct (mark w); try apply keeps_ret.
    apply keeps_visit; [by left|by right|done]. }
  specialize (Hk h1). unfold bind.
  destruct (forEach body ns h1) as [h2 rr]. cbn [fst] in Hk.
  assert (Hgoal : unchanged_outside
    (λ l, ∃ a0 ns0, VRef a = VRef a0 ∧ h !! a0 = Some (Arr ns0) ∧ VRef l ∈ ns0) h h2).
  { eapply unchanged_weaken;
      [|eapply unchanged_trans; [apply (unchanged_app L1 h [Arr []])|exact Hk]].
    intros l Hl [Hin| ->]; [|lia]. exists a, ns. split; [done|]. split; [|done].
    destruct (decide (a < length h)%nat) as [Hlt|Hge].
    - rewrite <- Ha. unfold h1. by rewrite lookup_app_l.
    - assert (a = length h) as ->.
      { apply lookup_lt_Some in Ha. unfold h1 in Ha. rewrite length_app in Ha.
        simpl in Ha. lia. }
      unfold h1 in Ha. rewrite list_lookup_middle in Ha by done.
      injection Ha as <-. by apply elem_of_nil in Hin. }
  destruct rr as [[]| | |]; intros [= <- <-]; (split; [exact Hgoal|]); try done.
  by intros x [= <-].
Qed.

Lemma sortByWeight_frame v h :
  unchanged_outside (λ l, v = VRef l) h (fst (sortByWeight v h)).
Proof.
  unfold sortByWeight. destruct v as [| | | | |l]; try apply unchanged_refl.
  destruct (h !! l) as [[|arr|]|]; try apply unchanged_refl.
  destruct (sortByWeight_array h arr) as [arr' r]. simpl.
  by apply unchanged_insert.
Qed.

(** ** Cycles and short inputs *)

Lemma sorted_acyclic s h xs out :
  out ≡ₚ xs → in_dependency_order s h out → acyclic s h xs.
Proof.
  intros Hperm Hord c Hc.
  assert (G : ∀ a b, tc (record_edge s h xs) a b →
            ∀ p q, out !! p = Some a → out !! q = Some b → (p < q)%nat).
  { intros a b Hab. induction Hab as [a b (Ha & Hb & Hd)|a z b (Ha & Hz & Hd) _ IH];
      intros p q Hp Hq.
    - by eapply Hord.
    - rewrite <- Hperm in Hz. apply list_elem_of_lookup_1 in Hz as [r Hr].
      pose proof (Hord p r a z Hp Hr Hd). pose proof (IH r q Hr Hq). lia. }
  assert (Hin : c ∈ out).
  { rewrite Hperm. inversion Hc as [?? [? _]|??? [? _]]; done. }
  apply list_elem_of_lookup_1 in Hin as [p Hp].
  pose proof (G c c Hc p p Hp Hp). lia.
Qed.

(** With fewer than two nodes the passes of [sortByWeight] start outside
    the array: on no node the first reads [arr[1]], on one node the second
    reads [arr[-1]], and the weight of [undefined] is a TypeError. *)
Lemma sortByWeight_array_short h (arr : list value) :
  (length arr < 2)%nat →
  sortByWeight_array h arr = (arr, Throw TypeError).
Proof.
  destruct arr as [|x [|y arr]]; simpl; intros Hlen; try lia; reflexivity.
Qed.

Lemma sort_short s h a xs :
  h !! a = Some (Arr xs) → Forall (is_record h) xs → (length xs < 2)%nat →
  ∃ e, snd (sort s (VRef a) h) = Throw e ∧
       (acyclic s h xs → e = TypeError).
Proof.
  intros Ha Hall Hlen. unfold sort, bind at 1.
  rewrite (array_map_serialize s h a xs Ha Hall).
  set (h1 := serialized_heap s h xs). set (ns := serialized_nodes h xs).
  assert (Ha1 : h1 !! (length h + length xs)%nat = Some (Arr ns)).
  { unfold h1, serialized_heap.
    replace (length h + length xs)%nat
      with (length (h ++ (Wrap ∘ normalize s h <$> xs)))
      by (by rewrite length_app, length_fmap).
    by rewrite list_lookup_middle. }
  assert (Hfresh : ∀ x, x ∈ ns → ∃ w, wrapper_at h1 x = Some w ∧ mark w = UNMARKED).
  { intros x Hx. apply (serialized_node_wrapper s h xs) in Hx as [_ Hx].
    eexists. split; [exact Hx|done]. }
  pose proof (sortByDepends_spec h1 _ ns Ha1 Hfresh) as Hdfs.
  unfold bind at 1.
  destruct (sortByDepends _ h1) as [h2 [v| e | |]]; try done.
  - destruct Hdfs as (-> & Hlen2 & Hstat & _ & res & Hres & Hnd & Hmem & Hord).
    assert (Hperm : res ≡ₚ ns).
    { apply NoDup_Permutation; [done|apply serialized_nodes_NoDup|done]. }
    assert (Hlres : length res = length xs).
    { rewrite Hperm. unfold ns, serialized_nodes. by rewrite length_fmap, length_seq. }
    unfold bind, sortByWeight. rewrite Hres.
    rewrite sortByWeight_array_short by lia. simpl. eauto.
  - simpl. exists e. split; [done|]. intros Hacyc.
    destruct Hdfs as (c & w & Hc & _). exfalso.
    apply (Hacyc (node_of h1 c)).
    eapply tc_congruence; [|exact Hc]. apply serialized_edge.
Qed.

Lemma sort_frame (s : serializer) (v : value) (h : heap) :
  (∀ l c, h !! l = Some c → fst (sort s v h) !! l = Some c) ∧
  (∀ x, snd (sort s v h) = Ok x →
     ∃ l out, x = VRef l ∧ (length h ≤ l)%nat ∧
              fst (sort s v h) !! l = Some (Arr out)).
Proof.
  pose (L := λ l : nat, (length h ≤ l)%nat).
  assert (Hfin : ∀ h' r, sort s v h = (h', r) →
    unchanged_outside L h h' ∧
    ∀ x, r = Ok x → ∃ l out, x = VRef l ∧ (length h ≤ l)%nat ∧
                             h' !! l = Some (Arr out)).
  { intros h' r. unfold sort, bind at 1.
    pose proof (keeps_array_map (λ _, False) (serialize s) v
                  (keeps_serialize _ s) h) as K1.
    destruct (array_map (serialize s) v h) as [h1 [n1| | |]] eqn:E1;
      cbn [fst] in K1.
    2-4: intros [= <- <-]; split; [|done];
         eapply unchanged_weaken; [|exact K1]; done.
    apply array_map_serialize_fresh in E1 as (a1 & ys & -> & Ha1 & Hys).
    assert (U1 : unchanged_outside L h h1)
      by (eapply unchanged_weaken; [|exact K1]; done).
    unfold bind at 1.
    destruct (sortByDepends_frame (VRef a1) h1) as [K2 R2].
    destruct (sortByDepends (VRef a1) h1) as [h2 r2]; cbn [fst snd] in *.
    assert (U2 : unchanged_outside L h h2).
    { eapply unchanged_trans; [exact U1|].
      eapply unchanged_weaken; [|exact K2].
      intros l _ (a & ns & [= <-] & Hns & Hl). rewrite Ha1 in Hns.
      injection Hns as <-.
      destruct (proj1 (Forall_forall _ _) Hys _ Hl) as (l' & [= <-] & Hl').
      done. }
    destruct r2 as [n2| | |].
    2-4: by intros [= <- <-].
    rewrite (R2 n2 eq_refl). unfold bind at 1.
    pose proof (sortByWeight_frame (VRef (length h1)) h2) as K3.
    destruct (sortByWeight (VRef (length h1)) h2) as [h3 r3]; cbn [fst] in K3.
    assert (U3 : unchanged_outside L h h3).
    { eapply unchanged_trans; [exact U2|].
      eapply unchanged_weaken; [|exact K3].
      intros l _ [= <-]. unfold L. by destruct U1. }
    destruct r3 as [n3| | |].
    2-4: by intros [= <- <-].
    unfold bind.
    destruct (array_map deserialize (VRef (length h1)) h3) as [h4 [n4| | |]] eqn:E4.
    2-4: pose proof (keeps_array_map (λ _, False) deserialize (VRef (length h1))
                       (keeps_deserialize _) h3) as K4;
         rewrite E4 in K4; cbn [fst] in K4;
         intros [= <- <-]; split; [|done];
         eapply unchanged_trans; [exact U3|];
         eapply unchanged_weaken; [|exact K4]; done.
    apply array_map_result in E4 as (l & out & -> & Hl & Hout & K4);
      [|apply keeps_deserialize].
    unfold ret. intros [= <- <-]. split.
    - eapply unchanged_trans; [exact U3|].
      eapply unchanged_weaken; [|exact K4]; done.
    - intros x [= <-]. exists l, out. split; [done|]. split; [|done].
      destruct U3. lia. }
  destruct (sort s v h) as [h' r] eqn:E. cbn [fst snd].
  destruct (Hfin h' r eq_refl) as [[_ Hu] Hr]. split; [|done].
  intros l c Hc. apply Hu; [done|]. unfold L.
  apply lookup_lt_Some in Hc. lia.
Qed.

(** * The claims *)

(** C6. Whatever it is given, [sort] leaves every cell of the caller's
    heap as it was: the input array keeps its elements and no record is
    written to.  When it returns, it returns an array at a new address.
    [serialize] leaves the heap as it was too, and the wrapper it returns
    is a new cell, unmarked: the marks live there. *)
Theorem sort_leaves_input (s : serializer) (v : value) (h : heap) :
  (∀ l c, h !! l = Some c → fst (sort s v h) !! l = Some c) ∧
  (∀ x, snd (sort s v h) = Ok x →
     ∃ l out, x = VRef l ∧ (length h ≤ l)%nat ∧
              fst (sort s v h) !! l = Some (Arr out)) ∧
  (∀ record h' x, serialize s record h = (h', Ok x) →
     (∀ l c, h !! l = Some c → h' !! l = Some c) ∧
     ∃ l w, x = VRef l ∧ (length h ≤ l)%nat ∧ h' !! l = Some (Wrap w) ∧
            mark w = UNMARKED ∧ node w = record).
Proof.
  split; [apply sort_frame|]. split; [apply sort_frame|].
  intros record h' x E. split; [|by eapply serialize_new].
  destruct (keeps_serialize (λ _, False) s record h) as [_ Hk].
  rewrite E in Hk. intros l c Hc. apply Hk; [done|tauto].
Qed.

(** C3. The queue of the README: the eight people, in the order they are
    listed, sort to Donna, Sherry, Tom, Billie, Jim, Dillon, Chris, Jerk. *)
Theorem readme_queue :
  snd (peopleSorter people people_heap) = Ok (VRef 21%nat) ∧
  fst (peopleSorter people people_heap) !! 21%nat
  = Some (Arr [Donna; Sherry; Tom; Billie; Jim; Dillon; Chris; Jerk]).
Proof. split; vm_compute; reflexivity. Qed.

(** C8. [serialize] succeeds on every record under every configuration,
    and the wrapper it allocates is the normal form of the record: the id
    field or else the record itself, the numeric weight or else the default
    weight, the list of dependencies, one dependency or none. *)
Theorem serialize_normalizes (opts : option options) (h : heap) (record : value) :
  is_record h record →
  serialize (Serializer opts) record h
  = (h ++ [Wrap (normalize (Serializer opts) h record)], Ok (VRef (length h))).
Proof.
  intros Hr. pose proof (serialize_normalize (Serializer opts) h [] record Hr) as E.
  by rewrite !app_nil_r in E.
Qed.

Lemma serialize_normalizes_witness :
  is_record people_heap Tom ∧
  serialize (Serializer None) Tom people_heap
  = (people_heap ++ [Wrap (normalize (Serializer None) people_heap Tom)],
     Ok (VRef (length people_heap))).
Proof.
  assert (Hr : is_record people_heap Tom).
  { exists 9%nat, [("name", VStr "Tom"); ("depends", VRef 8%nat);
                   ("weight", VNum (Fin (-10)))]%string.
    split; [reflexivity|]. split; [reflexivity|].
    intros k l'. cbn [assoc].
    destruct (String.eqb "name" k); [intros [=]|].
    destruct (String.eqb "depends" k); [intros [= <-]; by eexists|].
    destruct (String.eqb "weight" k); intros [=]. }
  split; [exact Hr|]. exact (serialize_normalizes None people_heap Tom Hr).
Defined.

Lemma sort_ok_acyclic s h a xs v :
  h !! a = Some (Arr xs) → Forall (is_record h) xs →
  snd (sort s (VRef a) h) = Ok v → acyclic s h xs.
Proof.
  intros Ha Hall Hok.
  destruct (decide (length xs < 2)%nat) as [Hlt|Hge].
  - destruct (sort_short s h a xs Ha Hall Hlt) as (e & He & _). congruence.
  - pose proof (sort_spec s h a xs Ha Hall ltac:(lia)) as Hs.
    destruct (sort s (VRef a) h) as [h' [x|e| |]]; try done.
    destruct Hs as (l & out & _ & _ & _ & Hperm & Hord).
    by eapply sorted_acyclic.
Qed.

(** On at least two records, [sort] throws exactly when the records have a
    cycle, and the error names a record on one. *)
Lemma sort_cycle_iff s h a xs :
  h !! a = Some (Arr xs) → Forall (is_record h) xs → (2 ≤ length xs)%nat →
  (∃ e, snd (sort s (VRef a) h) = Throw e) ↔ ¬ acyclic s h xs.
Proof.
  intros Ha Hall Hlen.
  pose proof (sort_spec s h a xs Ha Hall Hlen) as Hs.
  pose proof (sort_ok_acyclic s h a xs) as Hok.
  destruct (sort s (VRef a) h) as [h' [x|e| |]]; try done; simpl in *.
  - split; [by intros [e He]|]. intros Hn. destruct Hn. by eapply Hok.
  - split; [|by eauto]. intros _ Hacyc.
    destruct Hs as (c & Hc & _). by apply (Hacyc c).
Qed.

Ltac solve_record :=
  eexists _, _; split; [reflexivity|]; split; [reflexivity|];
  let k := fresh "k" in let l := fresh "l" in
  intros k l; cbn [assoc];
  repeat (destruct (String.eqb _ k); [intros ?; simplify_eq; by eexists|]);
  intros [=].

Ltac solve_records :=
  repeat (apply Forall_cons; split; [solve_record|]); by constructor.




Lemma no_edges_acyclic s h xs :
  (∀ a b, a ∈ xs → b ∈ xs → depends_on s h b a = false) → acyclic s h xs.
Proof.
  intros Hno c Hc.
  assert (∃ b, record_edge s h xs c b) as [b (Ha & Hb & Hd)].
  { inversion Hc; eauto. }
  rewrite Hno in Hd; done.
Qed.

(** C2, at the input [[{id: "x", depends: "nonexistent"}]]: the record
    depends on nothing in the input, so there is no cycle, and [sort]
    throws a TypeError. *)
Theorem sort_single_record_throws :
  acyclic (Serializer None) lonely_heap [VRef 0%nat] ∧
  snd (sort (Serializer None) (VRef 1%nat) lonely_heap) = Throw TypeError.
Proof.
  split; [|vm_compute; reflexivity].
  apply no_edges_acyclic. intros a b ->%list_elem_of_singleton ->%list_elem_of_singleton.
  vm_compute. reflexivity.
Qed.

(** C4, at the input [[{id: "a"}, {id: "b", weight: 5}]]: the two records
    do not depend on one another, and [sort] returns [b] of weight 5 before
    [a] of weight 0. *)
Theorem sort_leaves_heavy_first :
  depends_on (Serializer None) heavy_last_heap (VRef 0%nat) (VRef 1%nat) = false ∧
  depends_on (Serializer None) heavy_last_heap (VRef 1%nat) (VRef 0%nat) = false ∧
  snd (sort (Serializer None) (VRef 2%nat) heavy_last_heap) = Ok (VRef 7%nat) ∧
  fst (sort (Serializer None) (VRef 2%nat) heavy_last_heap) !! 7%nat
  = Some (Arr [VRef 1%nat; VRef 0%nat]) ∧
  num_lt (weight (normalize (Serializer None) heavy_last_heap (VRef 0%nat)))
         (weight (normalize (Serializer None) heavy_last_heap (VRef 1%nat))) = true.
Proof. repeat split; vm_compute; reflexivity. Qed.

(** ** Marked nodes *)

Lemma forEach_skip {S A} (f : A → M S unit) xs s :
  (∀ x, x ∈ xs → f x s = (s, Ok tt)) → forEach f xs s = (s, Ok tt).
Proof.
  induction xs as [|x xs IH]; intros Hf; simpl; [done|].
  unfold bind. rewrite Hf by left. apply IH. intros y Hy. apply Hf. by right.
Qed.

(** On nodes that are all marked, [sortByDepends] visits nothing. *)
Lemma sortByDepends_marked h a ns :
  h !! a = Some (Arr ns) →
  (∀ x, x ∈ ns → ∃ w, wrapper_at h x = Some w ∧ mark w ≠ UNMARKED) →
  sortByDepends (VRef a) h = (h ++ [Arr []], Ok (VRef (length h))).
Proof.
  intros Ha Hm. unfold sortByDepends, bind at 1, alloc.
  unfold bind at 1, read_array.
  rewrite (lookup_app_l h) by (by eapply lookup_lt_Some). rewrite Ha.
  unfold bind. rewrite forEach_skip; [done|].
  intros x Hx. destruct (Hm x Hx) as (w & Hw & Hmark).
  rewrite (read_wrapper_at _ x w) by (by rewrite wrapper_at_app_arr).
  by destruct (mark w).
Qed.

Lemma read_wrapper_inv v h h' w :
  read_wrapper v h = (h', Ok w) → h' = h ∧ wrapper_at h v = Some w.
Proof.
  unfold read_wrapper. destruct v as [| | | | |l]; try done. simpl.
  destruct (h !! l) as [[| |w']|]; try done. by intros [= <- <-].
Qed.

Lemma set_mark_inv v m h h' :
  set_mark v m h = (h', Ok tt) →
  (∀ y, mark_at h' y = if decide (y = v) then Some m else mark_at h y) ∧
  (∀ y, static_at h' y = static_at h y).
Proof.
  intros E.
  assert (∃ w, wrapper_at h v = Some w) as [w Hw].
  { unfold set_mark in E. destruct v as [| | | | |l]; try done. simpl.
    destruct (h !! l) as [[| |w']|]; try done. eauto. }
  destruct (set_mark_at h v w m Hw) as (h1 & E1 & _ & Hm & Hs & _).
  rewrite E in E1. by injection E1 as <-.
Qed.

Lemma unshift_inv a x h h' :
  unshift a x h = (h', Ok tt) → ∀ v, wrapper_at h' v = wrapper_at h v.
Proof.
  unfold unshift. destruct a as [| | | | |l]; try done.
  destruct (h !! l) as [[|xs|]|] eqn:Hl; try done.
  intros [= <-] v. by eapply wrapper_at_insert_arr.
Qed.

Lemma forEach_ok {S A} (f : A → M S unit) (I : list A → S → Prop) xs s s' :
  forEach f xs s = (s', Ok tt) →
  (∀ done x rest s1 s2, xs = done ++ x :: rest → I done s1 →
     f x s1 = (s2, Ok tt) → I (done ++ [x]) s2) →
  I [] s → I xs s'.
Proof.
  intros E Hstep.
  assert (G : ∀ rest done s1, xs = done ++ rest → I done s1 →
            forEach f rest s1 = (s', Ok tt) → I xs s').
  { induction rest as [|x rest IH]; intros done s1 Hxs HI; simpl.
    - rewrite app_nil_r in Hxs. subst. by intros [= <-].
    - intros E1. apply bind_ok_inv in E1 as (s2 & [] & E1 & E2).
      apply (IH (done ++ [x]) s2); [by rewrite <- app_assoc| |done].
      by eapply Hstep. }
  intros HI. by apply (G xs [] s).
Qed.

(** What a call of [visit] that returns has done to the marks, whatever
    they were. *)
Lemma visit_marks fuel ns r : ∀ x h h',
  visit fuel ns (VRef r) x h = (h', Ok tt) →
  permanent h' x ∧
  (∀ y, temporary h' y ↔ temporary h y) ∧
  (∀ y, permanent h y → permanent h' y) ∧
  (∀ y, static_at h' y = static_at h y).
Proof.
  induction fuel as [|fuel IH]; intros x h h' E; [done|]. simpl in E.
  apply bind_ok_inv in E as (h0 & w & Er & E).
  apply read_wrapper_inv in Er as [-> Hw].
  assert (Hmx : mark_at h x = Some (mark w)) by (unfold mark_at; by rewrite Hw).
  destruct (mark w) eqn:Hm; [|done|by injection E as <-].
  apply bind_ok_inv in E as (h1 & [] & E1 & E).
  apply set_mark_inv in E1 as [Hm1 Hs1].
  apply bind_ok_inv in E as (h2 & [] & E2 & E).
  apply bind_ok_inv in E as (h3 & [] & E3 & E4).
  apply set_mark_inv in E3 as [Hm3 Hs3].
  pose proof (unshift_inv _ _ _ _ E4) as Hw4.
  assert (Hloop : (∀ y, temporary h2 y ↔ temporary h1 y) ∧
                  (∀ y, permanent h1 y → permanent h2 y) ∧
                  (∀ y, static_at h2 y = static_at h1 y)).
  { apply (forEach_ok _ (λ _ h'', (∀ y, temporary h'' y ↔ temporary h1 y) ∧
                                   (∀ y, permanent h1 y → permanent h'' y) ∧
                                   (∀ y, static_at h'' y = static_at h1 y))
             _ _ _ E2); [|done].
    intros done y rest s1 s2 _ (Ht & Hp & Hs) Ey.
    apply bind_ok_inv in Ey as (s0 & wy & Er & Ey).
    apply read_wrapper_inv in Er as [-> _].
    destruct (tilde _); [|by injection Ey as <-].
    apply IH in Ey as (_ & Ht' & Hp' & Hs').
    split; [|split].
    - intros z. by rewrite Ht', Ht.
    - intros z Hz. by apply Hp', Hp.
    - intros z. by rewrite Hs', Hs. }
  destruct Hloop as (Ht2 & Hp2 & Hs2).
  assert (Hm4 : ∀ v, mark_at h' v
                     = if decide (v = x) then Some PERMANENT_MARK else mark_at h2 v).
  { intros v. unfold mark_at at 1. rewrite Hw4. apply Hm3. }
  split; [|split; [|split]].
  - unfold permanent. rewrite Hm4. by rewrite decide_True.
  - intros y. unfold temporary. rewrite Hm4. case_decide as Hy.
    + subst y. rewrite Hmx. naive_solver.
    + fold (temporary h2 y). rewrite Ht2. unfold temporary.
      rewrite Hm1. by rewrite decide_False.
  - intros y Hy. unfold permanent. rewrite Hm4. case_decide; [done|].
    apply Hp2. unfold permanent. rewrite Hm1. by rewrite decide_False.
  - intros y. unfold static_at at 1. rewrite Hw4. fold (static_at h3 y).
    by rewrite Hs3, Hs2, Hs1.
Qed.

(** A call of [sortByDepends] that returns leaves every node permanently
    marked, except those it found in progress. *)
Lemma sortByDepends_marks h a ns h1 v1 :
  h !! a = Some (Arr ns) →
  sortByDepends (VRef a) h = (h1, Ok v1) →
  (∀ x, x ∈ ns → permanent h1 x ∨ (temporary h x ∧ temporary h1 x)) ∧
  h1 !! a = Some (Arr ns).
Proof.
  intros Ha E.
  destruct (sortByDepends_frame (VRef a) h) as [[_ Hf] _].
  rewrite E in Hf. cbn [fst] in Hf.
  unfold sortByDepends in E.
  apply bind_ok_inv in E as (h0 & r & Ea & E). injection Ea as <- <-.
  apply bind_ok_inv in E as (h0' & ns' & Er & E).
  apply read_array_inv in Er as [-> (a' & [= <-] & Ha')].
  rewrite (lookup_app_l h) in Ha' by (by eapply lookup_lt_Some).
  rewrite Ha in Ha'. injection Ha' as <-.
  apply bind_ok_inv in E as (h2 & [] & E & Eret). injection Eret as <- <-.
  set (h0 := h ++ [Arr []]) in *.
  assert (Hm0 : ∀ v, mark_at h0 v = mark_at h v)
    by (intros; unfold mark_at, h0; by rewrite wrapper_at_app_arr).
  assert (Hloop : (∀ y, temporary h2 y ↔ temporary h0 y) ∧
                  (∀ y, static_at h2 y = static_at h0 y) ∧
                  (∀ y, y ∈ ns → permanent h2 y ∨ temporary h2 y)).
  { apply (forEach_ok _ (λ done h'',
             (∀ y, temporary h'' y ↔ temporary h0 y) ∧
             (∀ y, static_at h'' y = static_at h0 y) ∧
             (∀ y, y ∈ done → permanent h'' y ∨ temporary h'' y)) _ _ _ E).
    - intros done y rest s1 s2 _ (Ht & Hs & Hd) Ey.
      apply bind_ok_inv in Ey as (s0 & wy & Er & Ey).
      apply read_wrapper_inv in Er as [-> Hwy].
      assert (Hmy : mark_at s1 y = Some (mark wy)) by (unfold mark_at; by rewrite Hwy).
      destruct (mark wy) eqn:Hm.
      + apply visit_marks in Ey as (Hpy & Ht' & Hp' & Hs').
        split; [intros z; by rewrite Ht', Ht|].
        split; [intros z; by rewrite Hs', Hs|].
        intros z [Hz|Hz%list_elem_of_singleton]%elem_of_app; [|subst z; by left].
        destruct (Hd z Hz) as [Hp|Htz]; [left; by apply Hp'|right; by apply Ht'].
      + injection Ey as <-. split; [done|]. split; [done|].
        intros z [Hz|Hz%list_elem_of_singleton]%elem_of_app; [by apply Hd|].
        subst z. by right.
      + injection Ey as <-. split; [done|]. split; [done|].
        intros z [Hz|Hz%list_elem_of_singleton]%elem_of_app; [by apply Hd|].
        subst z. by left.
    - split; [done|]. split; [done|]. by intros y ?%elem_of_nil. }
  destruct Hloop as (Ht2 & Hs2 & Hall). split.
  - intros x Hx. destruct (Hall x Hx) as [Hp|Htx]; [by left|right].
    split; [|done]. apply Ht2 in Htx. unfold temporary in *. by rewrite <- Hm0.
  - apply Hf; [done|]. intros (a' & ns' & [= <-] & Hns' & Hin).
    rewrite Ha in Hns'. injection Hns' as <-.
    assert (is_Some (wrapper_at h2 (VRef a))) as Hsome.
    { destruct (Hall _ Hin) as [Hp|Hp]; unfold permanent, temporary, mark_at in Hp;
        destruct (wrapper_at h2 (VRef a)); by eauto. }
    assert (is_Some (wrapper_at h (VRef a))) as [w Hw].
    { pose proof (Hs2 (VRef a)) as Hst. unfold static_at in Hst.
      unfold h0 in Hst. rewrite wrapper_at_app_arr in Hst.
      destruct Hsome as [w2 Hw2]. rewrite Hw2 in Hst.
      destruct (wrapper_at h (VRef a)); by eauto. }
    simpl in Hw. by rewrite Ha in Hw.
Qed.

(** C10. After a call of [sortByDepends] on nodes none of which is in
    progress (fresh nodes are not) has returned, every node carries the
    permanent mark, and a second call on the same array returns an empty
    array and marks nothing. *)
Theorem sortByDepends_once h a ns h1 v1 :
  h !! a = Some (Arr ns) →
  (∀ x, x ∈ ns → mark_at h x ≠ Some TEMPORARY_MARK) →
  sortByDepends (VRef a) h = (h1, Ok v1) →
  (∀ x, x ∈ ns → mark_at h1 x = Some PERMANENT_MARK) ∧
  ∃ h2 l, sortByDepends (VRef a) h1 = (h2, Ok (VRef l)) ∧
          h2 !! l = Some (Arr []) ∧
          ∀ x, mark_at h2 x = mark_at h1 x.
Proof.
  intros Ha Hnt E.
  destruct (sortByDepends_marks h a ns h1 v1 Ha E) as [Hmarks Ha1].
  assert (Hperm : ∀ x, x ∈ ns → mark_at h1 x = Some PERMANENT_MARK).
  { intros x Hx. destruct (Hmarks x Hx) as [Hp|[Ht _]]; [done|].
    by destruct (Hnt x Hx). }
  split; [exact Hperm|].
  exists (h1 ++ [Arr []]), (length h1). split; [|split].
  - apply (sortByDepends_marked h1 a ns); [done|]. intros x Hx.
    specialize (Hperm x Hx). unfold mark_at in Hperm.
    destruct (wrapper_at h1 x) as [w|]; [|done].
    exists w. split; [done|]. simpl in Hperm. congruence.
  - by rewrite list_lookup_middle.
  - intros x. unfold mark_at. by rewrite wrapper_at_app_arr.
Qed.

Lemma sortByDepends_once_witness :
  ∃ h1 v1,
    sortByDepends (VRef 2%nat) two_nodes_heap = (h1, Ok v1) ∧
    (∀ x, x ∈ [VRef 0%nat; VRef 1%nat] → mark_at h1 x = Some PERMANENT_MARK) ∧
    ∃ h2 l, sortByDepends (VRef 2%nat) h1 = (h2, Ok (VRef l)) ∧
            h2 !! l = Some (Arr []) ∧
            ∀ x, mark_at h2 x = mark_at h1 x.
Proof.
  eexists _, _. split; [vm_compute; reflexivity|].
  eapply (sortByDepends_once two_nodes_heap 2%nat [VRef 0%nat; VRef 1%nat]).
  - reflexivity.
  - intros x Hx. apply elem_of_cons in Hx as [->|Hx]; [done|].
    by apply list_elem_of_singleton in Hx as ->.
  - vm_compute. reflexivity.
Defined.

(** A node found in progress, as a call that threw leaves it, is skipped:
    the call returns an empty array and the node stays in progress. *)
Lemma sortByDepends_skips_in_progress :
  sortByDepends (VRef 1%nat)
    [Wrap (Wrapper (VStr "a") (Fin 0) [VStr "a"] TEMPORARY_MARK VNull); Arr [VRef 0%nat]]
  = ([Wrap (Wrapper (VStr "a") (Fin 0) [VStr "a"] TEMPORARY_MARK VNull);
      Arr [VRef 0%nat]; Arr []],
     Ok (VRef 2%nat)).
Proof. reflexivity. Qed.

(** ** Nodes without dependents *)

Lemma visit_leaf fuel ns r h y w res :
  wrapper_at h y = Some w → mark w = UNMARKED →
  (∀ z, z ∈ ns → ∃ wz, wrapper_at h z = Some wz ∧
                       tilde (indexOf (depends wz) (id w)) = false) →
  h !! r = Some (Arr res) →
  ∃ h', visit (S fuel) ns (VRef r) y h = (h', Ok tt) ∧
        h' !! r = Some (Arr (y :: res)) ∧
        (∀ v, static_at h' v = static_at h v) ∧
        (∀ v, mark_at h' v
              = if decide (v = y) then Some PERMANENT_MARK else mark_at h v).
Proof.
  intros Hw Hm Hleaf Hr. simpl.
  unfold bind at 1. rewrite (read_wrapper_at _ _ _ Hw), Hm.
  destruct (set_mark_at h y w TEMPORARY_MARK Hw) as (h1 & E1 & _ & Hm1 & Hs1 & Ha1).
  unfold bind at 1. rewrite E1.
  unfold bind at 1. rewrite forEach_skip.
  2:{ intros z Hz. destruct (Hleaf z Hz) as (wz & Hwz & Hd).
      destruct (static_at_wrapper h1 h z wz (Hs1 z) Hwz) as (wz' & Hwz' & Hsz).
      unfold bind. rewrite (read_wrapper_at _ _ _ Hwz').
      replace (depends wz') with (depends wz) by (unfold static in Hsz; congruence).
      by rewrite Hd. }
  destruct (static_at_wrapper h1 h y w (Hs1 y) Hw) as (w1 & Hw1 & _).
  destruct (set_mark_at h1 y w1 PERMANENT_MARK Hw1) as (h2 & E2 & _ & Hm2 & Hs2 & Ha2).
  unfold bind at 1. rewrite E2.
  destruct (unshift_at h2 r res y (Ha2 _ _ (Ha1 _ _ Hr))) as (h3 & E3 & _ & Hr3 & Hw3).
  exists h3. split; [done|]. split; [done|]. split.
  - intros v. unfold static_at. rewrite Hw3. fold (static_at h2 v).
    by rewrite Hs2, Hs1.
  - intros v. unfold mark_at at 1. rewrite Hw3. fold (mark_at h2 v).
    rewrite Hm2, Hm1. by case_decide.
Qed.

Lemma sortByDepends_no_edges h a ns :
  h !! a = Some (Arr ns) → NoDup ns →
  (∀ x, x ∈ ns → ∃ w, wrapper_at h x = Some w ∧ mark w = UNMARKED) →
  (∀ x y, x ∈ ns → y ∈ ns → dep h x y = false) →
  ∃ h', sortByDepends (VRef a) h = (h', Ok (VRef (length h))) ∧
        h' !! length h = Some (Arr (rev ns)).
Proof.
  intros Ha Hnd Hfresh Hno. unfold sortByDepends, bind at 1, alloc.
  unfold bind at 1, read_array.
  rewrite (lookup_app_l h) by (by eapply lookup_lt_Some). rewrite Ha.
  set (h1 := h ++ [Arr []]). set (r := length h).
  assert (Hs1 : ∀ v, static_at h1 v = static_at h v).
  { intros v. unfold static_at, h1. by rewrite wrapper_at_app_arr. }
  set (body := λ n : value,
         let* w := read_wrapper n in
         match mark w with
         | UNMARKED => visit (S (length ns)) ns (VRef r) n
         | _ => ret tt
         end).
  pose (I := λ (done : list value) (h' : heap),
         (∀ v, static_at h' v = static_at h v) ∧
         h' !! r = Some (Arr (rev done)) ∧
         (∀ v, v ∈ ns → mark_at h' v
                        = if decide (v ∈ done) then Some PERMANENT_MARK
                          else Some UNMARKED)).
  pose proof (forEach_rule body I (λ _ _, False) ns) as Hloop.
  lapply Hloop; [clear Hloop; intros Hloop|].
  - specialize (Hloop h1). lapply Hloop; [clear Hloop; intros Hloop|].
    2:{ split; [done|]. split; [unfold h1, r; by rewrite list_lookup_middle|].
        intros v Hv. rewrite decide_False by (by intros ?%elem_of_nil).
        destruct (Hfresh v Hv) as (w & Hw & Hm).
        unfold mark_at, h1. rewrite wrapper_at_app_arr, Hw. simpl. by rewrite Hm. }
    unfold bind. destruct (forEach body ns h1) as [h2 [[]|e| |]]; try done.
    destruct Hloop as (_ & Hres & _). by exists h2.
  - intros done y rest h' Hsplit (Hs & Hres & Hmarks).
    assert (Hy : y ∈ ns) by (rewrite Hsplit; set_solver).
    assert (Hyd : y ∉ done).
    { rewrite Hsplit in Hnd. apply NoDup_app in Hnd as (_ & Hdisj & _).
      intros Hin. apply (Hdisj y Hin). left. }
    destruct (Hfresh y Hy) as (w0 & Hw0 & _).
    destruct (static_at_wrapper h' h y w0 (Hs y) Hw0) as (w & Hw & Hsw).
    pose proof (Hmarks y Hy) as Hmy. rewrite decide_False in Hmy by done.
    unfold mark_at in Hmy. rewrite Hw in Hmy. simpl in Hmy.
    unfold body, bind. rewrite (read_wrapper_at _ _ _ Hw).
    replace (mark w) with UNMARKED by congruence.
    destruct (visit_leaf (length ns) ns r h' y w (rev done) Hw ltac:(congruence))
      as (h'' & E & Hr'' & Hs'' & Hm''); [|done|].
    { intros z Hz. destruct (Hfresh z Hz) as (wz0 & Hwz0 & _).
      destruct (static_at_wrapper h' h z wz0 (Hs z) Hwz0) as (wz & Hwz & Hsz).
      exists wz. split; [done|].
      pose proof (Hno z y Hz Hy) as Hd. unfold dep in Hd.
      rewrite Hwz0, Hw0 in Hd. unfold static in *. congruence. }
    rewrite E. split; [|split].
    + intros v. by rewrite Hs''.
    + by rewrite rev_unit.
    + intros v Hv. rewrite Hm''. case_decide as Hvy.
      * subst v. rewrite decide_True; [done|]. set_solver.
      * rewrite (Hmarks v Hv).
        destruct (decide (v ∈ done)) as [Hd|Hd].
        -- rewrite decide_True; [done|]. set_solver.
        -- rewrite decide_False; [done|]. set_solver.
Qed.

(** C5, as stated, fails on two fresh nodes that do not depend on one
    another: [sortByDepends] returns the second before the first. *)
Lemma sortByDepends_not_stable :
  snd (sortByDepends (VRef 2%nat) two_nodes_heap) = Ok (VRef 3%nat) ∧
  fst (sortByDepends (VRef 2%nat) two_nodes_heap) !! 3%nat
  = Some (Arr [VRef 1%nat; VRef 0%nat]) ∧
  ¬ stable_for_unrelated two_nodes_heap [VRef 0%nat; VRef 1%nat]
      [VRef 1%nat; VRef 0%nat].
Proof.
  split; [vm_compute; reflexivity|]. split; [vm_compute; reflexivity|].
  intros Hstable.
  destruct (Hstable 0%nat 1%nat (VRef 0%nat) (VRef 1%nat))
    as (p & q & Hp & Hq & Hpq); try reflexivity; [lia|].
  destruct p as [|[|p]], q as [|[|q]]; simpl in *; try done; lia.
Qed.

(** C5, amended. When no node of the input depends on a node of the
    input, [sortByDepends] returns the nodes in the reverse of their input
    order. *)
Theorem sortByDepends_reverses h a ns :
  h !! a = Some (Arr ns) → NoDup ns →
  (∀ x, x ∈ ns → ∃ w, wrapper_at h x = Some w ∧ mark w = UNMARKED) →
  (∀ x y, x ∈ ns → y ∈ ns → dep h x y = false) →
  ∃ h', sortByDepends (VRef a) h = (h', Ok (VRef (length h))) ∧
        h' !! length h = Some (Arr (rev ns)).
Proof. apply sortByDepends_no_edges. Qed.

Lemma sortByDepends_reverses_witness :
  ∃ h', sortByDepends (VRef 2%nat) two_nodes_heap = (h', Ok (VRef 3%nat)) ∧
        h' !! 3%nat = Some (Arr [VRef 1%nat; VRef 0%nat]).
Proof.
  apply (sortByDepends_reverses two_nodes_heap 2%nat [VRef 0%nat; VRef 1%nat]).
  - reflexivity.
  - repeat constructor; set_solver.
  - intros x Hx. apply elem_of_cons in Hx as [->|Hx]; [by eexists|].
    apply list_elem_of_singleton in Hx as ->. by eexists.
  - intros x y Hx Hy.
    apply elem_of_cons in Hx as [->|Hx]; [|apply list_elem_of_singleton in Hx as ->];
      (apply elem_of_cons in Hy as [->|Hy]; [|apply list_elem_of_singleton in Hy as ->]);
      reflexivity.
Defined.

(** ** Sorting again *)

Lemma is_record_preserved h h' v :
  (∀ l c, h !! l = Some c → h' !! l = Some c) → is_record h v → is_record h' v.
Proof.
  intros Hpre (l & fs & -> & Hl & Hc). exists l, fs. split; [done|].
  split; [by apply Hpre|]. intros k l' Hk.
  destruct (Hc k l' Hk) as [c Hc']. exists c. by apply Hpre.
Qed.

Lemma normalize_preserved s h h' v :
  (∀ l c, h !! l = Some c → h' !! l = Some c) → is_record h v →
  normalize s h' v = normalize s h v.
Proof.
  intros Hpre (l & fs & -> & Hl & Hc).
  unfold normalize, field. rewrite Hl, (Hpre _ _ Hl).
  set (d := default VUndefined (assoc (dependsProperty s) fs)).
  assert (Hd : list_of h' d = list_of h d); [|by rewrite Hd].
  unfold list_of. destruct d as [| | | | |l'] eqn:Ed; try done.
  assert (Hk : assoc (dependsProperty s) fs = Some (VRef l')).
  { unfold d in Ed. by destruct (assoc (dependsProperty s) fs) as [?|]; simplify_eq/=. }
  destruct (Hc _ _ Hk) as [c Hc']. by rewrite Hc', (Hpre _ _ Hc').
Qed.

Lemma depends_on_preserved s h h' m n :
  (∀ l c, h !! l = Some c → h' !! l = Some c) →
  is_record h m → is_record h n →
  depends_on s h' m n = depends_on s h m n.
Proof.
  intros Hpre Hm Hn. unfold depends_on.
  by rewrite !(normalize_preserved s h h') by done.
Qed.

Lemma acyclic_preserved s h h' xs out :
  (∀ l c, h !! l = Some c → h' !! l = Some c) →
  Forall (is_record h) xs → out ≡ₚ xs →
  acyclic s h xs → acyclic s h' out.
Proof.
  intros Hpre Hall Hperm Hacyc c Hc. apply (Hacyc c).
  eapply tc_congruence with (f := λ x, x); [|exact Hc].
  intros x y (Hx & Hy & Hd). rewrite Hperm in Hx, Hy.
  split; [done|]. split; [done|].
  rewrite <- (depends_on_preserved s h h'); [done|done|..];
    by eapply (proj1 (Forall_forall _ _) Hall).
Qed.

(** C7, as stated, fails on two records that do not depend on one
    another: [sort] returns them reversed, and sorting what it returned
    reverses them again. *)
Lemma sort_not_idempotent :
  acyclic (Serializer None) pair_heap [VRef 0%nat; VRef 1%nat] ∧
  ∃ h1 h2,
    sort (Serializer None) (VRef 2%nat) pair_heap = (h1, Ok (VRef 7%nat)) ∧
    h1 !! 7%nat = Some (Arr [VRef 1%nat; VRef 0%nat]) ∧
    sort (Serializer None) (VRef 7%nat) h1 = (h2, Ok (VRef 12%nat)) ∧
    h2 !! 12%nat = Some (Arr [VRef 0%nat; VRef 1%nat]) ∧
    [VRef 0%nat; VRef 1%nat] ≠ [VRef 1%nat; VRef 0%nat].
Proof.
  split.
  - apply no_edges_acyclic. intros a b Ha Hb.
    apply elem_of_cons in Ha as [->|Ha]; [|apply list_elem_of_singleton in Ha as ->];
      (apply elem_of_cons in Hb as [->|Hb]; [|apply list_elem_of_singleton in Hb as ->]);
      vm_compute; reflexivity.
  - eexists _, _. split; [vm_compute; reflexivity|].
    split; [vm_compute; reflexivity|].
    split; [vm_compute; reflexivity|].
    split; [vm_compute; reflexivity|]. discriminate.
Qed.

(** ** The indices the passes consider *)

Lemma same_length_ret {A} (x : A) : same_length (ret x).
Proof. by intros arr. Qed.

Lemma same_length_bind {A B} (c : arrayM A) (k : A → arrayM B) :
  same_length c → (∀ x, same_length (k x)) → same_length (bind c k).
Proof.
  intros Hc Hk arr. unfold bind. specialize (Hc arr).
  destruct (c arr) as [arr1 [x|e| |]]; simpl in *; try done.
  by rewrite Hk.
Qed.

Lemma same_length_reading {A} h (c : M heap A) : same_length (reading h c).
Proof. by intros arr. Qed.

Lemma same_length_arr_set i v : same_length (arr_set i v).
Proof.
  intros arr. unfold arr_set. destruct (_ && _); simpl; [|done].
  by rewrite length_insert.
Qed.

Lemma same_length_run_loop {R} (fn : value → Z → arrayM (option R)) d step n :
  (∀ v i, same_length (fn v i)) → ∀ i, same_length (run_loop n i step fn d).
Proof.
  intros Hfn. induction n as [|n IH]; intros i; simpl; [apply same_length_ret|].
  apply same_length_bind.
  - intros arr. apply Hfn.
  - intros [r|]; [apply same_length_ret|apply IH].
Qed.

Lemma same_length_runInRange {R} (fn : value → Z → arrayM (option R)) d from to :
  (∀ v i, same_length (fn v i)) → same_length (runInRange from to fn d).
Proof.
  intros Hfn. unfold runInRange. destruct (from =? to); [apply same_length_ret|].
  by apply same_length_run_loop.
Qed.

Lemma same_length_swapInRange from to compare :
  (∀ x y, same_length (compare x y)) → same_length (swapInRange from to compare).
Proof.
  intros Hc. unfold swapInRange. destruct (from =? to); [apply same_length_ret|].
  apply same_length_runInRange. intros a i.
  apply same_length_bind; [by intros arr|intros b].
  apply same_length_bind; [apply Hc|intros c].
  destruct (negb c); [apply same_length_ret|].
  apply same_length_bind; [apply same_length_arr_set|intros _].
  apply same_length_bind; [apply same_length_arr_set|intros _].
  destruct (_ =? _); apply same_length_ret.
Qed.

Lemma same_length_compare h (f : wrapper → wrapper → bool) x y :
  same_length (let* a := reading h (read_wrapper x) in
               let* b := reading h (read_wrapper y) in
               ret (f a b)).
Proof.
  apply same_length_bind; [apply same_length_reading|intros a].
  apply same_length_bind; [apply same_length_reading|intros b].
  apply same_length_ret.
Qed.

Lemma same_length_swapBack p i compare :
  (∀ x y, same_length (compare x y)) → same_length (swapBack p i compare).
Proof.
  intros Hc. destruct p as [p|]; simpl; [by apply same_length_swapInRange|].
  by intros arr.
Qed.

Lemma same_length_float_down h v i : same_length (float_down h v i).
Proof.
  unfold float_down.
  apply same_length_bind; [apply same_length_reading|intros w].
  destruct (num_lt _ _); [|apply same_length_ret].
  apply same_length_bind.
  - apply same_length_swapInRange. intros x y.
    apply (same_length_compare h (λ a b, negb (tilde (indexOf (depends a) (id b))))).
  - intros p. apply same_length_bind; [|intros; apply same_length_ret].
    apply same_length_swapBack. intros x y.
    apply (same_length_compare h (λ a b, num_lt (weight b) (weight a))).
Qed.

Lemma same_length_float_up h v i : same_length (float_up h v i).
Proof.
  unfold float_up.
  apply same_length_bind; [apply same_length_reading|intros w].
  destruct (num_lt _ _); [|apply same_length_ret].
  apply same_length_bind.
  - intros arr. apply same_length_swapInRange. intros x y.
    apply (same_length_compare h (λ a b, negb (tilde (indexOf (depends a) (id b)))) y x).
  - intros p. apply same_length_bind; [|intros; apply same_length_ret].
    apply same_length_swapBack. intros x y.
    apply (same_length_compare h (λ a b, num_lt (weight a) (weight b))).
Qed.

(** A loop whose callback never returns a defined value calls it at every
    index of its range. *)
Lemma run_loop_scan {B} (fn : value → Z → arrayM (option unit))
    (k : arrayM B) step n :
  (∀ v i arr arr' x, fn v i arr = (arr', Ok x) → x = None) →
  ∀ i arr,
    (let* _ := run_loop n i step fn None in k) arr
    = (let* _ := scan fn (steps n i step) in k) arr.
Proof.
  intros Hnone. induction n as [|n IH]; intros i arr; simpl; [done|].
  unfold bind.
  destruct (fn (arr_get arr i) i arr) as [arr1 [x|e| |]] eqn:E; try done.
  rewrite (Hnone _ _ _ _ _ E). exact (IH _ _).
Qed.

Lemma float_down_None h v i arr arr' x :
  float_down h v i arr = (arr', Ok x) → x = None.
Proof.
  unfold float_down. intros E.
  apply bind_ok_inv in E as (arr1 & w & _ & E).
  destruct (num_lt _ _); [|by injection E].
  apply bind_ok_inv in E as (arr2 & p & _ & E).
  apply bind_ok_inv in E as (arr3 & q & _ & E). by injection E.
Qed.

Lemma float_up_None h v i arr arr' x :
  float_up h v i arr = (arr', Ok x) → x = None.
Proof.
  unfold float_up. intros E.
  apply bind_ok_inv in E as (arr1 & w & _ & E).
  destruct (num_lt _ _); [|by injection E].
  apply bind_ok_inv in E as (arr2 & p & _ & E).
  apply bind_ok_inv in E as (arr3 & q & _ & E). by injection E.
Qed.

Lemma steps_up n : ∀ i : nat,
  steps n (Z.of_nat i) 1 = Z.of_nat <$> seq i n.
Proof.
  induction n as [|n IH]; intros i; simpl; [done|].
  f_equal. replace (Z.of_nat i + 1) with (Z.of_nat (S i)) by lia. apply IH.
Qed.

Lemma steps_down n :
  steps n (Z.of_nat n) (-1) = Z.of_nat <$> rev (seq 1 n).
Proof.
  induction n as [|n IH]; [done|].
  rewrite seq_S, rev_unit. cbn [steps fmap list_fmap]. f_equal.
  replace (Z.of_nat (S n) + -1) with (Z.of_nat n) by lia. exact IH.
Qed.

Lemma same_length_scan fn indices :
  (∀ v i, same_length (fn v i)) → same_length (scan fn indices).
Proof.
  intros Hfn. induction indices as [|i rest IH]; simpl; [apply same_length_ret|].
  apply same_length_bind; [|done]. intros arr. apply Hfn.
Qed.

Lemma bind_ret_tt {S} (c : M S unit) s : (let* _ := c in ret tt) s = c s.
Proof. unfold bind, ret. by destruct (c s) as [s' [[]| | |]]. Qed.

Lemma negative_movers_spec n i :
  i ∈ negative_movers n ↔ 1 ≤ i ≤ Z.of_nat n - 1.
Proof.
  unfold negative_movers. rewrite list_elem_of_fmap. split.
  - intros (j & -> & Hj). apply elem_of_seq in Hj. lia.
  - intros Hi. exists (Z.to_nat i). split; [lia|]. apply elem_of_seq. lia.
Qed.

Lemma positive_movers_spec n i :
  i ∈ positive_movers n ↔ 1 ≤ i ≤ Z.of_nat n - 2.
Proof.
  unfold positive_movers. rewrite list_elem_of_fmap. split.
  - intros (j & -> & Hj). apply list_elem_of_In, in_rev, list_elem_of_In in Hj.
    apply elem_of_seq in Hj. lia.
  - intros Hi. exists (Z.to_nat i). split; [lia|].
    apply list_elem_of_In. rewrite <- in_rev. apply list_elem_of_In, elem_of_seq. lia.
Qed.

Lemma weight_passes h (arr : list value) :
  (2 ≤ length arr)%nat →
  sortByWeight_array h arr
  = (let* _ := scan (float_down h) (negative_movers (length arr)) in
     scan (float_up h) (positive_movers (length arr))) arr.
Proof.
  intros Hlen. unfold sortByWeight_array.
  set (k := let* _ := (λ arr0 : list value,
                        runInRange (Z.of_nat (length arr0) - 2) 0 (float_up h) None arr0) in
            ret tt).
  transitivity ((let* _ := scan (float_down h) (negative_movers (length arr)) in k) arr).
  - unfold bind at 1. unfold runInRange.
    destruct (1 =? Z.of_nat (length arr)) eqn:E; [lia|].
    replace (step_of 1 (Z.of_nat (length arr))) with 1
      by (unfold step_of; destruct (1 <? Z.of_nat (length arr)) eqn:E'; lia).
    replace (Z.abs_nat (Z.of_nat (length arr) - 1)) with (length arr - 1)%nat by lia.
    pose proof (run_loop_scan (float_down h) k 1 (length arr - 1)
                  (float_down_None h) 1 arr) as Hr.
    rewrite (steps_up _ 1) in Hr. exact Hr.
  - unfold bind at 1 2.
    pose proof (same_length_scan (float_down h) (negative_movers (length arr))
                  (same_length_float_down h) arr) as Hl.
    destruct (scan (float_down h) (negative_movers (length arr)) arr)
      as [arr1 [[]|e| |]]; try done.
    cbn [fst] in Hl. unfold k. unfold bind at 1. rewrite Hl. unfold runInRange.
    destruct (Z.of_nat (length arr) - 2 =? 0) eqn:E.
    + replace (length arr) with 2%nat by lia. done.
    + replace (step_of (Z.of_nat (length arr) - 2) 0) with (-1)
        by (unfold step_of; destruct (Z.of_nat (length arr) - 2 <? 0) eqn:E'; lia).
      replace (Z.abs_nat (0 - (Z.of_nat (length arr) - 2))) with (length arr - 2)%nat
        by lia.
      pose proof (run_loop_scan (float_up h) (ret tt) (-1) (length arr - 2)
                    (float_up_None h) (Z.of_nat (length arr - 2)) arr1) as Hr.
      rewrite steps_down, bind_ret_tt in Hr.
      replace (Z.of_nat (length arr) - 2) with (Z.of_nat (length arr - 2)) by lia.
      exact Hr.
Qed.

(** The node at the front can be the target of a swap, and the node at
    the back its initiator in the negative pass: a node of weight -1 after
    a node of weight 0 moves in front of it. *)
Lemma front_is_swap_target :
  negative_movers 2 = [1] ∧ positive_movers 2 = [] ∧
  sortByWeight_array light_last_heap [VRef 0%nat; VRef 1%nat]
  = ([VRef 1%nat; VRef 0%nat], Ok tt).
Proof. repeat split; vm_compute; reflexivity. Qed.

(** ** Two runs on the same input *)

Lemma bind_sim {S T A B A' B'} (R1 R : S → T → Prop) (Q : A → B → Prop)
    (Q' : A' → B' → Prop) (c : M S A) (c' : M T B) (k : A → M S A')
    (k' : B → M T B') s t :
  sim_out R1 Q (c s) (c' t) →
  (∀ a b s1 t1, Q a b → R1 s1 t1 → sim_out R Q' (k a s1) (k' b t1)) →
  sim_out R Q' (bind c k s) (bind c' k' t).
Proof.
  unfold sim_out, bind. intros Hc Hk.
  destruct (c s) as [s1 [a|e| |]], (c' t) as [t1 [b|e'| |]]; simpl in *; try done.
  destruct Hc as [HQ HR]. by apply Hk.
Qed.

Lemma ret_sim {S T A B} (R : S → T → Prop) (Q : A → B → Prop) a b s t :
  Q a b → R s t → sim_out R Q (ret a s) (ret b t).
Proof. by split. Qed.

Lemma forEach_sim {S T A} (R : S → T → Prop) (f : A → M S unit) (g : A → M T unit)
    (phi : A → A) xs :
  (∀ x s t, x ∈ xs → R s t → sim_out R (λ _ _, True) (f x s) (g (phi x) t)) →
  ∀ s t, R s t →
    sim_out R (λ _ _, True) (forEach f xs s) (forEach g (phi <$> xs) t).
Proof.
  induction xs as [|x xs IH]; intros Hf s t HR; simpl.
  - by apply ret_sim.
  - eapply bind_sim; [apply Hf; [left|done]|].
    intros _ _ s1 t1 _ HR1. apply IH; [|done].
    intros y s2 t2 Hy. apply Hf. by right.
Qed.

Lemma shift_inj d v v' : shift d v = shift d v' → v = v'.
Proof.
  destruct v, v'; simpl; try done. intros [= E]. f_equal. lia.
Qed.

Section Sim.
Variables (ns : list value) (d : nat).

Lemma wrapper_at_Some h l w :
  wrapper_at h (VRef l) = Some w ↔ h !! l = Some (Wrap w).
Proof.
  simpl. destruct (h !! l) as [[| |w']|]; split; try done; by intros [= ->].
Qed.

Lemma read_wrapper_sim (R : heap → heap → Prop) G H v :
  R G H → sim_heap ns d G H → node_or_undefined ns v →
  sim_out R eq (read_wrapper v G) (read_wrapper (shift d v) H).
Proof.
  intros HR Hsim [Hv| ->]; [|done].
  specialize (Hsim v Hv). unfold sim_out.
  destruct v as [| | | | |l]; simpl in *; try done.
  destruct (G !! l) as [[| |w]|], (H !! (l + d)%nat) as [[| |w']|]; simpl; try done.
  split; [congruence|done].
Qed.

Section Dfs.
Variables (r r' : loc).

Lemma set_mark_sim G H x m :
  x ∈ ns → sim_dfs ns d r r' G H →
  sim_out (sim_dfs ns d r r') (λ _ _, True)
    (set_mark x m G) (set_mark (shift d x) m H).
Proof.
  intros Hx [Hsim (res & Hr & Hr' & Hres)]. pose proof (Hsim x Hx) as Hwx.
  unfold sim_out. destruct x as [| | | | |l]; try done.
  cbn [shift] in Hwx.
  destruct (wrapper_at G (VRef l)) as [w|] eqn:Hw.
  - pose proof Hw as Hl. apply wrapper_at_Some in Hl.
    pose proof Hwx as Hl'. apply wrapper_at_Some in Hl'.
    unfold set_mark, shift. rewrite Hl, Hl'. simpl.
    split; [done|]. split.
    + intros v Hv.
      rewrite wrapper_at_insert_wrap by (by rewrite Hwx).
      rewrite (wrapper_at_insert_wrap G) by (by rewrite Hw).
      destruct (decide (v = VRef l)) as [->|Hne].
      * by rewrite decide_True.
      * rewrite decide_False; [by apply Hsim|].
        intros E. apply Hne. by apply (shift_inj d).
    + exists res. split; [|split; [|done]].
      * rewrite list_lookup_insert_ne; [done|]. congruence.
      * rewrite list_lookup_insert_ne; [done|]. congruence.
  - assert (Hn : ∀ h l0, wrapper_at h (VRef l0) = None →
                 set_mark (VRef l0) m h = (h, Stuck)).
    { intros h l0. unfold set_mark. simpl. by destruct (h !! l0) as [[]|]. }
    cbn [shift]. rewrite (Hn G l Hw), (Hn H _ Hwx). done.
Qed.

Lemma unshift_sim G H x :
  x ∈ ns → sim_dfs ns d r r' G H →
  sim_out (sim_dfs ns d r r') (λ _ _, True)
    (unshift (VRef r) x G) (unshift (VRef r') (shift d x) H).
Proof.
  intros Hx [Hsim (res & Hr & Hr' & Hres)].
  unfold sim_out, unshift. rewrite Hr, Hr'. simpl.
  split; [done|]. split.
  - intros v Hv.
    rewrite (wrapper_at_insert_arr H r' _ _ _ Hr').
    rewrite (wrapper_at_insert_arr G r _ _ _ Hr). by apply Hsim.
  - exists (x :: res). split; [|split].
    + rewrite list_lookup_insert_eq; [done|]. by eapply lookup_lt_Some.
    + rewrite list_lookup_insert_eq; [done|]. by eapply lookup_lt_Some.
    + apply Forall_cons. split; [by left|done].
Qed.

Lemma visit_sim fuel : ∀ x G H,
  x ∈ ns → sim_dfs ns d r r' G H →
  sim_out (sim_dfs ns d r r') (λ _ _, True)
    (visit fuel ns (VRef r) x G)
    (visit fuel (shift d <$> ns) (VRef r') (shift d x) H).
Proof.
  induction fuel as [|fuel IH]; intros x G H Hx Hsim; [done|]. simpl.
  eapply bind_sim.
  { apply read_wrapper_sim; [done|by destruct Hsim|by left]. }
  intros w ? G1 H1 <- Hsim1.
  destruct (mark w); [|done|by apply ret_sim].
  eapply bind_sim; [by apply set_mark_sim|]. intros _ _ G2 H2 _ Hsim2.
  eapply bind_sim.
  { apply (forEach_sim (sim_dfs ns d r r') _ _ (shift d)); [|done].
    intros y G3 H3 Hy Hsim3. eapply bind_sim.
    { apply read_wrapper_sim; [done|by destruct Hsim3|by left]. }
    intros wy ? G4 H4 <- Hsim4.
    destruct (tilde _); [by apply IH|by apply ret_sim]. }
  intros _ _ G3 H3 _ Hsim3.
  eapply bind_sim; [by apply set_mark_sim|]. intros _ _ G4 H4 _ Hsim4.
  by apply unshift_sim.
Qed.
End Dfs.

Lemma sortByDepends_sim G H a a' :
  sim_heap ns d G H →
  G !! a = Some (Arr ns) → H !! a' = Some (Arr (shift d <$> ns)) →
  sim_out (sim_dfs ns d (length G) (length H))
    (λ v v', v = VRef (length G) ∧ v' = VRef (length H))
    (sortByDepends (VRef a) G) (sortByDepends (VRef a') H).
Proof.
  intros Hsim Ha Ha'. unfold sortByDepends.
  eapply (bind_sim (λ G1 H1, G1 = G ++ [Arr []] ∧ H1 = H ++ [Arr []]) _
            (λ l l', l = length G ∧ l' = length H)); [done|].
  intros ? ? ? ? [-> ->] [-> ->].
  eapply (bind_sim (λ G1 H1, G1 = G ++ [Arr []] ∧ H1 = H ++ [Arr []]) _
            (λ xs xs', xs = ns ∧ xs' = shift d <$> ns)).
  { unfold sim_out, read_array.
    rewrite (lookup_app_l G) by (by eapply lookup_lt_Some).
    rewrite (lookup_app_l H) by (by eapply lookup_lt_Some).
    by rewrite Ha, Ha'. }
  intros ? ? ? ? [-> ->] [-> ->]. rewrite length_fmap.
  eapply bind_sim; [|intros _ _ G1 H1 _ Hsim1; by apply ret_sim].
  apply (forEach_sim (sim_dfs ns d (length G) (length H)) _ _ (shift d)).
  - intros x G1 H1 Hx Hsim1. eapply bind_sim.
    { apply read_wrapper_sim; [done|by destruct Hsim1|by left]. }
    intros w ? G2 H2 <- Hsim2.
    destruct (mark w); [by apply visit_sim|by apply ret_sim..].
  - split.
    + intros v Hv. rewrite !wrapper_at_app_arr. by apply Hsim.
    + exists []. rewrite !list_lookup_middle by done. by repeat split.
Qed.

(** *** The weight sort *)

Lemma arr_get_shift (arr : list value) i :
  arr_get (shift d <$> arr) i = shift d (arr_get arr i).
Proof.
  unfold arr_get. destruct (i <? 0); [done|].
  rewrite list_lookup_fmap. by destruct (arr !! Z.to_nat i).
Qed.

Lemma arr_get_node (arr : list value) i :
  Forall (node_or_undefined ns) arr → node_or_undefined ns (arr_get arr i).
Proof.
  intros Hall. unfold arr_get. destruct (i <? 0); [by right|].
  destruct (arr !! Z.to_nat i) as [x|] eqn:Hx; simpl; [|by right].
  by eapply (Forall_lookup_1 _ _ _ _ Hall).
Qed.

Lemma arr_set_sim i v (arr arr' : list value) :
  node_or_undefined ns v → sim_arr ns d arr arr' →
  sim_out (sim_arr ns d) (λ _ _, True)
    (arr_set i v arr) (arr_set i (shift d v) arr').
Proof.
  intros Hv [-> Hall]. unfold sim_out, arr_set. rewrite length_fmap.
  destruct (_ && _); [|done]. simpl. split; [done|]. split.
  - by rewrite list_fmap_insert.
  - by apply Forall_insert.
Qed.

Section Loops.
Context {R : Type}.
Variables (fn fn' : value → Z → arrayM (option R)).
Hypothesis fn_sim : ∀ v i arr arr',
  node_or_undefined ns v → sim_arr ns d arr arr' →
  sim_out (sim_arr ns d) eq (fn v i arr) (fn' (shift d v) i arr').

Lemma run_loop_sim dflt step n : ∀ i arr arr',
  sim_arr ns d arr arr' →
  sim_out (sim_arr ns d) eq
    (run_loop n i step fn dflt arr) (run_loop n i step fn' dflt arr').
Proof.
  induction n as [|n IH]; intros i arr arr' Harr; simpl.
  - by apply ret_sim.
  - eapply bind_sim.
    { cbv beta. pose proof Harr as [-> Hall]. rewrite arr_get_shift.
      apply fn_sim; [by apply arr_get_node|done]. }
    intros r ? a1 a1' <- Ha1. destruct r; [by apply ret_sim|by apply IH].
Qed.

Lemma runInRange_sim dflt from to arr arr' :
  sim_arr ns d arr arr' →
  sim_out (sim_arr ns d) eq
    (runInRange from to fn dflt arr) (runInRange from to fn' dflt arr').
Proof.
  intros Harr. unfold runInRange.
  destruct (from =? to); [by apply ret_sim|by apply run_loop_sim].
Qed.
End Loops.

Section Compare.
Variables (compare compare' : value → value → arrayM bool).
Hypothesis compare_sim : ∀ x y arr arr',
  node_or_undefined ns x → node_or_undefined ns y → sim_arr ns d arr arr' →
  sim_out (sim_arr ns d) eq (compare x y arr) (compare' (shift d x) (shift d y) arr').

Lemma swapInRange_sim from to arr arr' :
  sim_arr ns d arr arr' →
  sim_out (sim_arr ns d) eq
    (swapInRange from to compare arr) (swapInRange from to compare' arr').
Proof.
  intros Harr. unfold swapInRange.
  destruct (from =? to); [by apply ret_sim|].
  apply runInRange_sim; [|done].
  intros a i a0 a0' Ha Ha0.
  eapply (bind_sim _ _ (λ b b', b' = shift d b ∧ node_or_undefined ns b)).
  { unfold sim_out. simpl. split; [|exact Ha0]. destruct Ha0 as [-> Hall].
    split; [apply arr_get_shift|by apply arr_get_node]. }
  intros b ? a1 a1' [-> Hb] Ha1.
  eapply bind_sim; [by apply compare_sim|].
  intros c ? a2 a2' <- Ha2. destruct (negb c); [by apply ret_sim|].
  eapply bind_sim; [by apply arr_set_sim|]. intros _ _ a3 a3' _ Ha3.
  eapply bind_sim; [by apply arr_set_sim|]. intros _ _ a4 a4' _ Ha4.
  destruct (_ =? _); by apply ret_sim.
Qed.

Lemma swapBack_sim nodePos i arr arr' :
  sim_arr ns d arr arr' →
  sim_out (sim_arr ns d) eq
    (swapBack nodePos i compare arr) (swapBack nodePos i compare' arr').
Proof.
  intros Harr. destruct nodePos; [by apply swapInRange_sim|done].
Qed.
End Compare.

Section Pass.
Variables G H : heap.
Hypothesis heaps : sim_heap ns d G H.

Lemma reading_sim v (arr arr' : list value) :
  node_or_undefined ns v → sim_arr ns d arr arr' →
  sim_out (sim_arr ns d) eq
    (reading G (read_wrapper v) arr) (reading H (read_wrapper (shift d v)) arr').
Proof.
  intros Hv Harr.
  pose proof (read_wrapper_sim (λ _ _, True) G H v I heaps Hv) as X.
  unfold sim_out, reading in *. simpl.
  destruct (read_wrapper v G) as [? [w|e| |]],
           (read_wrapper (shift d v) H) as [? [w'|e'| |]]; simpl in *; try done.
  by destruct X.
Qed.

Lemma compare_wrappers_sim (f : wrapper → wrapper → bool) x y arr arr' :
  node_or_undefined ns x → node_or_undefined ns y → sim_arr ns d arr arr' →
  sim_out (sim_arr ns d) eq
    ((let* wx := reading G (read_wrapper x) in
      let* wy := reading G (read_wrapper y) in ret (f wx wy)) arr)
    ((let* wx := reading H (read_wrapper (shift d x)) in
      let* wy := reading H (read_wrapper (shift d y)) in ret (f wx wy)) arr').
Proof.
  intros Hx Hy Harr.
  eapply bind_sim; [by apply reading_sim|]. intros wx ? a1 a1' <- Ha1.
  eapply bind_sim; [by apply reading_sim|]. intros wy ? a2 a2' <- Ha2.
  by apply ret_sim.
Qed.

Lemma not_depends_on_sim x y arr arr' :
  node_or_undefined ns x → node_or_undefined ns y → sim_arr ns d arr arr' →
  sim_out (sim_arr ns d) eq
    (not_depends_on G x y arr) (not_depends_on H (shift d x) (shift d y) arr').
Proof.
  apply (compare_wrappers_sim (λ wn wx, negb (tilde (indexOf (depends wn) (id wx))))).
Qed.

Lemma heavier_sim x y arr arr' :
  node_or_undefined ns x → node_or_undefined ns y → sim_arr ns d arr arr' →
  sim_out (sim_arr ns d) eq
    (heavier G x y arr) (heavier H (shift d x) (shift d y) arr').
Proof.
  apply (compare_wrappers_sim (λ wn wx, num_lt (weight wx) (weight wn))).
Qed.

Lemma not_depended_by_sim x y arr arr' :
  node_or_undefined ns x → node_or_undefined ns y → sim_arr ns d arr arr' →
  sim_out (sim_arr ns d) eq
    (not_depended_by G x y arr) (not_depended_by H (shift d x) (shift d y) arr').
Proof.
  intros Hx Hy Harr.
  by apply (compare_wrappers_sim
              (λ wx wn, negb (tilde (indexOf (depends wx) (id wn)))) y x).
Qed.

Lemma lighter_sim x y arr arr' :
  node_or_undefined ns x → node_or_undefined ns y → sim_arr ns d arr arr' →
  sim_out (sim_arr ns d) eq
    (lighter G x y arr) (lighter H (shift d x) (shift d y) arr').
Proof.
  apply (compare_wrappers_sim (λ wn wx, num_lt (weight wn) (weight wx))).
Qed.

Lemma float_down_sim v i arr arr' :
  node_or_undefined ns v → sim_arr ns d arr arr' →
  sim_out (sim_arr ns d) eq
    (float_down G v i arr) (float_down H (shift d v) i arr').
Proof.
  intros Hv Harr. unfold float_down.
  eapply bind_sim; [by apply reading_sim|]. intros w ? a1 a1' <- Ha1.
  destruct (num_lt _ _); [|by apply ret_sim].
  eapply bind_sim.
  { apply swapInRange_sim; [apply not_depends_on_sim|done]. }
  intros p ? a2 a2' <- Ha2.
  eapply bind_sim.
  { apply swapBack_sim; [apply heavier_sim|done]. }
  intros _ _ a3 a3' _ Ha3. by apply ret_sim.
Qed.

Lemma float_up_sim v i arr arr' :
  node_or_undefined ns v → sim_arr ns d arr arr' →
  sim_out (sim_arr ns d) eq
    (float_up G v i arr) (float_up H (shift d v) i arr').
Proof.
  intros Hv Harr. unfold float_up.
  eapply bind_sim; [by apply reading_sim|]. intros w ? a1 a1' <- Ha1.
  destruct (num_lt _ _); [|by apply ret_sim].
  eapply bind_sim.
  { cbv beta. pose proof Ha1 as [-> _]. rewrite length_fmap.
    apply swapInRange_sim; [apply not_depended_by_sim|done]. }
  intros p ? a2 a2' <- Ha2.
  eapply bind_sim.
  { apply swapBack_sim; [apply lighter_sim|done]. }
  intros _ _ a3 a3' _ Ha3. by apply ret_sim.
Qed.

Lemma sortByWeight_array_sim arr arr' :
  sim_arr ns d arr arr' →
  sim_out (sim_arr ns d) (λ _ _, True)
    (sortByWeight_array G arr) (sortByWeight_array H arr').
Proof.
  intros Harr. unfold sortByWeight_array.
  eapply bind_sim.
  { cbv beta. pose proof Harr as [-> _]. rewrite length_fmap.
    apply runInRange_sim; [apply float_down_sim|done]. }
  intros _ _ a1 a1' _ Ha1.
  eapply bind_sim.
  { cbv beta. pose proof Ha1 as [-> _]. rewrite length_fmap.
    apply runInRange_sim; [apply float_up_sim|done]. }
  intros _ _ a2 a2' _ Ha2. by apply ret_sim.
Qed.
End Pass.

Lemma sortByWeight_sim G H r r' :
  sim_dfs ns d r r' G H →
  sim_out (sim_dfs ns d r r') (λ v v', v = VRef r ∧ v' = VRef r')
    (sortByWeight (VRef r) G) (sortByWeight (VRef r') H).
Proof.
  intros [Hsim (res & Hr & Hr' & Hres)].
  pose proof (sortByWeight_array_sim G H Hsim res (shift d <$> res)
                (conj eq_refl Hres)) as X.
  unfold sim_out, sortByWeight in *. rewrite Hr, Hr'.
  destruct (sortByWeight_array G res) as [a1 [[]|e| |]],
           (sortByWeight_array H (shift d <$> res)) as [a1' [[]|e'| |]];
    simpl in *; try done.
  destruct X as [_ [-> Hall]]. split; [done|]. split.
  - intros v Hv.
    rewrite (wrapper_at_insert_arr H r' _ _ _ Hr').
    rewrite (wrapper_at_insert_arr G r _ _ _ Hr). by apply Hsim.
  - exists a1. split; [|split; [|done]].
    + rewrite list_lookup_insert_eq; [done|]. by eapply lookup_lt_Some.
    + rewrite list_lookup_insert_eq; [done|]. by eapply lookup_lt_Some.
Qed.

(** *** Unwrapping *)

Lemma mapM_deserialize_sim G H (arr : list value) :
  sim_heap ns d G H → Forall (node_or_undefined ns) arr →
  sim_out (λ G1 H1, G1 = G ∧ H1 = H) eq
    (mapM deserialize arr G) (mapM deserialize (shift d <$> arr) H).
Proof.
  intros Hsim. induction arr as [|x arr IH]; intros Hall; simpl; [done|].
  apply Forall_cons in Hall as [Hx Hall].
  eapply (bind_sim (λ G1 H1, G1 = G ∧ H1 = H) _ eq).
  { unfold deserialize. eapply bind_sim.
    - apply (read_wrapper_sim (λ G1 H1, G1 = G ∧ H1 = H)); done.
    - intros w ? G1 H1 <- HR. by apply ret_sim. }
  intros y ? G1 H1 <- [-> ->].
  eapply bind_sim; [by apply IH|].
  intros ys ? G2 H2 <- HR. by apply ret_sim.
Qed.

Lemma deserialize_outcome G H r r' :
  sim_dfs ns d r r' G H →
  outcome ((let* nodes := array_map deserialize (VRef r) in ret nodes) G)
  = outcome ((let* nodes := array_map deserialize (VRef r') in ret nodes) H).
Proof.
  intros [Hsim (res & Hr & Hr' & Hres)].
  pose proof (mapM_deserialize_sim G H res Hsim Hres) as X.
  unfold sim_out in X. unfold array_map, bind, read_array. rewrite Hr, Hr'.
  destruct (mapM deserialize res G) as [G1 [ys|e| |]],
           (mapM deserialize (shift d <$> res) H) as [H1 [ys'|e'| |]];
    simpl in *; try done; [|congruence].
  destruct X as [-> _]. by rewrite !list_lookup_middle.
Qed.
End Sim.

Lemma bind_outcome {A B} (R : heap → heap → Prop) (Q : A → B → Prop)
    (c : M heap A) (c' : M heap B) (k : A → M heap value) (k' : B → M heap value)
    G H :
  sim_out R Q (c G) (c' H) →
  (∀ a b G1 H1, Q a b → R G1 H1 → outcome (k a G1) = outcome (k' b H1)) →
  outcome (bind c k G) = outcome (bind c' k' H).
Proof.
  unfold sim_out, bind. intros Hc Hk.
  destruct (c G) as [G1 [a|e| |]], (c' H) as [H1 [b|e'| |]]; simpl in *;
    try done; [|congruence].
  destruct Hc as [HQ HR]. by apply Hk.
Qed.

Lemma preserved_app (h h' : heap) :
  (∀ l c, h !! l = Some c → h' !! l = Some c) → ∃ k, h' = h ++ k.
Proof.
  intros Hpre. exists (drop (length h) h'). apply list_eq. intros i.
  destruct (h !! i) as [c|] eqn:Hi.
  - rewrite (Hpre _ _ Hi). rewrite lookup_app_l; [done|]. by eapply lookup_lt_Some.
  - apply lookup_ge_None in Hi. rewrite lookup_app_r by done.
    rewrite lookup_drop. f_equal. lia.
Qed.

Lemma serialized_sim s h k xs :
  Forall (is_record h) xs →
  sim_heap (serialized_nodes h xs) (length k)
    (serialized_heap s h xs) (serialized_heap s (h ++ k) xs) ∧
  serialized_nodes (h ++ k) xs = shift (length k) <$> serialized_nodes h xs.
Proof.
  intros Hall. split.
  - intros v (i & x & -> & Hx)%serialized_nodes_elem.
    rewrite (serialized_wrapper s h xs i x Hx). cbn [shift].
    replace (length h + i + length k)%nat with (length (h ++ k) + i)%nat
      by (rewrite length_app; lia).
    rewrite (serialized_wrapper s (h ++ k) xs i x Hx). f_equal.
    apply normalize_app. eapply (Forall_lookup_1 _ _ _ _ Hall Hx).
  - unfold serialized_nodes. rewrite length_app. apply list_eq. intros i.
    rewrite !list_lookup_fmap.
    destruct (decide (i < length xs)%nat) as [Hi|Hi].
    + rewrite !lookup_seq_lt by done. simpl. do 2 f_equal. lia.
    + by rewrite !lookup_seq_ge by lia.
Qed.

(** Two runs of [sort] on the same array of records, the second in a heap
    that has grown since the first, return the same records in the same
    order, or throw the same error. *)
Lemma sort_outcome s h h' a xs :
  h !! a = Some (Arr xs) → Forall (is_record h) xs →
  (∀ l c, h !! l = Some c → h' !! l = Some c) →
  outcome (sort s (VRef a) h') = outcome (sort s (VRef a) h).
Proof.
  intros Ha Hall [k ->]%preserved_app. symmetry.
  assert (Ha' : (h ++ k) !! a = Some (Arr xs)).
  { rewrite lookup_app_l; [done|]. by eapply lookup_lt_Some. }
  assert (Hall' : Forall (is_record (h ++ k)) xs).
  { eapply Forall_impl; [exact Hall|]. intros v. apply is_record_app. }
  destruct (serialized_sim s h k xs Hall) as [Hsim Hns].
  unfold sort. unfold bind at 1. rewrite (array_map_serialize s h a xs Ha Hall).
  unfold bind at 4. rewrite (array_map_serialize s (h ++ k) a xs Ha' Hall').
  eapply bind_outcome.
  { apply (sortByDepends_sim (serialized_nodes h xs) (length k)); [exact Hsim|..].
    - unfold serialized_heap. rewrite list_lookup_middle; [done|].
      by rewrite length_app, length_fmap.
    - rewrite <- Hns. unfold serialized_heap. rewrite list_lookup_middle; [done|].
      by rewrite (length_app (h ++ k)), length_fmap. }
  intros ? ? G1 H1 [-> ->] Hdfs.
  eapply bind_outcome; [by apply sortByWeight_sim|].
  intros ? ? G2 H2 [-> ->] Hdfs2.
  by eapply deserialize_outcome.
Qed.

(** C7, amended. For acyclic input of at least two records, [sort]
    returns, sorting the array it returned returns again, and the second
    array holds the records of the first in dependency order.  Running
    [sort] on the same input again, in a heap that kept every cell, gives
    the same outcome: the same records in the same order. *)
Theorem sort_again s h a xs :
  h !! a = Some (Arr xs) → Forall (is_record h) xs → (2 ≤ length xs)%nat →
  acyclic s h xs →
  (∃ h1 l1 out1 h2 l2 out2,
    sort s (VRef a) h = (h1, Ok (VRef l1)) ∧ h1 !! l1 = Some (Arr out1) ∧
    sort s (VRef l1) h1 = (h2, Ok (VRef l2)) ∧ h2 !! l2 = Some (Arr out2) ∧
    out2 ≡ₚ out1 ∧
    ∀ p q n m, out2 !! p = Some n → out2 !! q = Some m →
               depends_on s h m n = true → (p < q)%nat) ∧
  (∀ h', (∀ l c, h !! l = Some c → h' !! l = Some c) →
     outcome (sort s (VRef a) h') = outcome (sort s (VRef a) h)).
Proof.
  intros Ha Hall Hlen Hacyc.
  split; [|intros h' Hpre'; by eapply sort_outcome].
  pose proof (sort_spec s h a xs Ha Hall Hlen) as Hs1.
  pose proof (sort_frame s (VRef a) h) as [Hpre _].
  destruct (sort s (VRef a) h) as [h1 [v1|e| |]]; try done.
  2:{ destruct Hs1 as (c & Hc & _). by destruct (Hacyc c). }
  cbn [fst] in Hpre.
  destruct Hs1 as (l1 & out1 & -> & _ & Hout1 & Hperm1 & _).
  assert (Hall1 : Forall (is_record h1) out1).
  { rewrite Hperm1. eapply Forall_impl; [exact Hall|].
    intros v. by apply is_record_preserved. }
  assert (Hacyc1 : acyclic s h1 out1) by (by eapply acyclic_preserved).
  pose proof (sort_spec s h1 l1 out1 Hout1 Hall1 ltac:(by rewrite Hperm1)) as Hs2.
  destruct (sort s (VRef l1) h1) as [h2 [v2|e| |]] eqn:E2; try done.
  2:{ destruct Hs2 as (c & Hc & _). by destruct (Hacyc1 c). }
  destruct Hs2 as (l2 & out2 & -> & _ & Hout2 & Hperm2 & Hord2).
  exists h1, l1, out1, h2, l2, out2. repeat (split; [done|]).
  intros p q n m Hp Hq Hd. apply (Hord2 p q n m Hp Hq).
  assert (Hrec : ∀ i v, out2 !! i = Some v → is_record h v).
  { intros i v Hv. apply list_elem_of_lookup_2 in Hv.
    rewrite Hperm2, Hperm1 in Hv. by eapply (proj1 (Forall_forall _ _) Hall). }
  rewrite (depends_on_preserved s h h1); eauto.
Qed.

Lemma sort_again_witness :
  (∃ h1 l1 out1 h2 l2 out2,
    sort (Serializer None) (VRef 2%nat) pair_heap = (h1, Ok (VRef l1)) ∧
    h1 !! l1 = Some (Arr out1) ∧
    sort (Serializer None) (VRef l1) h1 = (h2, Ok (VRef l2)) ∧
    h2 !! l2 = Some (Arr out2) ∧
    out2 ≡ₚ out1 ∧
    ∀ p q n m, out2 !! p = Some n → out2 !! q = Some m →
               depends_on (Serializer None) pair_heap m n = true → (p < q)%nat) ∧
  (∀ h', (∀ l c, pair_heap !! l = Some c → h' !! l = Some c) →
     outcome (sort (Serializer None) (VRef 2%nat) h')
     = outcome (sort (Serializer None) (VRef 2%nat) pair_heap)).
Proof.
  apply (sort_again (Serializer None) pair_heap 2%nat [VRef 0%nat; VRef 1%nat]).
  - reflexivity.
  - solve_records.
  - simpl. lia.
  - apply no_edges_acyclic. intros a b Ha Hb.
    apply elem_of_cons in Ha as [->|Ha]; [|apply list_elem_of_singleton in Ha as ->];
      (apply elem_of_cons in Hb as [->|Hb]; [|apply list_elem_of_singleton in Hb as ->]);
      vm_compute; reflexivity.
Defined.

(** * Further properties of the code *)

(** ** The serializer *)

(** X1. [deserialize] undoes [serialize]: whatever [serialize] wrapped, a
    record or a number or boolean used as a node, [deserialize] gives it
    back from the wrapper and writes nothing. *)
Theorem deserialize_serialize s v h h' y :
  serialize s v h = (h', Ok y) → deserialize y h' = (h', Ok v).
Proof.
  intros (l & w & -> & _ & Hw & _ & Hn)%serialize_new.
  unfold deserialize, bind, read_wrapper. rewrite Hw. unfold ret. by rewrite Hn.
Qed.

Lemma deserialize_serialize_witness :
  ∃ h' y, serialize (Serializer None) Tom people_heap = (h', Ok y) ∧
          deserialize y h' = (h', Ok Tom).
Proof.
  eexists _, _. split; [vm_compute; reflexivity|].
  apply (deserialize_serialize (Serializer None) Tom people_heap).
  vm_compute. reflexivity.
Defined.

(** ** The dependency test *)

Lemma indexOf_from_found xs x : ∀ i,
  indexOf_from i xs x ≠ -1 → ∃ y, y ∈ xs ∧ strict_eq y x = true.
Proof.
  induction xs as [|y ys IH]; intros i; simpl; [done|].
  destruct (strict_eq y x) eqn:E.
  - intros _. exists y. split; [left|done].
  - intros (z & Hz & Ez)%IH. exists z. split; [by right|done].
Qed.

Lemma indexOf_from_present xs x : ∀ i, 0 ≤ i →
  (∃ y, y ∈ xs ∧ strict_eq y x = true) → indexOf_from i xs x ≠ -1.
Proof.
  induction xs as [|y ys IH]; intros i Hi (z & Hz & Ez); simpl.
  - by apply elem_of_nil in Hz.
  - destruct (strict_eq y x) eqn:E; [lia|].
    apply elem_of_cons in Hz as [->|Hz]; [congruence|].
    apply IH; [lia|eauto].
Qed.

Lemma tilde_true n : tilde n = true ↔ n ≠ -1.
Proof.
  unfold tilde, Z.lnot. rewrite negb_true_iff, Z.eqb_neq. lia.
Qed.

(** X2. The test [~xs.indexOf(x)] that decides every dependency holds
    exactly when some element of [xs] is strictly equal to [x].  So an id
    that is NaN is never depended on, and the number 1 does not name the
    id ["1"]. *)
Theorem depends_by_strict_equality xs x :
  (tilde (indexOf xs x) = true ↔ ∃ y, y ∈ xs ∧ strict_eq y x = true) ∧
  tilde (indexOf xs (VNum NaN)) = false ∧
  (∀ n str, tilde (indexOf [VNum n] (VStr str)) = false).
Proof.
  assert (Hiff : ∀ ys z, tilde (indexOf ys z) = true
                         ↔ ∃ y, y ∈ ys ∧ strict_eq y z = true).
  { intros ys z. rewrite tilde_true. unfold indexOf. split.
    - apply indexOf_from_found.
    - by apply indexOf_from_present. }
  split; [apply Hiff|]. split; [|done].
  destruct (tilde (indexOf xs (VNum NaN))) eqn:E; [|done].
  apply Hiff in E as (y & _ & Ey). by destruct y as [| | |[]| |].
Qed.

(** ** The topological sort on its own *)

Lemma ordered_not_cyclic h ns res :
  (∀ x, x ∈ res ↔ x ∈ ns) → ordered h res → ¬ cyclic h ns.
Proof.
  intros Hmem Hord (c & Hc & Hcc).
  assert (G : ∀ a b, tc (edge h ns) a b →
            ∀ p q, res !! p = Some a → res !! q = Some b → (p < q)%nat).
  { intros a b Hab. induction Hab as [a b (Ha & Hb & Hd)|a z b (Ha & Hz & Hd) _ IH];
      intros p q Hp Hq.
    - by eapply Hord.
    - apply Hmem, list_elem_of_lookup_1 in Hz as [r Hr].
      pose proof (Hord p r a z Hp Hr Hd). pose proof (IH r q Hr Hq). lia. }
  apply Hmem, list_elem_of_lookup_1 in Hc as [p Hp].
  pose proof (G c c Hcc p p Hp Hp). lia.
Qed.

(** X3. [sortByDepends] on nodes fresh from the serializer always ends.
    Either it returns a new array that holds each node of the input once,
    every node before the nodes that depend on it, and then the nodes have
    no cycle and the input array is as it was; or it throws, and then the
    error carries the id of a node that lies on a cycle. *)
Theorem sortByDepends_contract h a ns :
  h !! a = Some (Arr ns) →
  (∀ x, x ∈ ns → ∃ w, wrapper_at h x = Some w ∧ mark w = UNMARKED) →
  match sortByDepends (VRef a) h with
  | (h', Ok v) =>
      ¬ cyclic h ns ∧ v = VRef (length h) ∧ h' !! a = Some (Arr ns) ∧
      ∃ res, h' !! length h = Some (Arr res) ∧ NoDup res ∧
             (∀ x, x ∈ res ↔ x ∈ ns) ∧ ordered h res
  | (_, Throw e) =>
      ∃ c w, c ∈ ns ∧ tc (edge h ns) c c ∧ wrapper_at h c = Some w ∧
             e = CycleError (id w)
  | _ => False
  end.
Proof.
  intros Ha Hfresh.
  pose proof (sortByDepends_spec h a ns Ha Hfresh) as Hs.
  pose proof (sortByDepends_frame (VRef a) h) as [[_ Hframe] _].
  destruct (sortByDepends (VRef a) h) as [h' [v|e| |]]; try done.
  - destruct Hs as (-> & _ & _ & _ & res & Hres & Hnd & Hmem & Hord).
    split; [by eapply ordered_not_cyclic|]. split; [done|]. split; [|by eauto].
    apply Hframe; [done|]. intros (a' & ns' & [= <-] & Ha' & Hin).
    rewrite Ha in Ha'. injection Ha' as <-.
    destruct (Hfresh _ Hin) as (w & Hw & _). simpl in Hw. by rewrite Ha in Hw.
  - destruct Hs as (c & w & Hc & Hw & ->). exists c, w.
    split; [|done]. inversion Hc as [?? [? _]|??? [? _]]; done.
Qed.

Lemma sortByDepends_contract_witness :
  match sortByDepends (VRef 2%nat) two_nodes_heap with
  | (h', Ok v) =>
      ¬ cyclic two_nodes_heap [VRef 0%nat; VRef 1%nat] ∧
      v = VRef (length two_nodes_heap) ∧
      h' !! 2%nat = Some (Arr [VRef 0%nat; VRef 1%nat]) ∧
      ∃ res, h' !! length two_nodes_heap = Some (Arr res) ∧ NoDup res ∧
             (∀ x, x ∈ res ↔ x ∈ [VRef 0%nat; VRef 1%nat]) ∧
             ordered two_nodes_heap res
  | (_, Throw e) =>
      ∃ c w, c ∈ [VRef 0%nat; VRef 1%nat] ∧
             tc (edge two_nodes_heap [VRef 0%nat; VRef 1%nat]) c c ∧
             wrapper_at two_nodes_heap c = Some w ∧ e = CycleError (id w)
  | _ => False
  end.
Proof.
  apply (sortByDepends_contract two_nodes_heap 2%nat [VRef 0%nat; VRef 1%nat]).
  - reflexivity.
  - intros x [->|[->|[]%elem_of_nil]%elem_of_cons]%elem_of_cons;
      eexists; (split; [reflexivity|reflexivity]).
Defined.

(** ** What [sort] throws *)

Lemma serialized_ordered s h xs res :
  Forall (is_record h) xs →
  res ≡ₚ serialized_nodes h xs → ordered (serialized_heap s h xs) res →
  acyclic s h xs.
Proof.
  intros Hall Hperm Hord.
  apply (sorted_acyclic s h xs (node_of (serialized_heap s h xs) <$> res)).
  - rewrite Hperm. by rewrite serialized_nodes_records.
  - intros p q n m Hp Hq Hd. rewrite list_lookup_fmap in Hp, Hq.
    destruct (res !! p) as [x|] eqn:Hx; [|done].
    destruct (res !! q) as [y|] eqn:Hy; [|done].
    injection Hp as <-. injection Hq as <-.
    apply (Hord p q x y Hx Hy). rewrite serialized_dep; [done|..].
    + rewrite <- Hperm. by eapply list_elem_of_lookup_2.
    + rewrite <- Hperm. by eapply list_elem_of_lookup_2.
Qed.

(** The errors of [sort], for arrays of records of any length. *)
Lemma sort_errors s h a xs :
  h !! a = Some (Arr xs) → Forall (is_record h) xs →
  match sort s (VRef a) h with
  | (_, Ok _) => acyclic s h xs ∧ (2 ≤ length xs)%nat
  | (_, Throw TypeError) => acyclic s h xs ∧ (length xs < 2)%nat
  | (_, Throw (CycleError v)) =>
      ∃ c, tc (record_edge s h xs) c c ∧ v = id (normalize s h c)
  | _ => False
  end.
Proof.
  intros Ha Hall.
  destruct (decide (2 ≤ length xs)%nat) as [Hge|Hlt].
  { pose proof (sort_spec s h a xs Ha Hall Hge) as Hs.
    pose proof (sort_ok_acyclic s h a xs) as Hac.
    destruct (sort s (VRef a) h) as [h' [x|e| |]]; try done.
    - split; [by eapply Hac|done].
    - destruct Hs as (c & Hc & ->). eauto. }
  unfold sort, bind at 1.
  rewrite (array_map_serialize s h a xs Ha Hall).
  set (h1 := serialized_heap s h xs). set (ns := serialized_nodes h xs).
  assert (Ha1 : h1 !! (length h + length xs)%nat = Some (Arr ns)).
  { unfold h1, serialized_heap.
    replace (length h + length xs)%nat
      with (length (h ++ (Wrap ∘ normalize s h <$> xs)))
      by (by rewrite length_app, length_fmap).
    by rewrite list_lookup_middle. }
  assert (Hfresh : ∀ x, x ∈ ns → ∃ w, wrapper_at h1 x = Some w ∧ mark w = UNMARKED).
  { intros x Hx. apply (serialized_node_wrapper s h xs) in Hx as [_ Hx].
    eexists. split; [exact Hx|done]. }
  pose proof (sortByDepends_spec h1 _ ns Ha1 Hfresh) as Hdfs.
  unfold bind at 1.
  destruct (sortByDepends _ h1) as [h2 [v| e | |]]; try done.
  - destruct Hdfs as (-> & Hlen2 & Hstat & _ & res & Hres & Hnd & Hmem & Hord).
    assert (Hperm : res ≡ₚ ns).
    { apply NoDup_Permutation; [done|apply serialized_nodes_NoDup|done]. }
    assert (Hlres : length res = length xs).
    { rewrite Hperm. unfold ns, serialized_nodes. by rewrite length_fmap, length_seq. }
    unfold bind, sortByWeight. rewrite Hres.
    rewrite sortByWeight_array_short by lia.
    split; [by eapply serialized_ordered|lia].
  - destruct Hdfs as (c & w & Hc & Hw & ->).
    exists (node_of h1 c). split.
    + eapply tc_congruence; [|exact Hc]. apply serialized_edge.
    + assert (Hcn : c ∈ ns).
      { inversion Hc as [?? [? _]|??? [? _]]; done. }
      apply (serialized_node_wrapper s h xs) in Hcn as [_ Hcw].
      fold h1 in Hcw. rewrite Hw in Hcw. by injection Hcw as ->.
Qed.

(** X4. Given records that have a cycle, however many, [sort] throws the
    cycle error, and the id it carries is the id of a record that lies on
    a cycle.  A record that depends on itself is such a cycle. *)
Theorem sort_cyclic_throws s h a xs :
  h !! a = Some (Arr xs) → Forall (is_record h) xs → ¬ acyclic s h xs →
  ∃ c, tc (record_edge s h xs) c c ∧
       snd (sort s (VRef a) h) = Throw (CycleError (id (normalize s h c))).
Proof.
  intros Ha Hall Hcyc. pose proof (sort_errors s h a xs Ha Hall) as Hs.
  destruct (sort s (VRef a) h) as [h' [x|[v|]| |]]; try done.
  - by destruct Hs.
  - destruct Hs as (c & Hc & ->). eauto.
  - by destruct Hs.
Qed.

Lemma sort_cyclic_throws_witness :
  ∃ c, tc (record_edge (Serializer None) selfish_heap [VRef 0%nat; VRef 1%nat]) c c ∧
       snd (sort (Serializer None) (VRef 2%nat) selfish_heap)
       = Throw (CycleError (id (normalize (Serializer None) selfish_heap c))).
Proof.
  apply (sort_cyclic_throws (Serializer None) selfish_heap 2%nat
           [VRef 0%nat; VRef 1%nat]).
  - reflexivity.
  - solve_records.
  - intros Hac. apply (Hac (VRef 0%nat)). apply tc_once.
    split; [left|]. split; [left|]. vm_compute. reflexivity.
Defined.

(** X5. Given no record, or one record that does not depend on itself,
    [sort] throws a TypeError: the weight sort reads the weight of an
    array slot that does not exist. *)
Theorem sort_short_throws s h a xs :
  h !! a = Some (Arr xs) → Forall (is_record h) xs → acyclic s h xs →
  (length xs < 2)%nat →
  snd (sort s (VRef a) h) = Throw TypeError.
Proof.
  intros Ha Hall Hac Hlen. pose proof (sort_errors s h a xs Ha Hall) as Hs.
  destruct (sort s (VRef a) h) as [h' [x|[v|]| |]]; try done.
  - destruct Hs. lia.
  - destruct Hs as (c & Hc & _). by destruct (Hac c).
Qed.

Lemma sort_short_throws_witness :
  snd (sort (Serializer None) (VRef 1%nat) lonely_heap) = Throw TypeError.
Proof.
  apply (sort_short_throws (Serializer None) lonely_heap 1%nat [VRef 0%nat]).
  - reflexivity.
  - solve_records.
  - apply no_edges_acyclic.
    intros a b ->%list_elem_of_singleton ->%list_elem_of_singleton.
    vm_compute. reflexivity.
  - simpl. lia.
Defined.

(** ** The weight sort on its own *)

(** X6. [sortByWeight] sorts in place: on an array of at least two nodes
    it returns the array it was given, writes to no other cell, and leaves
    in the array the nodes it held, rearranged; were they in dependency
    order, they still are. *)
Theorem sortByWeight_in_place h l (arr : list value) :
  h !! l = Some (Arr arr) → nodes_ok h arr → (2 ≤ length arr)%nat →
  ∃ arr', sortByWeight (VRef l) h = (<[l := Arr arr']> h, Ok (VRef l)) ∧
          arr' ≡ₚ arr ∧ (ordered h arr → ordered h arr').
Proof. apply sortByWeight_spec. Qed.

Lemma sortByWeight_in_place_witness :
  ∃ arr', sortByWeight (VRef 2%nat) two_nodes_heap
          = (<[2%nat := Arr arr']> two_nodes_heap, Ok (VRef 2%nat)) ∧
          arr' ≡ₚ [VRef 0%nat; VRef 1%nat] ∧
          (ordered two_nodes_heap [VRef 0%nat; VRef 1%nat] →
           ordered two_nodes_heap arr').
Proof.
  apply (sortByWeight_in_place two_nodes_heap 2%nat [VRef 0%nat; VRef 1%nat]).
  - reflexivity.
  - apply Forall_cons. split; [by eexists|].
    apply Forall_cons. split; [by eexists|]. by constructor.
  - simpl. lia.
Defined.

Lemma scan_skip fn indices (arr : list value) :
  (∀ i, i ∈ indices → fn (arr_get arr i) i arr = (arr, Ok None)) →
  scan fn indices arr = (arr, Ok tt).
Proof.
  induction indices as [|i rest IH]; intros Hfn; simpl; [done|].
  unfold bind. rewrite Hfn by left. apply IH. intros j Hj. apply Hfn. by right.
Qed.

Lemma float_down_light h x w i (arr : list value) :
  wrapper_at h x = Some w → num_lt (weight w) (Fin 0) = false →
  float_down h x i arr = (arr, Ok None).
Proof.
  intros Hw Hn. unfold float_down, bind.
  by rewrite (reading_wrapper h x w arr Hw), Hn.
Qed.

Lemma float_up_light h x w i (arr : list value) :
  wrapper_at h x = Some w → num_lt (Fin 0) (weight w) = false →
  float_up h x i arr = (arr, Ok None).
Proof.
  intros Hw Hn. unfold float_up, bind.
  by rewrite (reading_wrapper h x w arr Hw), Hn.
Qed.

Lemma arr_get_elem (arr : list value) i :
  0 ≤ i < Z.of_nat (length arr) → arr_get arr i ∈ arr.
Proof.
  intros Hi. destruct (lookup_lt_is_Some_2 arr (Z.to_nat i)) as [x Hx]; [lia|].
  rewrite (arr_get_lookup arr i x) by (done || lia).
  by eapply list_elem_of_lookup_2.
Qed.

(** X7. Nodes whose weights are all neither negative nor positive (zero,
    the default, or NaN) are left as they are by [sortByWeight]: no node
    moves. *)
Theorem sortByWeight_unweighted h l (arr : list value) :
  h !! l = Some (Arr arr) → (2 ≤ length arr)%nat →
  (∀ x, x ∈ arr → ∃ w, wrapper_at h x = Some w ∧
                       num_lt (weight w) (Fin 0) = false ∧
                       num_lt (Fin 0) (weight w) = false) →
  sortByWeight (VRef l) h = (h, Ok (VRef l)).
Proof.
  intros Hl Hlen Hw. unfold sortByWeight. rewrite Hl.
  rewrite (weight_passes h arr Hlen). unfold bind at 1.
  rewrite scan_skip.
  2:{ intros i Hi%negative_movers_spec.
      destruct (Hw (arr_get arr i)) as (w & Hwx & Hn & _); [apply arr_get_elem; lia|].
      by eapply float_down_light. }
  rewrite scan_skip.
  2:{ intros i Hi%positive_movers_spec.
      destruct (Hw (arr_get arr i)) as (w & Hwx & _ & Hp); [apply arr_get_elem; lia|].
      by eapply float_up_light. }
  by rewrite list_insert_id.
Qed.

Lemma sortByWeight_unweighted_witness :
  sortByWeight (VRef 2%nat) two_nodes_heap = (two_nodes_heap, Ok (VRef 2%nat)).
Proof.
  apply (sortByWeight_unweighted two_nodes_heap 2%nat [VRef 0%nat; VRef 1%nat]).
  - reflexivity.
  - simpl. lia.
  - intros x [->|[->|[]%elem_of_nil]%elem_of_cons]%elem_of_cons;
      eexists; (split; [reflexivity|split; reflexivity]).
Defined.

(** ** Ranges *)

Lemma steps_lookup n : ∀ i step k j,
  steps n i step !! k = Some j ↔ (k < n)%nat ∧ j = i + Z.of_nat k * step.
Proof.
  induction n as [|n IH]; intros i step k j; simpl.
  - split; [done|lia].
  - destruct k as [|k]; simpl.
    + split; [intros [= <-]; split; lia|intros [_ ->]; f_equal; lia].
    + rewrite IH. split; intros [? ->]; split; lia.
Qed.

Lemma run_loop_reads {R} (f : value → Z → option R) d step n : ∀ i (arr : list value),
  run_loop n i step (λ v j arr0, (arr0, Ok (f v j))) d arr
  = (arr, Ok (first_defined f arr (steps n i step) d)).
Proof.
  induction n as [|n IH]; intros i arr; simpl; [done|].
  unfold bind. destruct (f (arr_get arr i) i); [done|apply IH].
Qed.

(** X8. [runInRange] with a callback that only reads visits the indices
    from [from] inclusive to [to] exclusive, upward or downward, reading
    [undefined] outside the array; it returns the first defined result and
    stops there, or [defaultResult] when every result is undefined.  On an
    empty range ([from === to]) it returns [undefined], not
    [defaultResult]. *)
Theorem runInRange_reads {R} (f : value → Z → option R) from to d (arr : list value) :
  runInRange from to (λ v i arr0, (arr0, Ok (f v i))) d arr
  = (arr, Ok (if from =? to then None
              else first_defined f arr (range_indices from to) d)) ∧
  (∀ k i, range_indices from to !! k = Some i ↔
          (Z.of_nat k < Z.abs (to - from)) ∧
          i = if from <? to then from + Z.of_nat k else from - Z.of_nat k) ∧
  (∀ i, i ∈ range_indices from to ↔ from ≤ i < to ∨ to < i ≤ from).
Proof.
  assert (Hlook : ∀ k i, range_indices from to !! k = Some i ↔
          (Z.of_nat k < Z.abs (to - from)) ∧
          i = if from <? to then from + Z.of_nat k else from - Z.of_nat k).
  { intros k i. unfold range_indices, step_of. rewrite steps_lookup.
    destruct (from <? to); split; intros [? ->]; split; lia. }
  split; [|split; [exact Hlook|]].
  - unfold runInRange. destruct (from =? to); [done|]. apply run_loop_reads.
  - intros i. rewrite list_elem_of_lookup. split.
    + intros [k [Hk ->]%Hlook]. destruct (from <? to) eqn:E; lia.
    + intros Hi. destruct (from <? to) eqn:E.
      * exists (Z.to_nat (i - from)). apply Hlook. lia.
      * exists (Z.to_nat (from - i)). apply Hlook. lia.
Qed.

(** ** Swapping along a range *)

Lemma move_lookup (arr : list value) from pos a q :
  (pos < length arr)%nat → arr !! from = Some a →
  move from pos arr !! q
  = if decide (q = pos) then Some a
    else if decide (q < pos)%nat
         then (if decide (q < from)%nat then arr !! q else arr !! S q)
         else (if decide (q - 1 < from)%nat then arr !! (q - 1)%nat else arr !! q).
Proof.
  intros Hpos Ha. unfold move. rewrite Ha.
  assert (Hfrom : (from < length arr)%nat) by (by eapply lookup_lt_Some).
  assert (Hdel : length (delete from arr) = (length arr - 1)%nat).
  { rewrite delete_take_drop, length_app, length_take, length_drop. lia. }
  assert (Htake : length (take pos (delete from arr)) = pos).
  { rewrite length_take. lia. }
  destruct (decide (q = pos)) as [->|Hne].
  - rewrite lookup_app_r by lia. by rewrite Htake, Nat.sub_diag.
  - destruct (decide (q < pos)%nat) as [Hlt|Hge].
    + rewrite lookup_app_l by lia. rewrite lookup_take_lt by done.
      destruct (decide (q < from)%nat).
      * by rewrite list_lookup_delete_lt.
      * by rewrite list_lookup_delete_ge by lia.
    + rewrite lookup_app_r by lia. rewrite Htake.
      replace (q - pos)%nat with (S (q - pos - 1)) by lia. simpl.
      rewrite lookup_drop. replace (pos + (q - pos - 1))%nat with (q - 1)%nat by lia.
      destruct (decide (q - 1 < from)%nat).
      * by rewrite list_lookup_delete_lt.
      * rewrite list_lookup_delete_ge by lia. f_equal. lia.
Qed.

Lemma move_length (arr : list value) from pos :
  (pos < length arr)%nat → length (move from pos arr) = length arr.
Proof.
  intros Hpos. unfold move. destruct (arr !! from) as [a|] eqn:Ha; [|done].
  assert (Hfrom : (from < length arr)%nat) by (by eapply lookup_lt_Some).
  rewrite length_app. simpl. rewrite length_take, length_drop.
  rewrite delete_take_drop, length_app, length_take, length_drop. lia.
Qed.

Lemma move_stay (arr : list value) from :
  (from < length arr)%nat → move from from arr = arr.
Proof.
  intros Hfrom. destruct (lookup_lt_is_Some_2 arr from Hfrom) as [a Ha].
  apply list_eq. intros q. rewrite (move_lookup arr from from a q Hfrom Ha).
  repeat case_decide; try lia; subst; done.
Qed.

Lemma move_step_up (arr : list value) from i a b :
  (from ≤ i)%nat → arr !! from = Some a → arr !! S i = Some b →
  <[i := b]> (<[S i := a]> (move from i arr)) = move from (S i) arr.
Proof.
  intros Hi Ha Hb.
  assert (HSi : (S i < length arr)%nat) by (by eapply lookup_lt_Some).
  apply list_eq. intros q.
  rewrite (move_lookup arr from (S i) a q HSi Ha).
  destruct (decide (q = i)) as [->|Hqi].
  { rewrite list_lookup_insert_eq by (rewrite length_insert, move_length; lia).
    repeat case_decide; try lia; done. }
  rewrite list_lookup_insert_ne by done.
  destruct (decide (q = S i)) as [->|HqS].
  { rewrite list_lookup_insert_eq by (rewrite move_length; lia). done. }
  rewrite list_lookup_insert_ne by done.
  rewrite (move_lookup arr from i a q ltac:(lia) Ha).
  repeat case_decide; try lia; done.
Qed.

Lemma move_step_down (arr : list value) from i a b :
  (S i ≤ from)%nat → arr !! from = Some a → arr !! i = Some b →
  <[S i := b]> (<[i := a]> (move from (S i) arr)) = move from i arr.
Proof.
  intros Hi Ha Hb.
  assert (Hfrom : (from < length arr)%nat) by (by eapply lookup_lt_Some).
  apply list_eq. intros q.
  rewrite (move_lookup arr from i a q ltac:(lia) Ha).
  destruct (decide (q = S i)) as [->|HqS].
  { rewrite list_lookup_insert_eq by (rewrite length_insert, move_length; lia).
    repeat case_decide; try lia. by replace (S i - 1)%nat with i by lia. }
  rewrite list_lookup_insert_ne by done.
  destruct (decide (q = i)) as [->|Hqi].
  { rewrite list_lookup_insert_eq by (rewrite move_length; lia). done. }
  rewrite list_lookup_insert_ne by done.
  rewrite (move_lookup arr from (S i) a q ltac:(lia) Ha).
  repeat case_decide; try lia; done.
Qed.

Lemma passed_drop test (xs : list value) j b :
  xs !! j = Some b →
  passed test (drop j xs)
  = if test b then S (passed test (drop (S j) xs)) else O.
Proof.
  intros Hb. by rewrite (drop_S xs b j Hb).
Qed.

Lemma neighbours_up (arr : list value) from to j :
  (from < to)%nat → (to < length arr)%nat → (j < to - from)%nat →
  length (neighbours from to arr) = (to - from)%nat ∧
  neighbours from to arr !! j = arr !! (S from + j)%nat.
Proof.
  intros Hft Hto Hj. unfold neighbours.
  destruct (from <? to)%nat eqn:E; [|apply Nat.ltb_ge in E; lia].
  split.
  - rewrite length_take, length_drop. lia.
  - rewrite lookup_take_lt by done. by rewrite lookup_drop.
Qed.

Lemma neighbours_down (arr : list value) from to j :
  (to < from)%nat → (from < length arr)%nat → (j < from - to)%nat →
  length (neighbours from to arr) = (from - to)%nat ∧
  neighbours from to arr !! j = arr !! (from - S j)%nat.
Proof.
  intros Hft Hfrom Hj. unfold neighbours.
  destruct (from <? to)%nat eqn:E; [apply Nat.ltb_lt in E; lia|].
  assert (Hlen : length (take (from - to) (drop to arr)) = (from - to)%nat).
  { rewrite length_take, length_drop. lia. }
  split.
  - by rewrite length_reverse.
  - rewrite reverse_lookup by lia. rewrite Hlen.
    rewrite lookup_take_lt by lia. rewrite lookup_drop. f_equal. lia.
Qed.

Section SwapMoves.
Variables (compare : value → value → arrayM bool) (test : value → bool).
Variables (arr : list value) (from to : nat) (a : value).
Hypothesis from_a : arr !! from = Some a.
Hypothesis to_in : (to < length arr)%nat.
Hypothesis compare_test : ∀ y (arr0 : list value),
  y ∈ arr → compare a y arr0 = (arr0, Ok (test y)).

Lemma swap_loop_up m : ∀ j,
  (from < to)%nat → (1 ≤ m)%nat → (j + m = to - from)%nat →
  passed test (neighbours from to arr)
  = (j + passed test (drop j (neighbours from to arr)))%nat →
  run_loop m (Z.of_nat (from + j)) 1
    (λ x i,
       let n := i + 1 in
       let* b := (λ arr0 : list value, (arr0, Ok (arr_get arr0 n))) in
       let* c := compare x b in
       if negb c then ret (Some i)
       else let* _ := arr_set n x in
            let* _ := arr_set i b in
            if n =? Z.of_nat to then ret (Some n) else ret None)
    (Some (Z.of_nat from)) (move from (from + j) arr)
  = (move from (from + passed test (neighbours from to arr)) arr,
     Ok (Some (Z.of_nat (from + passed test (neighbours from to arr))))).
Proof.
  induction m as [|m IH]; intros j Hft Hm Hj Hpassed; [lia|].
  destruct (neighbours_up arr from to j Hft to_in ltac:(lia)) as [Hlen Hnb].
  destruct (lookup_lt_is_Some_2 arr (S from + j)) as [b Hb]; [lia|].
  rewrite Hb in Hnb.
  assert (Hcur : move from (from + j) arr !! (from + j)%nat = Some a).
  { rewrite (move_lookup arr from (from + j) a _ ltac:(lia) from_a).
    by rewrite decide_True. }
  assert (Hnext : move from (from + j) arr !! S (from + j)%nat = Some b).
  { rewrite (move_lookup arr from (from + j) a _ ltac:(lia) from_a).
    repeat case_decide; try lia. by rewrite <- Hb. }
  cbn [run_loop]. unfold bind at 1.
  rewrite (arr_get_lookup _ (Z.of_nat (from + j)) a) by (lia || by rewrite Nat2Z.id).
  cbv zeta. unfold bind at 1.
  rewrite (arr_get_lookup _ (Z.of_nat (from + j) + 1) b).
  2: lia.
  2:{ by replace (Z.to_nat (Z.of_nat (from + j) + 1)) with (S (from + j)) by lia. }
  unfold bind at 1. rewrite compare_test by (by eapply list_elem_of_lookup_2).
  rewrite (passed_drop test _ j b Hnb) in Hpassed.
  destruct (test b) eqn:Hc; simpl.
  - unfold bind at 1. rewrite arr_set_ok by (rewrite move_length; lia).
    unfold bind at 1. rewrite arr_set_ok by (rewrite length_insert, move_length; lia).
    replace (Z.to_nat (Z.of_nat (from + j) + 1)) with (S (from + j)) by lia.
    rewrite Nat2Z.id.
    rewrite (move_step_up arr from (from + j) a b ltac:(lia) from_a Hb).
    destruct (Z.eqb_spec (Z.of_nat (from + j) + 1) (Z.of_nat to)) as [Et|Et].
    + assert (Hend : drop (S j) (neighbours from to arr) = []).
      { apply drop_ge. lia. }
      rewrite Hend in Hpassed. simpl in Hpassed. rewrite Hpassed.
      unfold ret. do 3 f_equal; [f_equal; lia|lia].
    + unfold ret.
      replace (Z.of_nat (from + j) + 1) with (Z.of_nat (from + S j)) by lia.
      replace (S (from + j)) with (from + S j)%nat by lia.
      apply IH; [done|lia|lia|]. rewrite Hpassed. lia.
  - rewrite Hpassed, Nat.add_0_r. done.
Qed.

Lemma swap_loop_down m : ∀ j,
  (to < from)%nat → (1 ≤ m)%nat → (j + m = from - to)%nat →
  passed test (neighbours from to arr)
  = (j + passed test (drop j (neighbours from to arr)))%nat →
  run_loop m (Z.of_nat (from - j)) (-1)
    (λ x i,
       let n := i + -1 in
       let* b := (λ arr0 : list value, (arr0, Ok (arr_get arr0 n))) in
       let* c := compare x b in
       if negb c then ret (Some i)
       else let* _ := arr_set n x in
            let* _ := arr_set i b in
            if n =? Z.of_nat to then ret (Some n) else ret None)
    (Some (Z.of_nat from)) (move from (from - j) arr)
  = (move from (from - passed test (neighbours from to arr)) arr,
     Ok (Some (Z.of_nat (from - passed test (neighbours from to arr))))).
Proof.
  induction m as [|m IH]; intros j Hft Hm Hj Hpassed; [lia|].
  assert (Hfrom : (from < length arr)%nat) by (by eapply lookup_lt_Some).
  destruct (neighbours_down arr from to j Hft Hfrom ltac:(lia)) as [Hlen Hnb].
  destruct (lookup_lt_is_Some_2 arr (from - S j)) as [b Hb]; [lia|].
  rewrite Hb in Hnb.
  assert (Hcur : move from (from - j) arr !! (from - j)%nat = Some a).
  { rewrite (move_lookup arr from (from - j) a _ ltac:(lia) from_a).
    by rewrite decide_True. }
  assert (Hnext : move from (from - j) arr !! (from - S j)%nat = Some b).
  { rewrite (move_lookup arr from (from - j) a _ ltac:(lia) from_a).
    repeat case_decide; try lia. done. }
  cbn [run_loop]. unfold bind at 1.
  rewrite (arr_get_lookup _ (Z.of_nat (from - j)) a) by (lia || by rewrite Nat2Z.id).
  cbv zeta. unfold bind at 1.
  rewrite (arr_get_lookup _ (Z.of_nat (from - j) + -1) b).
  2: lia.
  2:{ by replace (Z.to_nat (Z.of_nat (from - j) + -1)) with (from - S j)%nat by lia. }
  unfold bind at 1. rewrite compare_test by (by eapply list_elem_of_lookup_2).
  rewrite (passed_drop test _ j b Hnb) in Hpassed.
  destruct (test b) eqn:Hc; simpl.
  - unfold bind at 1. rewrite arr_set_ok by (rewrite move_length; lia).
    unfold bind at 1. rewrite arr_set_ok by (rewrite length_insert, move_length; lia).
    replace (Z.to_nat (Z.of_nat (from - j) + -1)) with (from - S j)%nat by lia.
    rewrite Nat2Z.id.
    replace (from - j)%nat with (S (from - S j)) by lia.
    rewrite (move_step_down arr from (from - S j) a b ltac:(lia) from_a Hb).
    destruct (Z.eqb_spec (Z.of_nat (S (from - S j)) + -1) (Z.of_nat to)) as [Et|Et].
    + assert (Hend : drop (S j) (neighbours from to arr) = []).
      { apply drop_ge. lia. }
      rewrite Hend in Hpassed. simpl in Hpassed. rewrite Hpassed.
      unfold ret. do 3 f_equal; [f_equal; lia|lia].
    + unfold ret.
      replace (Z.of_nat (S (from - S j)) + -1) with (Z.of_nat (from - S j)) by lia.
      apply IH; [done|lia|lia|]. rewrite Hpassed. lia.
  - rewrite Hpassed, Nat.add_0_r. done.
Qed.

Lemma swapInRange_run :
  from ≠ to →
  swapInRange (Z.of_nat from) (Z.of_nat to) compare arr
  = (move from (toward from to (passed test (neighbours from to arr))) arr,
     Ok (Some (Z.of_nat (toward from to (passed test (neighbours from to arr)))))).
Proof.
  intros Hne.
  assert (Hfrom : (from < length arr)%nat) by (by eapply lookup_lt_Some).
  unfold swapInRange, runInRange, toward.
  destruct (Z.of_nat from =? Z.of_nat to) eqn:E; [lia|]. clear E.
  unfold step_of. destruct (from <? to)%nat eqn:Eft.
  - apply Nat.ltb_lt in Eft.
    destruct (Z.of_nat from <? Z.of_nat to) eqn:E; [|lia]. clear E.
    pose proof (swap_loop_up (Z.abs_nat (Z.of_nat to - Z.of_nat from)) 0%nat
                  Eft ltac:(lia) ltac:(lia) eq_refl) as Hloop.
    rewrite Nat.add_0_r, (move_stay arr from Hfrom) in Hloop. exact Hloop.
  - apply Nat.ltb_ge in Eft.
    destruct (Z.of_nat from <? Z.of_nat to) eqn:E; [lia|]. clear E.
    pose proof (swap_loop_down (Z.abs_nat (Z.of_nat to - Z.of_nat from)) 0%nat
                  ltac:(lia) ltac:(lia) ltac:(lia) eq_refl) as Hloop.
    rewrite Nat.sub_0_r, (move_stay arr from Hfrom) in Hloop. exact Hloop.
Qed.
End SwapMoves.

Lemma passed_le test (xs : list value) : (passed test xs ≤ length xs)%nat.
Proof.
  induction xs as [|x xs IH]; simpl; [done|]. destruct (test x); lia.
Qed.

(** X9. [swapInRange] moves the element at [from] toward [to] by swapping
    it with its neighbour for as long as [compare] says so: it ends [k]
    places further, where [k] counts the neighbours [compare] accepted
    before the first it refused or before [to] was reached; the elements
    it passed each shift by one place toward [from], the others stay, and
    the index where it ended is returned. *)
Theorem swapInRange_moves (compare : value → value → arrayM bool) (test : value → bool)
    (arr : list value) (from to : nat) (a : value) :
  arr !! from = Some a → (to < length arr)%nat → from ≠ to →
  (∀ y (arr0 : list value), y ∈ arr → compare a y arr0 = (arr0, Ok (test y))) →
  swapInRange (Z.of_nat from) (Z.of_nat to) compare arr
  = (move from (toward from to (passed test (neighbours from to arr))) arr,
     Ok (Some (Z.of_nat (toward from to (passed test (neighbours from to arr)))))) ∧
  ((from ≤ toward from to (passed test (neighbours from to arr)) ≤ to)%nat ∨
   (to ≤ toward from to (passed test (neighbours from to arr)) ≤ from)%nat).
Proof.
  intros Ha Hto Hne Hcmp.
  split; [by apply (swapInRange_run compare test arr from to a)|].
  assert (Hfrom : (from < length arr)%nat) by (by eapply lookup_lt_Some).
  pose proof (passed_le test (neighbours from to arr)) as Hle.
  unfold toward, neighbours in *.
  destruct (from <? to)%nat eqn:E.
  - apply Nat.ltb_lt in E. rewrite length_take, length_drop in Hle. lia.
  - apply Nat.ltb_ge in E. rewrite length_reverse, length_take, length_drop in Hle. lia.
Qed.

Lemma swapInRange_moves_witness :
  swapInRange (Z.of_nat 2) (Z.of_nat 0)
    (λ x y, ret (strict_eq y (VStr "b")))
    [VStr "a"; VStr "b"; VStr "c"]
  = (move 2 (toward 2 0 (passed (λ y, strict_eq y (VStr "b"))
                           (neighbours 2 0 [VStr "a"; VStr "b"; VStr "c"])))
       [VStr "a"; VStr "b"; VStr "c"],
     Ok (Some (Z.of_nat (toward 2 0 (passed (λ y, strict_eq y (VStr "b"))
                           (neighbours 2 0 [VStr "a"; VStr "b"; VStr "c"])))))) ∧
  ((2 ≤ toward 2 0 (passed (λ y, strict_eq y (VStr "b"))
                      (neighbours 2 0 [VStr "a"; VStr "b"; VStr "c"])) ≤ 0)%nat ∨
   (0 ≤ toward 2 0 (passed (λ y, strict_eq y (VStr "b"))
                      (neighbours 2 0 [VStr "a"; VStr "b"; VStr "c"])) ≤ 2)%nat).
Proof.
  apply (swapInRange_moves (λ x y, ret (strict_eq y (VStr "b")))
           (λ y, strict_eq y (VStr "b")) [VStr "a"; VStr "b"; VStr "c"] 2 0 (VStr "c")).
  - reflexivity.
  - simpl. lia.
  - lia.
  - reflexivity.
Defined.

(** ** Order by weight *)

Lemma Qlt_bool_lt p q : Qlt_bool p q = true ↔ (p < q)%Q.
Proof.
  unfold Qlt_bool. rewrite negb_true_iff. split.
  - intros E. apply Qnot_le_lt. intros Hle. apply Qle_bool_iff in Hle. congruence.
  - intros Hlt. destruct (Qle_bool q p) eqn:E; [|done].
    apply Qle_bool_iff in E. by apply Qlt_not_le in Hlt.
Qed.

Lemma num_lt_trans x y z :
  num_lt x y = true → num_lt y z = true → num_lt x z = true.
Proof.
  destruct x as [| |p|], y as [| |q|], z as [| |r|]; simpl; try done.
  rewrite !Qlt_bool_lt. apply Qlt_trans.
Qed.

Lemma num_lt_irrefl x : num_lt x x = false.
Proof.
  destruct x as [| |p|]; simpl; try done.
  destruct (Qlt_bool p p) eqn:E; [|done].
  apply Qlt_bool_lt in E. by apply Qlt_irrefl in E.
Qed.

Lemma num_lt_asym x y : num_lt x y = true → num_lt y x = false.
Proof.
  intros Hxy. destruct (num_lt y x) eqn:Hyx; [|done].
  pose proof (num_lt_trans x y x Hxy Hyx) as E. by rewrite num_lt_irrefl in E.
Qed.

Lemma num_lt_between x y z :
  num_lt x z = true → y ≠ NaN → num_lt x y = true ∨ num_lt y z = true.
Proof.
  destruct x as [| |p|], y as [| |q|], z as [| |r|]; simpl; try done; auto.
  rewrite !Qlt_bool_lt. intros Hpr _.
  destruct (Qlt_le_dec p q) as [?|Hle]; [by left|right].
  by eapply Qle_lt_trans.
Qed.

Lemma by_weight_sorted h (arr : list value) :
  StronglySorted (no_lighter h) arr → by_weight h arr.
Proof.
  intros Hs p q x y Hp Hq Hpq.
  rewrite <- (take_drop_middle arr p x Hp) in Hs, Hq.
  apply StronglySorted_app in Hs as (_ & _ & Hs).
  apply StronglySorted_cons in Hs as [Hall _].
  rewrite lookup_app_r in Hq by (rewrite length_take; lia).
  rewrite length_take in Hq.
  assert (Hp' : (p < length arr)%nat) by (by eapply lookup_lt_Some).
  replace (q - p `min` length arr)%nat with (S (q - p - 1)) in Hq by lia.
  simpl in Hq. apply list_elem_of_lookup_2 in Hq.
  by apply (proj1 (Forall_forall _ _) Hall).
Qed.

Lemma passed_all test (xs : list value) :
  Forall (λ y, test y = true) xs → passed test xs = length xs.
Proof.
  induction 1 as [|x xs Hx _ IH]; simpl; [done|]. by rewrite Hx, IH.
Qed.

Lemma passed_split test (xs : list value) :
  Forall (λ y, test y = true) (take (passed test xs) xs) ∧
  ∀ y, drop (passed test xs) xs !! 0%nat = Some y → test y = false.
Proof.
  induction xs as [|x xs [IH1 IH2]]; simpl.
  - split; [constructor|done].
  - destruct (test x) eqn:E; simpl.
    + split; [by constructor|done].
    + split; [constructor|]. by intros y [= <-].
Qed.

Section Insertion.
Variable h : heap.

Lemma negative_real x : negative h x → weight_of h x ≠ NaN.
Proof. unfold negative. by destruct (weight_of h x). Qed.

Lemma positive_real x : positive h x → weight_of h x ≠ NaN.
Proof. unfold positive. by destruct (weight_of h x). Qed.

Lemma negative_not_positive x : negative h x → ¬ positive h x.
Proof.
  unfold negative, positive. intros Hn Hp.
  pose proof (num_lt_trans _ _ _ Hn Hp) as E. by rewrite num_lt_irrefl in E.
Qed.

(** The negative pass inserts: a negative node that went to the front and
    came back past the strictly lighter nodes sits in order among the
    negative nodes before it. *)
Lemma insert_front (n f : list value) a :
  StronglySorted (no_lighter h) n → Forall (negative h) n →
  Forall (λ y, ¬ negative h y) f → negative h a →
  (passed (λ y, num_lt (weight_of h y) (weight_of h a)) (n ++ f) ≤ length n)%nat ∧
  StronglySorted (no_lighter h)
    (take (passed (λ y, num_lt (weight_of h y) (weight_of h a)) (n ++ f)) n
     ++ a :: drop (passed (λ y, num_lt (weight_of h y) (weight_of h a)) (n ++ f)) n).
Proof.
  intros Hs Hn Hf Ha.
  set (test := λ y, num_lt (weight_of h y) (weight_of h a)).
  set (k := passed test (n ++ f)).
  destruct (passed_split test (n ++ f)) as [Hpass Hstop]. fold k in Hpass, Hstop.
  assert (Hk : (k ≤ length n)%nat).
  { destruct (decide (k ≤ length n)%nat) as [|Hgt]; [done|exfalso].
    pose proof (passed_le test (n ++ f)) as Hle. fold k in Hle.
    rewrite length_app in Hle.
    destruct (lookup_lt_is_Some_2 f 0%nat ltac:(lia)) as [y Hy].
    assert (Hin : y ∈ take k (n ++ f)).
    { apply (list_elem_of_lookup_2 _ (length n)).
      rewrite lookup_take_lt by lia. rewrite lookup_app_r by lia.
      by rewrite Nat.sub_diag. }
    apply (proj1 (Forall_forall _ _) Hpass) in Hin. unfold test in Hin.
    apply (proj1 (Forall_forall _ _) Hf y); [by eapply list_elem_of_lookup_2|].
    by eapply num_lt_trans. }
  split; [done|].
  rewrite take_app_le in Hpass by done. rewrite drop_app_le in Hstop by done.
  rewrite <- (take_drop k n) in Hs.
  apply StronglySorted_app in Hs as (Hcross & Hs1 & Hs2).
  apply StronglySorted_app. split; [|split; [done|]].
  - intros x y Hx [->|Hy]%elem_of_cons; [|by apply Hcross].
    apply (proj1 (Forall_forall _ _) Hpass) in Hx. by apply num_lt_asym.
  - apply StronglySorted_cons. split; [|done].
    destruct (drop k n) as [|y0 rest] eqn:Ed; [constructor|].
    assert (H0 : test y0 = false) by (by apply Hstop).
    apply StronglySorted_cons in Hs2 as [Hrest _].
    constructor; [exact H0|].
    apply Forall_forall. intros y Hy. unfold no_lighter.
    destruct (num_lt (weight_of h y) (weight_of h a)) eqn:E; [|done].
    assert (Hy0 : weight_of h y0 ≠ NaN).
    { apply negative_real. apply (proj1 (Forall_forall _ _) Hn).
      rewrite <- (take_drop k n), Ed. apply elem_of_app. right. left. }
    destruct (num_lt_between _ _ _ E Hy0) as [E1|E1].
    + apply (proj1 (Forall_forall _ _) Hrest) in Hy. unfold no_lighter in Hy. congruence.
    + unfold test in H0. congruence.
Qed.

(** The positive pass inserts from the other end. *)
Lemma insert_back (z p : list value) a :
  StronglySorted (no_lighter h) p → Forall (positive h) p →
  Forall (λ y, ¬ positive h y) z → positive h a →
  (passed (λ y, num_lt (weight_of h a) (weight_of h y)) (reverse (z ++ p))
   ≤ length p)%nat ∧
  StronglySorted (no_lighter h)
    (take (length p
           - passed (λ y, num_lt (weight_of h a) (weight_of h y)) (reverse (z ++ p))) p
     ++ a :: drop (length p
           - passed (λ y, num_lt (weight_of h a) (weight_of h y)) (reverse (z ++ p))) p).
Proof.
  intros Hs Hp Hz Ha.
  set (test := λ y, num_lt (weight_of h a) (weight_of h y)).
  rewrite reverse_app.
  set (k := passed test (reverse p ++ reverse z)).
  destruct (passed_split test (reverse p ++ reverse z)) as [Hpass Hstop].
  fold k in Hpass, Hstop.
  assert (Hk : (k ≤ length p)%nat).
  { destruct (decide (k ≤ length p)%nat) as [|Hgt]; [done|exfalso].
    pose proof (passed_le test (reverse p ++ reverse z)) as Hle. fold k in Hle.
    rewrite length_app, !length_reverse in Hle.
    destruct (lookup_lt_is_Some_2 (reverse z) 0%nat) as [y Hy];
      [rewrite length_reverse; lia|].
    assert (Hin : y ∈ take k (reverse p ++ reverse z)).
    { apply (list_elem_of_lookup_2 _ (length p)).
      rewrite lookup_take_lt by lia.
      rewrite lookup_app_r by (rewrite length_reverse; lia).
      by rewrite length_reverse, Nat.sub_diag. }
    apply (proj1 (Forall_forall _ _) Hpass) in Hin. unfold test in Hin.
    apply (proj1 (Forall_forall _ _) Hz y).
    - apply elem_of_reverse. by eapply list_elem_of_lookup_2.
    - by eapply num_lt_trans. }
  split; [done|].
  rewrite take_app_le in Hpass by (by rewrite length_reverse).
  rewrite drop_app_le in Hstop by (by rewrite length_reverse).
  rewrite take_reverse in Hpass. rewrite drop_reverse in Hstop.
  set (m := (length p - k)%nat) in *.
  rewrite Forall_reverse in Hpass.
  pose proof Hs as Hsp.
  rewrite <- (take_drop m p) in Hs.
  apply StronglySorted_app in Hs as (Hcross & Hs1 & Hs2).
  apply StronglySorted_app. split; [|split; [done|]].
  - intros x y Hx [->|Hy]%elem_of_cons; [|by apply Hcross].
    unfold no_lighter.
    destruct (num_lt (weight_of h a) (weight_of h x)) eqn:E; [|done].
    destruct (reverse (take m p)) as [|y0 l] eqn:Er.
    { apply (f_equal reverse) in Er. rewrite reverse_involutive in Er.
      rewrite Er in Hx. by apply elem_of_nil in Hx. }
    assert (H0 : test y0 = false) by (by apply Hstop).
    apply (f_equal reverse) in Er. rewrite reverse_involutive, reverse_cons in Er.
    rewrite Er in Hx, Hs1.
    assert (Hy0 : weight_of h y0 ≠ NaN).
    { apply positive_real. apply (proj1 (Forall_forall _ _) Hp).
      rewrite <- (take_drop m p), Er. apply elem_of_app. left.
      apply elem_of_app. right. left. }
    destruct (num_lt_between _ _ _ E Hy0) as [E1|E1].
    + unfold test in H0. congruence.
    + apply elem_of_app in Hx as [Hx|Hx%list_elem_of_singleton].
      * apply StronglySorted_app in Hs1 as (Hc1 & _ & _).
        specialize (Hc1 x y0 Hx ltac:(left)). unfold no_lighter in Hc1. congruence.
      * subst x. by rewrite num_lt_irrefl in E1.
  - apply StronglySorted_cons. split; [|done].
    eapply Forall_impl; [exact Hpass|]. intros y Hy. by apply num_lt_asym.
Qed.
End Insertion.

(** ** Moves to the ends of the array and back *)

Lemma delete_middle (T D : list value) a :
  delete (length T) (T ++ a :: D) = T ++ D.
Proof.
  rewrite delete_take_drop, take_app_length.
  by rewrite <- Nat.add_1_r, <- drop_drop, drop_app_length.
Qed.

Lemma move_to_front (T D : list value) a :
  move (length T) 0 (T ++ a :: D) = a :: T ++ D.
Proof.
  unfold move. rewrite list_lookup_middle by done. by rewrite delete_middle.
Qed.

Lemma neighbours_to_front (T D : list value) a :
  T ≠ [] → neighbours (length T) 0 (T ++ a :: D) = reverse T.
Proof.
  intros HT. unfold neighbours.
  destruct (length T <? 0)%nat eqn:E; [apply Nat.ltb_lt in E; lia|].
  by rewrite Nat.sub_0_r, drop_0, take_app_length.
Qed.

Lemma move_from_front (L : list value) a k :
  move 0 k (a :: L) = take k L ++ a :: drop k L.
Proof. done. Qed.

Lemma neighbours_from_front (T D : list value) a :
  T ≠ [] → neighbours 0 (length T) (a :: T ++ D) = T.
Proof.
  intros HT. unfold neighbours.
  destruct (0 <? length T)%nat eqn:E.
  - change (drop 1 (a :: T ++ D)) with (T ++ D).
    by rewrite Nat.sub_0_r, take_app_length.
  - apply Nat.ltb_ge in E. destruct T; [done|simpl in E; lia].
Qed.

Lemma move_to_back (T D : list value) a :
  move (length T) (length T + length D) (T ++ a :: D) = (T ++ D) ++ [a].
Proof.
  unfold move. rewrite list_lookup_middle by done. rewrite delete_middle.
  rewrite take_ge by (rewrite length_app; lia).
  by rewrite drop_ge by (rewrite length_app; lia).
Qed.

Lemma neighbours_to_back (T D : list value) a :
  D ≠ [] → neighbours (length T) (length T + length D) (T ++ a :: D) = D.
Proof.
  intros HD. unfold neighbours.
  destruct (length T <? length T + length D)%nat eqn:E.
  - rewrite <- Nat.add_1_r, <- drop_drop, drop_app_length.
    change (drop 1 (a :: D)) with D. rewrite take_ge; [done|lia].
  - apply Nat.ltb_ge in E. destruct D; [done|simpl in E; lia].
Qed.

Lemma move_from_back (L : list value) a pos :
  (pos ≤ length L)%nat →
  move (length L) pos (L ++ [a]) = take pos L ++ a :: drop pos L.
Proof.
  intros Hpos. unfold move. rewrite list_lookup_middle by done.
  by rewrite delete_middle, app_nil_r.
Qed.

Lemma neighbours_from_back (T D : list value) a :
  D ≠ [] →
  neighbours (length (T ++ D)) (length T) ((T ++ D) ++ [a]) = reverse D.
Proof.
  intros HD. unfold neighbours. rewrite length_app.
  destruct (length T + length D <? length T)%nat eqn:E;
    [apply Nat.ltb_lt in E; lia|].
  rewrite <- app_assoc, drop_app_length.
  replace (length T + length D - length T)%nat with (length D) by lia.
  by rewrite take_app_length.
Qed.

Lemma weight_lt_of h x y :
  weight_lt h x y = num_lt (weight_of h x) (weight_of h y).
Proof.
  unfold weight_lt, weight_of.
  destruct (wrapper_at h x) as [wx|], (wrapper_at h y) as [wy|]; try done.
  by destruct (weight wx).
Qed.

Section NoDependencies.
Variable h : heap.

(** One step of the negative pass on nodes without dependencies: a
    negative node is inserted among the negative nodes before it. *)
Lemma float_down_inserts (n f D : list value) a :
  nodes_ok h ((n ++ f) ++ a :: D) →
  (∀ x y, x ∈ (n ++ f) ++ a :: D → y ∈ (n ++ f) ++ a :: D → dep h x y = false) →
  n ++ f ≠ [] →
  StronglySorted (no_lighter h) n → Forall (negative h) n →
  Forall (λ y, ¬ negative h y) f →
  float_down h (arr_get ((n ++ f) ++ a :: D) (Z.of_nat (length (n ++ f))))
    (Z.of_nat (length (n ++ f))) ((n ++ f) ++ a :: D)
  = (if decide (negative h a)
     then (take (passed (λ y, num_lt (weight_of h y) (weight_of h a)) (n ++ f)) n
           ++ a :: drop (passed (λ y, num_lt (weight_of h y) (weight_of h a)) (n ++ f)) n)
          ++ f ++ D
     else (n ++ f) ++ a :: D,
     Ok None).
Proof.
  intros Hok Hno HT Hs Hn Hf.
  set (T := n ++ f) in *. set (arr := T ++ a :: D) in *.
  assert (Ha : arr !! length T = Some a) by (by apply list_lookup_middle).
  assert (HlenT : (0 < length T)%nat) by (destruct T; [done|simpl; lia]).
  assert (Hwa : is_Some (wrapper_at h a)).
  { apply (proj1 (Forall_forall _ _) Hok). by eapply list_elem_of_lookup_2. }
  destruct Hwa as [wa Hwa].
  rewrite (arr_get_lookup arr _ a) by (lia || by rewrite Nat2Z.id).
  unfold float_down, bind at 1. rewrite (reading_wrapper h a wa arr Hwa).
  assert (Hneg : negative h a ↔ num_lt (weight wa) (Fin 0) = true).
  { unfold negative, weight_of. by rewrite Hwa. }
  destruct (num_lt (weight wa) (Fin 0)) eqn:Ew.
  2:{ rewrite decide_False; [done|]. rewrite Hneg. done. }
  rewrite decide_True by (by apply Hneg).
  (* down to the front *)
  pose proof (swapInRange_run (not_depends_on h) (λ y, negb (dep h a y))
                arr (length T) 0 a Ha) as E1.
  lapply E1; [clear E1; intros E1|unfold arr; rewrite length_app; simpl; lia].
  lapply E1; [clear E1; intros E1|].
  2:{ intros y arr0 Hy. apply not_depends_on_ok; [by eexists|].
      by apply (proj1 (Forall_forall _ _) Hok). }
  specialize (E1 ltac:(lia)).
  assert (Hp1 : passed (λ y, negb (dep h a y)) (neighbours (length T) 0 arr) = length T).
  { unfold arr. rewrite neighbours_to_front by done.
    rewrite passed_all; [by rewrite length_reverse|].
    apply Forall_forall. intros y Hy. rewrite elem_of_reverse in Hy.
    rewrite Hno; [done|by eapply list_elem_of_lookup_2|].
    apply elem_of_app. by left. }
  rewrite Hp1 in E1. unfold toward in E1.
  destruct (length T <? 0)%nat eqn:E0; [apply Nat.ltb_lt in E0; lia|].
  rewrite Nat.sub_diag in E1. unfold arr in E1 at 2. rewrite move_to_front in E1.
  unfold bind at 1. change 0 with (Z.of_nat 0). rewrite E1.
  (* and back up *)
  unfold swapBack.
  pose proof (swapInRange_run (heavier h)
                (λ y, num_lt (weight_of h y) (weight_of h a))
                (a :: T ++ D) 0 (length T) a eq_refl) as E2.
  lapply E2; [clear E2; intros E2|simpl; rewrite length_app; lia].
  lapply E2; [clear E2; intros E2|].
  2:{ intros y arr0 Hy. rewrite <- weight_lt_of. apply heavier_ok; [by eexists|].
      apply (proj1 (Forall_forall _ _) Hok). unfold arr.
      apply elem_of_cons in Hy as [->|Hy]; [by eapply list_elem_of_lookup_2|].
      apply elem_of_app in Hy as [Hy|Hy]; apply elem_of_app; [by left|right; by right]. }
  specialize (E2 ltac:(lia)).
  rewrite neighbours_from_front in E2 by done.
  destruct (insert_front h n f a Hs Hn Hf ltac:(by apply Hneg)) as [Hk _].
  fold T in Hk. set (k := passed _ T) in *.
  unfold toward in E2.
  destruct (0 <? length T)%nat eqn:E3; [|apply Nat.ltb_ge in E3; lia].
  rewrite Nat.add_0_l, move_from_front in E2.
  unfold bind at 1. rewrite E2. unfold bind, ret. f_equal.
  unfold T. rewrite <- !app_assoc.
  rewrite take_app_le by done. by rewrite drop_app_le by done.
Qed.

(** One step of the positive pass on nodes without dependencies: a
    positive node is inserted among the positive nodes after it. *)
Lemma float_up_inserts (T z p : list value) a :
  nodes_ok h (T ++ a :: z ++ p) →
  (∀ x y, x ∈ T ++ a :: z ++ p → y ∈ T ++ a :: z ++ p → dep h x y = false) →
  z ++ p ≠ [] →
  StronglySorted (no_lighter h) p → Forall (positive h) p →
  Forall (λ y, ¬ positive h y) z →
  float_up h (arr_get (T ++ a :: z ++ p) (Z.of_nat (length T)))
    (Z.of_nat (length T)) (T ++ a :: z ++ p)
  = (if decide (positive h a)
     then T ++ z
          ++ take (length p - passed (λ y, num_lt (weight_of h a) (weight_of h y))
                                (reverse (z ++ p))) p
          ++ a :: drop (length p - passed (λ y, num_lt (weight_of h a) (weight_of h y))
                                     (reverse (z ++ p))) p
     else T ++ a :: z ++ p,
     Ok None).
Proof.
  intros Hok Hno HD Hs Hp Hz.
  set (D := z ++ p) in *. set (arr := T ++ a :: D) in *.
  assert (Ha : arr !! length T = Some a) by (by apply list_lookup_middle).
  assert (HlenD : (0 < length D)%nat) by (destruct D; [done|simpl; lia]).
  assert (Hlen : length arr = S (length T + length D)).
  { unfold arr. rewrite length_app. simpl. lia. }
  assert (Hwa : is_Some (wrapper_at h a)).
  { apply (proj1 (Forall_forall _ _) Hok). by eapply list_elem_of_lookup_2. }
  destruct Hwa as [wa Hwa].
  rewrite (arr_get_lookup arr _ a) by (lia || by rewrite Nat2Z.id).
  unfold float_up, bind at 1. rewrite (reading_wrapper h a wa arr Hwa).
  assert (Hpos : positive h a ↔ num_lt (Fin 0) (weight wa) = true).
  { unfold positive, weight_of. by rewrite Hwa. }
  destruct (num_lt (Fin 0) (weight wa)) eqn:Ew.
  2:{ rewrite decide_False; [done|]. rewrite Hpos. done. }
  rewrite decide_True by (by apply Hpos).
  (* up to the back *)
  pose proof (swapInRange_run (not_depended_by h) (λ y, negb (dep h y a))
                arr (length T) (length T + length D) a Ha) as E1.
  lapply E1; [clear E1; intros E1|lia].
  lapply E1; [clear E1; intros E1|].
  2:{ intros y arr0 Hy. apply not_depended_by_ok; [by eexists|].
      by apply (proj1 (Forall_forall _ _) Hok). }
  specialize (E1 ltac:(lia)).
  assert (Hp1 : passed (λ y, negb (dep h y a))
                  (neighbours (length T) (length T + length D) arr) = length D).
  { unfold arr. rewrite neighbours_to_back by done.
    rewrite passed_all; [done|].
    apply Forall_forall. intros y Hy.
    rewrite Hno; [done| |by eapply list_elem_of_lookup_2].
    apply elem_of_app. right. by right. }
  rewrite Hp1 in E1. unfold toward in E1.
  destruct (length T <? length T + length D)%nat eqn:E0;
    [|apply Nat.ltb_ge in E0; lia].
  unfold arr in E1 at 2. rewrite move_to_back in E1.
  unfold bind at 1. cbv beta.
  replace (Z.of_nat (length arr) - 1) with (Z.of_nat (length T + length D)) by lia.
  rewrite E1.
  (* and back down *)
  unfold swapBack.
  pose proof (swapInRange_run (lighter h)
                (λ y, num_lt (weight_of h a) (weight_of h y))
                ((T ++ D) ++ [a]) (length (T ++ D)) (length T) a) as E2.
  lapply E2; [clear E2; intros E2|by apply list_lookup_middle].
  lapply E2; [clear E2; intros E2|rewrite !length_app; simpl; lia].
  lapply E2; [clear E2; intros E2|].
  2:{ intros y arr0 Hy. rewrite <- weight_lt_of. apply lighter_ok; [by eexists|].
      apply (proj1 (Forall_forall _ _) Hok). unfold arr.
      apply elem_of_app in Hy as [Hy|Hy%list_elem_of_singleton];
        [|subst y; by eapply list_elem_of_lookup_2].
      apply elem_of_app in Hy as [Hy|Hy]; apply elem_of_app; [by left|right; by right]. }
  specialize (E2 ltac:(rewrite length_app; lia)).
  rewrite neighbours_from_back in E2 by done.
  destruct (insert_back h z p a Hs Hp Hz ltac:(by apply Hpos)) as [Hk _].
  fold D in Hk. set (k := passed _ (reverse D)) in *.
  unfold toward in E2.
  destruct (length (T ++ D) <? length T)%nat eqn:E3;
    [apply Nat.ltb_lt in E3; rewrite length_app in E3; lia|].
  rewrite move_from_back in E2 by lia.
  rewrite length_app in E2.
  unfold bind at 1. rewrite E2. unfold bind, ret. f_equal.
  assert (HlD : length D = (length z + length p)%nat) by (unfold D; by rewrite length_app).
  rewrite HlD. unfold D.
  rewrite take_app_ge by lia. rewrite drop_app_ge by lia.
  rewrite take_app_ge by lia. rewrite drop_app_ge by lia.
  rewrite <- !app_assoc. do 3 f_equal; [f_equal; lia|do 2 f_equal; lia].
Qed.

Lemma filter_split_length (P : value → Prop) `{∀ x, Decision (P x)} (l : list value) :
  (length (filter P l) + length (filter (λ x, ¬ P x) l) = length l)%nat.
Proof.
  rewrite <- length_app. by rewrite (filter_app_complement P l).
Qed.

Lemma insert_Permutation (l : list value) a k :
  take k l ++ a :: drop k l ≡ₚ a :: l.
Proof.
  rewrite <- Permutation_middle. by rewrite take_drop.
Qed.

(** The negative pass on nodes without dependencies: the negative nodes
    come to the front in order of weight, the others keep their order
    behind them. *)
Lemma negative_pass (arr : list value) :
  nodes_ok h arr → (∀ x y, x ∈ arr → y ∈ arr → dep h x y = false) →
  (2 ≤ length arr)%nat →
  ∃ n, runInRange 1 (Z.of_nat (length arr)) (float_down h) None arr
       = (n ++ filter (λ y, ¬ negative h y) arr, Ok None) ∧
       n ≡ₚ filter (negative h) arr ∧ StronglySorted (no_lighter h) n.
Proof.
  intros Hok Hno Hlen.
  pose (J := λ (k : nat) (arr1 : list value),
         ∃ n, arr1 = n ++ filter (λ y, ¬ negative h y) (take (S k) arr)
                       ++ drop (S k) arr ∧
              n ≡ₚ filter (negative h) (take (S k) arr) ∧
              StronglySorted (no_lighter h) n).
  pose (Q := λ (x : option unit) (arr1 : list value),
         x = None ∧ J (length arr - 1)%nat arr1).
  pose proof (run_loop_rule (float_down h) None 1 J Q
                (Z.abs_nat (Z.of_nat (length arr) - 1)) 1) as Hrule.
  lapply Hrule; [clear Hrule; intros Hrule|].
  - lapply Hrule; [clear Hrule; intros Hrule|].
    2:{ intros arr1 HJ. split; [done|].
        by replace (length arr - 1)%nat with (Z.abs_nat (Z.of_nat (length arr) - 1)) by lia. }
    specialize (Hrule arr). lapply Hrule; [clear Hrule; intros Hrule|].
    2:{ destruct arr as [|x0 rest]; [simpl in Hlen; lia|].
        unfold J. cbn [take drop]. rewrite take_0, drop_0.
        destruct (decide (negative h x0)) as [Hx|Hx].
        - exists [x0]. rewrite (filter_cons_True (negative h)) by done.
          rewrite (filter_cons_False (λ y, ¬ negative h y)) by tauto.
          rewrite !filter_nil.
          split; [done|]. split; [done|]. repeat constructor.
        - exists []. rewrite (filter_cons_False (negative h)) by done.
          rewrite (filter_cons_True (λ y, ¬ negative h y)) by done.
          rewrite !filter_nil.
          split; [done|]. split; [done|]. constructor. }
    unfold runInRange.
    destruct (1 =? Z.of_nat (length arr)) eqn:E; [lia|]. clear E.
    assert (Hs : step_of 1 (Z.of_nat (length arr)) = 1).
    { unfold step_of. destruct (1 <? Z.of_nat (length arr)) eqn:E'; lia. }
    rewrite Hs.
    destruct (run_loop _ _ _ _ _ arr) as [arr' [x| | |]]; try done.
    destruct Hrule as [-> (n & -> & Hperm & Hsorted)].
    exists n. replace (S (length arr - 1)) with (length arr) in * by lia.
    rewrite take_ge, drop_ge, app_nil_r in * by lia. done.
  - intros k arr1 Hk (n & -> & Hperm & Hsorted).
    destruct (lookup_lt_is_Some_2 arr (S k)) as [a Ha]; [lia|].
    set (T := take (S k) arr) in *.
    set (f := filter (λ y, ¬ negative h y) T) in *.
    assert (Hdrop : drop (S k) arr = a :: drop (S (S k)) arr) by (by apply drop_S).
    assert (Htake : take (S (S k)) arr = T ++ [a]) by (by apply take_S_r).
    assert (HlT : length T = S k) by (unfold T; rewrite length_take; lia).
    assert (Hlnf : length (n ++ f) = S k).
    { rewrite length_app, Hperm. unfold f. rewrite filter_split_length. done. }
    assert (Harr : (n ++ f) ++ a :: drop (S (S k)) arr ≡ₚ arr).
    { rewrite Hperm. unfold f. rewrite (filter_app_complement (negative h) T).
      rewrite <- Hdrop. unfold T. by rewrite take_drop. }
    rewrite Hdrop, app_assoc.
    replace (1 + Z.of_nat k * 1) with (Z.of_nat (length (n ++ f))) by lia.
    rewrite float_down_inserts; try done.
    + destruct (decide (negative h a)) as [Hneg|Hneg].
      * unfold J. rewrite Htake, !filter_app.
        rewrite (filter_cons_True (negative h)) by done.
        rewrite (filter_cons_False (λ y, ¬ negative h y)) by tauto.
        rewrite !filter_nil, app_nil_r. fold f.
        eexists. split; [reflexivity|].
        split; [by rewrite insert_Permutation, Hperm, <- Permutation_cons_append|].
        apply insert_front; [done| | |done].
        -- rewrite Hperm. apply Forall_forall. by intros y [? _]%list_elem_of_filter.
        -- apply Forall_forall. by intros y [? _]%list_elem_of_filter.
      * unfold J. rewrite Htake, !filter_app.
        rewrite (filter_cons_False (negative h)) by done.
        rewrite (filter_cons_True (λ y, ¬ negative h y)) by done.
        rewrite !filter_nil, app_nil_r. fold f.
        exists n. split; [by rewrite <- !app_assoc|]. done.
    + unfold nodes_ok. by rewrite Harr.
    + intros x y Hx Hy. rewrite Harr in Hx, Hy. by apply Hno.
    + intros E. rewrite E in Hlnf. done.
    + rewrite Hperm. apply Forall_forall. by intros y [? _]%list_elem_of_filter.
    + apply Forall_forall. by intros y [? _]%list_elem_of_filter.
Qed.

(** The positive pass on nodes without dependencies: behind the first
    node, the positive nodes go to the back in order of weight, the others
    keep their order before them.  The first node stays. *)
Lemma positive_pass (arr : list value) :
  nodes_ok h arr → (∀ x y, x ∈ arr → y ∈ arr → dep h x y = false) →
  (2 ≤ length arr)%nat →
  ∃ p, runInRange (Z.of_nat (length arr) - 2) 0 (float_up h) None arr
       = (take 1 arr ++ filter (λ y, ¬ positive h y) (drop 1 arr) ++ p, Ok None) ∧
       p ≡ₚ filter (positive h) (drop 1 arr) ∧ StronglySorted (no_lighter h) p.
Proof.
  intros Hok Hno Hlen.
  pose (J := λ (k : nat) (arr1 : list value),
         ∃ p, arr1 = take (length arr - 1 - k) arr
                       ++ filter (λ y, ¬ positive h y) (drop (length arr - 1 - k) arr)
                       ++ p ∧
              p ≡ₚ filter (positive h) (drop (length arr - 1 - k) arr) ∧
              StronglySorted (no_lighter h) p).
  assert (HJ0 : J 0%nat arr).
  { unfold J. rewrite Nat.sub_0_r.
    destruct (lookup_lt_is_Some_2 arr (length arr - 1)) as [l Hl]; [lia|].
    assert (Hd : drop (length arr - 1) arr = [l]).
    { rewrite (drop_S arr l _ Hl). by rewrite drop_ge by lia. }
    rewrite Hd. destruct (decide (positive h l)) as [Hx|Hx].
    - exists [l]. rewrite (filter_cons_True (positive h)) by done.
      rewrite (filter_cons_False (λ y, ¬ positive h y)) by tauto.
      rewrite !filter_nil. split; [|split; [done|repeat constructor]].
      by rewrite app_nil_l, <- Hd, take_drop.
    - exists []. rewrite (filter_cons_False (positive h)) by done.
      rewrite (filter_cons_True (λ y, ¬ positive h y)) by done.
      rewrite !filter_nil. split; [|split; [done|constructor]].
      by rewrite app_nil_r, <- Hd, take_drop. }
  unfold runInRange.
  destruct (Z.of_nat (length arr) - 2 =? 0) eqn:E.
  { destruct HJ0 as (p & Harr & Hperm & Hs).
    replace (length arr - 1 - 0)%nat with 1%nat in * by lia.
    exists p. split; [|done]. unfold ret. by rewrite <- Harr. }
  pose (Q := λ (x : option unit) (arr1 : list value),
         x = None ∧ J (length arr - 2)%nat arr1).
  pose proof (run_loop_rule (float_up h) None (-1) J Q
                (Z.abs_nat (0 - (Z.of_nat (length arr) - 2)))
                (Z.of_nat (length arr) - 2)) as Hrule.
  lapply Hrule; [clear Hrule; intros Hrule|].
  - lapply Hrule; [clear Hrule; intros Hrule|].
    2:{ intros arr1 HJ. split; [done|].
        by replace (length arr - 2)%nat
          with (Z.abs_nat (0 - (Z.of_nat (length arr) - 2))) by lia. }
    specialize (Hrule arr HJ0).
    assert (Hs : step_of (Z.of_nat (length arr) - 2) 0 = -1).
    { unfold step_of. destruct (Z.of_nat (length arr) - 2 <? 0) eqn:E'; lia. }
    rewrite Hs.
    destruct (run_loop _ _ _ _ _ arr) as [arr' [x| | |]]; try done.
    destruct Hrule as [-> (p & -> & Hperm & Hsorted)].
    replace (length arr - 1 - (length arr - 2))%nat with 1%nat in * by lia.
    by exists p.
  - intros k arr1 Hk (p & -> & Hperm & Hsorted).
    set (i := (length arr - 2 - k)%nat).
    replace (length arr - 1 - k)%nat with (S i) in * by (unfold i; lia).
    assert (Hi : (length arr - 1 - S k)%nat = i) by (unfold i; lia).
    destruct (lookup_lt_is_Some_2 arr i) as [a Ha]; [unfold i; lia|].
    set (T := take i arr) in *.
    set (z := filter (λ y, ¬ positive h y) (drop (S i) arr)) in *.
    assert (Hdrop : drop i arr = a :: drop (S i) arr) by (by apply drop_S).
    assert (Htake : take (S i) arr = T ++ [a]) by (by apply take_S_r).
    assert (HlT : length T = i) by (unfold T, i; rewrite length_take; lia).
    assert (Hlzp : length (z ++ p) = (length arr - S i)%nat).
    { rewrite length_app, Hperm. unfold z. rewrite Nat.add_comm, filter_split_length.
      by rewrite length_drop. }
    assert (Harr : T ++ a :: z ++ p ≡ₚ arr).
    { rewrite Hperm. unfold z. rewrite (Permutation_app_comm (filter _ _)).
      rewrite (filter_app_complement (positive h) (drop (S i) arr)).
      rewrite <- Hdrop. unfold T. by rewrite take_drop. }
    rewrite Htake, <- app_assoc. cbn [app].
    replace (Z.of_nat (length arr) - 2 + Z.of_nat k * -1) with (Z.of_nat (length T))
      by (rewrite HlT; unfold i; lia).
    rewrite float_up_inserts; try done.
    + destruct (decide (positive h a)) as [Hpos|Hpos].
      * unfold J. rewrite Hi, Hdrop.
        rewrite (filter_cons_True (positive h)) by done.
        rewrite (filter_cons_False (λ y, ¬ positive h y)) by tauto. fold z.
        eexists. split; [reflexivity|].
        split; [by rewrite insert_Permutation, Hperm|].
        apply insert_back; [done| | |done].
        -- rewrite Hperm. apply Forall_forall. by intros y [? _]%list_elem_of_filter.
        -- apply Forall_forall. by intros y [? _]%list_elem_of_filter.
      * unfold J. rewrite Hi, Hdrop.
        rewrite (filter_cons_False (positive h)) by done.
        rewrite (filter_cons_True (λ y, ¬ positive h y)) by done. fold z.
        exists p. done.
    + unfold nodes_ok. by rewrite Harr.
    + intros x y Hx Hy. rewrite Harr in Hx, Hy. by apply Hno.
    + intros E'. rewrite E' in Hlzp. simpl in Hlzp. unfold i in Hlzp. lia.
    + rewrite Hperm. apply Forall_forall. by intros y [? _]%list_elem_of_filter.
    + apply Forall_forall. by intros y [? _]%list_elem_of_filter.
Qed.

Lemma filter_all (P : value → Prop) `{∀ x, Decision (P x)} (l : list value) :
  Forall P l → filter P l = l.
Proof.
  induction 1 as [|x l Hx _ IH]; [done|].
  by rewrite filter_cons_True, IH by done.
Qed.

Lemma filter_none (P : value → Prop) `{∀ x, Decision (P x)} (l : list value) :
  Forall (λ x, ¬ P x) l → filter P l = [].
Proof.
  induction 1 as [|x l Hx _ IH]; [done|].
  by rewrite filter_cons_False, IH by done.
Qed.

Lemma sorted_pairwise (R : value → value → Prop) (l : list value) :
  (∀ x y, x ∈ l → y ∈ l → R x y) → StronglySorted R l.
Proof.
  induction l as [|x l IH]; intros HR; constructor.
  - apply IH. intros y z Hy Hz. apply HR; by right.
  - apply Forall_forall. intros y Hy. apply HR; [left|by right].
Qed.

(** Nodes of weight zero, then positive nodes in order, are in order. *)
Lemma zeros_then_positives (Z p : list value) :
  Forall (λ y, ¬ negative h y ∧ ¬ positive h y) Z →
  Forall (positive h) p → StronglySorted (no_lighter h) p →
  StronglySorted (no_lighter h) (Z ++ p).
Proof.
  intros HZ Hp Hs.
  assert (Hzero : ∀ x y, x ∈ Z → ¬ negative h y → no_lighter h x y).
  { intros x y Hx Hy. unfold no_lighter.
    destruct (num_lt (weight_of h y) (weight_of h x)) eqn:E; [|done].
    destruct (proj1 (Forall_forall _ _) HZ x Hx) as [_ Hxp].
    destruct (num_lt_between _ (Fin 0) _ E ltac:(done)) as [E1|E1]; [|done].
    by destruct Hy. }
  apply StronglySorted_app. split; [|split; [|done]].
  - intros x y Hx Hy. apply Hzero; [done|].
    intros Hn. eapply negative_not_positive; [exact Hn|].
    by apply (proj1 (Forall_forall _ _) Hp).
  - apply sorted_pairwise. intros x y Hx Hy. apply Hzero; [done|].
    by destruct (proj1 (Forall_forall _ _) HZ y Hy).
Qed.

(** The two passes on nodes without dependencies put the nodes in order
    of weight, provided one node is negative or the first node is a
    lightest one: the positive pass never moves the first node. *)
Lemma sortByWeight_array_orders (arr : list value) :
  nodes_ok h arr → (∀ x y, x ∈ arr → y ∈ arr → dep h x y = false) →
  (2 ≤ length arr)%nat →
  ((∃ x, x ∈ arr ∧ negative h x) ∨
   (∀ a0 y, arr !! 0%nat = Some a0 → y ∈ arr → no_lighter h a0 y)) →
  ∃ arr', sortByWeight_array h arr = (arr', Ok tt) ∧ arr' ≡ₚ arr ∧
          StronglySorted (no_lighter h) arr'.
Proof.
  intros Hok Hno Hlen Hfirst.
  destruct (negative_pass arr Hok Hno Hlen) as (n & E1 & Hn & Hsn).
  set (f := filter (λ y, ¬ negative h y) arr) in *.
  assert (Hperm1 : n ++ f ≡ₚ arr).
  { rewrite Hn. apply filter_app_complement. }
  assert (Hok1 : nodes_ok h (n ++ f)) by (unfold nodes_ok; by rewrite Hperm1).
  assert (Hno1 : ∀ x y, x ∈ n ++ f → y ∈ n ++ f → dep h x y = false).
  { intros x y Hx Hy. rewrite Hperm1 in Hx, Hy. by apply Hno. }
  assert (Hlen1 : (2 ≤ length (n ++ f))%nat) by (by rewrite Hperm1).
  destruct (positive_pass (n ++ f) Hok1 Hno1 Hlen1) as (p & E2 & Hp & Hsp).
  unfold sortByWeight_array, bind. rewrite E1, E2. unfold ret.
  eexists. split; [reflexivity|].
  assert (Hperm2 : take 1 (n ++ f)
                   ++ filter (λ y, ¬ positive h y) (drop 1 (n ++ f)) ++ p ≡ₚ arr).
  { rewrite Hp, (Permutation_app_comm (filter _ _)).
    rewrite (filter_app_complement (positive h)). by rewrite take_drop. }
  split; [exact Hperm2|].
  assert (Hnneg : Forall (negative h) n).
  { rewrite Hn. apply Forall_forall. by intros y [? _]%list_elem_of_filter. }
  assert (Hfneg : Forall (λ y, ¬ negative h y) f).
  { apply Forall_forall. by intros y [? _]%list_elem_of_filter. }
  assert (Hppos : ∀ l, p ≡ₚ filter (positive h) l → Forall (positive h) p).
  { intros l ->. apply Forall_forall. by intros y [? _]%list_elem_of_filter. }
  destruct n as [|n0 n'].
  - (* no negative node: the first node stays *)
    assert (Hnone : Forall (λ y, ¬ negative h y) arr).
    { apply Forall_forall. intros y Hy Hneg.
      assert (y ∈ filter (negative h) arr) as Hin by (by apply list_elem_of_filter).
      rewrite <- Hn in Hin. by apply elem_of_nil in Hin. }
    destruct Hfirst as [(x & Hx & Hxn)|Hfirst].
    { by destruct (proj1 (Forall_forall _ _) Hnone x Hx). }
    assert (Hf : f = arr) by (by apply filter_all).
    rewrite app_nil_l, Hf in *.
    destruct arr as [|a0 rest]; [simpl in Hlen; lia|].
    cbn [take drop app] in *. rewrite take_0, drop_0 in *. cbn [app] in *.
    apply StronglySorted_cons. split.
    + apply Forall_forall. intros y Hy. apply (Hfirst a0 y eq_refl).
      rewrite <- Hperm2. by right.
    + apply zeros_then_positives; [|by eapply Hppos|done].
      apply Forall_forall. intros y [Hyp Hy]%list_elem_of_filter.
      split; [|done]. apply (proj1 (Forall_forall _ _) Hnone). by right.
  - (* the lightest negative node is first *)
    cbn [take drop app] in *. rewrite take_0, drop_0 in *. cbn [app] in *.
    assert (Hn' : Forall (negative h) n') by (by apply Forall_cons in Hnneg as [_ ?]).
    assert (Hnp : Forall (λ y, ¬ positive h y) n').
    { eapply Forall_impl; [exact Hn'|]. intros y. apply negative_not_positive. }
    rewrite filter_app in *.
    rewrite (filter_all (λ y, ¬ positive h y) n') in * by done.
    rewrite (filter_none (positive h) n'), app_nil_l in Hp by done.
    rewrite <- app_assoc.
    change (n0 :: n' ++ filter (λ y, ¬ positive h y) f ++ p)
      with ((n0 :: n') ++ filter (λ y, ¬ positive h y) f ++ p).
    apply StronglySorted_app. split; [|split; [done|]].
    + intros x y Hx Hy. unfold no_lighter.
      destruct (num_lt (weight_of h y) (weight_of h x)) eqn:E; [|done].
      assert (Hxn : negative h x) by (by apply (proj1 (Forall_forall _ _) Hnneg)).
      assert (Hyn : negative h y) by (by eapply num_lt_trans).
      apply elem_of_app in Hy as [Hy|Hy].
      * apply list_elem_of_filter in Hy as [_ Hy].
        by destruct (proj1 (Forall_forall _ _) Hfneg y Hy).
      * rewrite Hp in Hy. apply list_elem_of_filter in Hy as [_ Hy].
        by destruct (proj1 (Forall_forall _ _) Hfneg y Hy).
    + apply zeros_then_positives; [|by eapply Hppos|done].
      apply Forall_forall. intros y [Hyp Hy]%list_elem_of_filter.
      split; [|done]. by apply (proj1 (Forall_forall _ _) Hfneg).
Qed.

(** Without a negative node the first node stays first. *)
Lemma sortByWeight_array_first (arr : list value) :
  nodes_ok h arr → (∀ x y, x ∈ arr → y ∈ arr → dep h x y = false) →
  (2 ≤ length arr)%nat → Forall (λ y, ¬ negative h y) arr →
  ∃ arr', sortByWeight_array h arr = (arr', Ok tt) ∧ arr' ≡ₚ arr ∧
          head arr' = head arr.
Proof.
  intros Hok Hno Hlen Hnone.
  destruct (negative_pass arr Hok Hno Hlen) as (n & E1 & Hn & _).
  rewrite (filter_none (negative h) arr Hnone) in Hn.
  apply Permutation_nil_r in Hn as ->.
  rewrite (filter_all (λ y, ¬ negative h y) arr Hnone), app_nil_l in E1.
  destruct (positive_pass arr Hok Hno Hlen) as (p & E2 & Hp & _).
  unfold sortByWeight_array, bind. rewrite E1, E2. unfold ret.
  eexists. split; [reflexivity|]. split.
  - rewrite Hp, (Permutation_app_comm (filter _ _)).
    rewrite (filter_app_complement (positive h)). by rewrite take_drop.
  - destruct arr as [|a0 rest]; [simpl in Hlen; lia|]. done.
Qed.
End NoDependencies.

Lemma weight_of_static h h0 x :
  static_at h x = static_at h0 x → weight_of h x = weight_of h0 x.
Proof.
  unfold static_at, static, weight_of.
  destruct (wrapper_at h x), (wrapper_at h0 x); simpl; congruence.
Qed.

Lemma rev_reverse (l : list value) : rev l = reverse l.
Proof. unfold reverse. apply rev_alt. Qed.

(** [sort] on records none of which depends on another: the weight sort
    runs on the nodes in reverse input order, and what it leaves is what
    [sort] returns, unwrapped. *)
Lemma sort_independent s h a xs :
  h !! a = Some (Arr xs) → Forall (is_record h) xs →
  (∀ m n, m ∈ xs → n ∈ xs → depends_on s h m n = false) →
  ∃ h2,
    (∀ x, x ∈ serialized_nodes h xs →
       weight_of h2 x = weight (normalize s h (node_of (serialized_heap s h xs) x))) ∧
    nodes_ok h2 (rev (serialized_nodes h xs)) ∧
    (∀ x y, x ∈ rev (serialized_nodes h xs) → y ∈ rev (serialized_nodes h xs) →
            dep h2 x y = false) ∧
    ∀ arr, sortByWeight_array h2 (rev (serialized_nodes h xs)) = (arr, Ok tt) →
      arr ≡ₚ rev (serialized_nodes h xs) →
      ∃ h' l, sort s (VRef a) h = (h', Ok (VRef l)) ∧
              h' !! l = Some (Arr (node_of (serialized_heap s h xs) <$> arr)).
Proof.
  intros Ha Hall Hnodep.
  set (h1 := serialized_heap s h xs). set (ns := serialized_nodes h xs).
  assert (Ha1 : h1 !! (length h + length xs)%nat = Some (Arr ns)).
  { unfold h1, serialized_heap.
    replace (length h + length xs)%nat
      with (length (h ++ (Wrap ∘ normalize s h <$> xs)))
      by (by rewrite length_app, length_fmap).
    by rewrite list_lookup_middle. }
  assert (Hwrap : ∀ x, x ∈ ns →
            node_of h1 x ∈ xs ∧ wrapper_at h1 x = Some (normalize s h (node_of h1 x))).
  { intros x Hx. by apply (serialized_node_wrapper s h xs). }
  assert (Hfresh : ∀ x, x ∈ ns → ∃ w, wrapper_at h1 x = Some w ∧ mark w = UNMARKED).
  { intros x Hx. destruct (Hwrap x Hx) as [_ Hw]. eexists. split; [exact Hw|done]. }
  assert (Hno1 : ∀ x y, x ∈ ns → y ∈ ns → dep h1 x y = false).
  { intros x y Hx Hy. unfold h1, ns. rewrite serialized_dep by done.
    apply Hnodep; by apply Hwrap. }
  pose proof (sortByDepends_spec h1 _ ns Ha1 Hfresh) as Hdfs.
  destruct (sortByDepends_no_edges h1 _ ns Ha1 (serialized_nodes_NoDup h xs)
              Hfresh Hno1) as (h2 & E2 & Hres2).
  rewrite E2 in Hdfs. destruct Hdfs as (_ & Hlen2 & Hstat & _).
  assert (Hrev : ∀ x, x ∈ rev ns ↔ x ∈ ns).
  { intros x. by rewrite rev_reverse, elem_of_reverse. }
  assert (Hok2 : nodes_ok h2 (rev ns)).
  { apply Forall_forall. intros x Hx%Hrev.
    destruct (Hfresh x Hx) as (w & Hw & _).
    destruct (static_at_wrapper h2 h1 x w (Hstat x) Hw) as (w' & Hw' & _). eauto. }
  exists h2. split; [|split; [exact Hok2|split]].
  { intros x Hx. rewrite (weight_of_static h2 h1) by done.
    unfold weight_of. by destruct (Hwrap x Hx) as [_ ->]. }
  { intros x y Hx%Hrev Hy%Hrev. rewrite (dep_static h2 h1) by done. by apply Hno1. }
  intros arr E3 Hp3.
  unfold sort, bind at 1. rewrite (array_map_serialize s h a xs Ha Hall).
  fold h1. unfold bind at 1. rewrite E2.
  unfold bind at 1, sortByWeight. rewrite Hres2, E3.
  set (h3 := <[length h1 := Arr arr]> h2).
  assert (Hw3 : ∀ v, wrapper_at h3 v = wrapper_at h2 v).
  { intros v. by eapply wrapper_at_insert_arr. }
  assert (Harr : ∀ x, x ∈ arr → x ∈ ns).
  { intros x Hx. apply Hrev. by rewrite <- Hp3. }
  assert (Hnode : ∀ x, x ∈ ns → node_of h3 x = node_of h1 x).
  { intros x Hx. unfold node_of. rewrite Hw3.
    pose proof (Hstat x) as Hsx. unfold static_at, static in Hsx.
    destruct (wrapper_at h2 x), (wrapper_at h1 x); simpl in Hsx; congruence. }
  assert (Hok3 : nodes_ok h3 arr).
  { eapply nodes_ok_Permutation in Hok2; [|exact Hp3].
    eapply Forall_impl; [exact Hok2|]. intros v Hv. by rewrite Hw3. }
  assert (Hl3 : h3 !! length h1 = Some (Arr arr)).
  { unfold h3. rewrite list_lookup_insert_eq; [done|]. by eapply lookup_lt_Some. }
  unfold bind at 1. rewrite (array_map_deserialize h3 _ arr Hl3 Hok3).
  unfold ret. eexists _, _. split; [reflexivity|].
  rewrite list_lookup_middle by done. do 2 f_equal.
  apply list_fmap_ext. intros i x Hx. apply Hnode, Harr.
  by eapply list_elem_of_lookup_2.
Qed.

Lemma serialized_records_Permutation s h xs (arr : list value) :
  arr ≡ₚ rev (serialized_nodes h xs) →
  node_of (serialized_heap s h xs) <$> arr ≡ₚ xs.
Proof.
  intros ->. rewrite rev_reverse, reverse_Permutation.
  by rewrite serialized_nodes_records.
Qed.

(** X10. When no record depends on another, [sort] returns the records in
    order of weight, lightest first (no record is lighter than a record
    before it), provided that some record has a negative weight or that
    the last record of the input is a lightest one.  The proviso is
    needed: the positive pass never moves the node the topological sort
    put first, which is the last record of the input. *)
Theorem sort_orders_by_weight s h a xs :
  h !! a = Some (Arr xs) → Forall (is_record h) xs → (2 ≤ length xs)%nat →
  (∀ m n, m ∈ xs → n ∈ xs → depends_on s h m n = false) →
  ((∃ x, x ∈ xs ∧ num_lt (weight (normalize s h x)) (Fin 0) = true) ∨
   (∀ l y, last xs = Some l → y ∈ xs →
           num_lt (weight (normalize s h y)) (weight (normalize s h l)) = false)) →
  ∃ h' l out,
    sort s (VRef a) h = (h', Ok (VRef l)) ∧ h' !! l = Some (Arr out) ∧
    out ≡ₚ xs ∧
    ∀ p q x y, out !! p = Some x → out !! q = Some y → (p < q)%nat →
               num_lt (weight (normalize s h y)) (weight (normalize s h x)) = false.
Proof.
  intros Ha Hall Hlen Hnodep Hfirst.
  destruct (sort_independent s h a xs Ha Hall Hnodep)
    as (h2 & Hweight & Hok2 & Hno2 & Hsort).
  set (h1 := serialized_heap s h xs) in *. set (ns := serialized_nodes h xs) in *.
  assert (Hrev : ∀ x, x ∈ rev ns ↔ x ∈ ns).
  { intros x. by rewrite rev_reverse, elem_of_reverse. }
  assert (Hnodes : node_of h1 <$> ns = xs) by apply serialized_nodes_records.
  destruct (sortByWeight_array_orders h2 (rev ns) Hok2 Hno2) as (arr & E3 & Hp3 & Hs3).
  { rewrite length_rev. unfold ns, serialized_nodes.
    by rewrite length_fmap, length_seq. }
  { destruct Hfirst as [(x & Hx & Hneg)|Hlast].
    - left. rewrite <- Hnodes in Hx.
      apply list_elem_of_fmap in Hx as (x' & -> & Hx').
      exists x'. split; [by apply Hrev|]. unfold negative. by rewrite Hweight.
    - right. intros a0 y Ha0 Hy%Hrev.
      rewrite rev_reverse, <- head_lookup, head_reverse in Ha0.
      assert (Ha0n : a0 ∈ ns).
      { rewrite last_lookup in Ha0. by eapply list_elem_of_lookup_2. }
      unfold no_lighter. rewrite !Hweight by done.
      apply Hlast.
      + by rewrite <- Hnodes, fmap_last, Ha0.
      + rewrite <- Hnodes. apply list_elem_of_fmap. eauto. }
  destruct (Hsort arr E3 Hp3) as (h' & l & E & Hout).
  exists h', l, (node_of h1 <$> arr). split; [done|]. split; [done|].
  split; [by apply serialized_records_Permutation|].
  intros p q x y Hp Hq Hpq. rewrite list_lookup_fmap in Hp, Hq.
  destruct (arr !! p) as [x'|] eqn:Hx; [|done].
  destruct (arr !! q) as [y'|] eqn:Hy; [|done].
  injection Hp as <-. injection Hq as <-.
  assert (Hxn : x' ∈ ns).
  { apply Hrev. rewrite <- Hp3. by eapply list_elem_of_lookup_2. }
  assert (Hyn : y' ∈ ns).
  { apply Hrev. rewrite <- Hp3. by eapply list_elem_of_lookup_2. }
  rewrite <- !Hweight by done.
  by apply (by_weight_sorted h2 arr Hs3 p q).
Qed.

Ltac solve_independent :=
  let m := fresh "m" in let n := fresh "n" in
  let Hm := fresh "Hm" in let Hn := fresh "Hn" in
  intros m n Hm Hn;
  repeat (apply elem_of_cons in Hm as [->|Hm]);
  try (by apply elem_of_nil in Hm);
  repeat (apply elem_of_cons in Hn as [->|Hn]);
  try (by apply elem_of_nil in Hn);
  vm_compute; reflexivity.

Lemma sort_orders_by_weight_witness :
  ∃ h' l out,
    sort (Serializer None) (VRef 3%nat) weights_heap = (h', Ok (VRef l)) ∧
    h' !! l = Some (Arr out) ∧
    out ≡ₚ [VRef 0%nat; VRef 1%nat; VRef 2%nat] ∧
    ∀ p q x y, out !! p = Some x → out !! q = Some y → (p < q)%nat →
               num_lt (weight (normalize (Serializer None) weights_heap y))
                      (weight (normalize (Serializer None) weights_heap x)) = false.
Proof.
  apply (sort_orders_by_weight (Serializer None) weights_heap 3%nat
           [VRef 0%nat; VRef 1%nat; VRef 2%nat]).
  - reflexivity.
  - solve_records.
  - simpl. lia.
  - solve_independent.
  - left. exists (VRef 1%nat). split; [right; left|]. vm_compute. reflexivity.
Defined.

(** X11. When no record depends on another and no record has a negative
    weight, the first record [sort] returns is the last record of the
    input, whatever its weight: the topological sort puts it first and
    the weight sort never moves the first node in its positive pass. *)
Theorem sort_last_comes_first s h a xs :
  h !! a = Some (Arr xs) → Forall (is_record h) xs → (2 ≤ length xs)%nat →
  (∀ m n, m ∈ xs → n ∈ xs → depends_on s h m n = false) →
  (∀ x, x ∈ xs → num_lt (weight (normalize s h x)) (Fin 0) = false) →
  ∃ h' l out,
    sort s (VRef a) h = (h', Ok (VRef l)) ∧ h' !! l = Some (Arr out) ∧
    out ≡ₚ xs ∧ head out = last xs.
Proof.
  intros Ha Hall Hlen Hnodep Hnoneg.
  destruct (sort_independent s h a xs Ha Hall Hnodep)
    as (h2 & Hweight & Hok2 & Hno2 & Hsort).
  set (h1 := serialized_heap s h xs) in *. set (ns := serialized_nodes h xs) in *.
  assert (Hrev : ∀ x, x ∈ rev ns ↔ x ∈ ns).
  { intros x. by rewrite rev_reverse, elem_of_reverse. }
  assert (Hnodes : node_of h1 <$> ns = xs) by apply serialized_nodes_records.
  destruct (sortByWeight_array_first h2 (rev ns) Hok2 Hno2) as (arr & E3 & Hp3 & Hhead).
  { rewrite length_rev. unfold ns, serialized_nodes.
    by rewrite length_fmap, length_seq. }
  { apply Forall_forall. intros x Hx%Hrev. unfold negative.
    rewrite Hweight by done. rewrite Hnoneg; [done|].
    rewrite <- Hnodes. apply list_elem_of_fmap. eauto. }
  destruct (Hsort arr E3 Hp3) as (h' & l & E & Hout).
  exists h', l, (node_of h1 <$> arr). split; [done|]. split; [done|].
  split; [by apply serialized_records_Permutation|].
  rewrite <- Hnodes, fmap_last, <- head_reverse, <- rev_reverse, <- Hhead.
  by destruct arr.
Qed.

Lemma sort_last_comes_first_witness :
  ∃ h' l out,
    sort (Serializer None) (VRef 2%nat) heavy_last_heap = (h', Ok (VRef l)) ∧
    h' !! l = Some (Arr out) ∧
    out ≡ₚ [VRef 0%nat; VRef 1%nat] ∧
    head out = last [VRef 0%nat; VRef 1%nat].
Proof.
  apply (sort_last_comes_first (Serializer None) heavy_last_heap 2%nat
           [VRef 0%nat; VRef 1%nat]).
  - reflexivity.
  - solve_records.
  - simpl. lia.
  - solve_independent.
  - intros x Hx.
    repeat (apply elem_of_cons in Hx as [->|Hx]); try (by apply elem_of_nil in Hx);
      vm_compute; reflexivity.
Defined.

(** ** Who swaps with whom *)

Lemma passed_first test (xs : list value) y :
  xs !! 0%nat = Some y → test y = true → (1 ≤ passed test xs)%nat.
Proof.
  destruct xs as [|x xs]; [done|]. intros [= ->] Hy. simpl. rewrite Hy. lia.
Qed.

Lemma passed_stop test (xs : list value) : ∀ j y,
  xs !! j = Some y → test y = false → (passed test xs ≤ j)%nat.
Proof.
  induction xs as [|x xs IH]; intros j y Hj Hy; [done|]. simpl.
  destruct j as [|j]; simpl in Hj.
  - injection Hj as ->. by rewrite Hy.
  - destruct (test x); [|lia]. pose proof (IH j y Hj Hy). lia.
Qed.

Lemma move_Permutation (arr : list value) from pos :
  move from pos arr ≡ₚ arr.
Proof.
  unfold move. destruct (arr !! from) as [a|] eqn:Ha; [|done].
  rewrite <- Permutation_middle, take_drop. symmetry. by apply delete_Permutation.
Qed.

Section Swaps.
Variables (h : heap) (arr : list value).
Hypothesis wrappers : nodes_ok h arr.

(** A negative mover that does not depend on the node before it swaps with
    it.  When that node is not lighter, it ends the step in the mover's
    place. *)
Lemma float_down_swaps (i : nat) a b :
  (1 ≤ i)%nat → arr !! i = Some a → arr !! (i - 1)%nat = Some b →
  negative h a → dep h a b = false → weight_lt h b a = false →
  ∃ arr', float_down h a (Z.of_nat i) arr = (arr', Ok None) ∧
          arr' !! i = Some b ∧ arr' ≡ₚ arr.
Proof.
  intros Hi Ha Hb Hneg Hdep Hw.
  assert (Hlen : (i < length arr)%nat) by (by eapply lookup_lt_Some).
  assert (Hwa : is_Some (wrapper_at h a)).
  { apply (proj1 (Forall_forall _ _) wrappers). by eapply list_elem_of_lookup_2. }
  destruct Hwa as [wa Hwa].
  unfold float_down, bind at 1. rewrite (reading_wrapper h a wa arr Hwa).
  assert (Ew : num_lt (weight wa) (Fin 0) = true).
  { unfold negative, weight_of in Hneg. by rewrite Hwa in Hneg. }
  rewrite Ew.
  (* down *)
  pose proof (swapInRange_run (not_depends_on h) (λ y, negb (dep h a y))
                arr i 0 a Ha ltac:(lia)) as E1.
  lapply E1; [clear E1; intros E1|].
  2:{ intros y arr0 Hy. apply not_depends_on_ok; [by eexists|].
      by apply (proj1 (Forall_forall _ _) wrappers). }
  specialize (E1 ltac:(lia)).
  destruct (neighbours_down arr i 0 0 ltac:(lia) Hlen ltac:(lia)) as [Hl1 Hn1].
  rewrite Hb in Hn1.
  pose proof (passed_first (λ y, negb (dep h a y)) _ b Hn1 ltac:(cbv beta; by rewrite Hdep)) as Hk1.
  pose proof (passed_le (λ y, negb (dep h a y)) (neighbours i 0 arr)) as Hk1'.
  rewrite Hl1 in Hk1'.
  set (k1 := passed _ (neighbours i 0 arr)) in *.
  unfold toward in E1.
  destruct (i <? 0)%nat eqn:E0; [apply Nat.ltb_lt in E0; lia|]. clear E0.
  set (p1 := (i - k1)%nat) in *.
  set (arr1 := move i p1 arr) in *.
  assert (Hlen1 : length arr1 = length arr) by (apply move_length; unfold p1; lia).
  assert (Ha1 : arr1 !! p1 = Some a).
  { unfold arr1. rewrite (move_lookup arr i p1 a p1) by (done || unfold p1; lia).
    by rewrite decide_True. }
  assert (Hb1 : arr1 !! i = Some b).
  { unfold arr1. rewrite (move_lookup arr i p1 a i) by (done || unfold p1; lia).
    unfold p1. repeat case_decide; try lia. done. }
  unfold bind at 1. change 0 with (Z.of_nat 0). rewrite E1.
  (* and back up *)
  unfold swapBack.
  pose proof (swapInRange_run (heavier h) (λ y, num_lt (weight_of h y) (weight_of h a))
                arr1 p1 i a Ha1 ltac:(lia)) as E2.
  lapply E2; [clear E2; intros E2|].
  2:{ intros y arr0 Hy. rewrite <- weight_lt_of. apply heavier_ok; [by eexists|].
      apply (proj1 (Forall_forall _ _) wrappers).
      unfold arr1 in Hy. by rewrite move_Permutation in Hy. }
  specialize (E2 ltac:(unfold p1; lia)).
  destruct (neighbours_up arr1 p1 i (k1 - 1) ltac:(unfold p1; lia) ltac:(lia)
              ltac:(unfold p1; lia)) as [Hl2 Hn2].
  replace (S p1 + (k1 - 1))%nat with i in Hn2 by (unfold p1; lia).
  rewrite Hb1 in Hn2.
  pose proof (passed_stop (λ y, num_lt (weight_of h y) (weight_of h a)) _ _ b Hn2
                ltac:(cbv beta; by rewrite <- weight_lt_of)) as Hk2.
  set (k2 := passed _ (neighbours p1 i arr1)) in *.
  unfold toward in E2.
  destruct (p1 <? i)%nat eqn:E0; [|apply Nat.ltb_ge in E0; unfold p1 in E0; lia].
  unfold bind at 1. rewrite E2. unfold bind, ret.
  eexists. split; [reflexivity|]. split.
  - rewrite (move_lookup arr1 p1 (p1 + k2) a i) by (done || unfold p1; lia).
    unfold p1 in *. repeat case_decide; try lia. done.
  - rewrite move_Permutation. apply move_Permutation.
Qed.

(** A positive mover on which the node after it does not depend swaps
    with it.  When that node is not heavier, it ends the step in the
    mover's place. *)
Lemma float_up_swaps (i : nat) a b :
  arr !! i = Some a → arr !! S i = Some b →
  positive h a → dep h b a = false → weight_lt h a b = false →
  ∃ arr', float_up h a (Z.of_nat i) arr = (arr', Ok None) ∧
          arr' !! i = Some b ∧ arr' ≡ₚ arr.
Proof.
  intros Ha Hb Hpos Hdep Hw.
  assert (Hlen : (S i < length arr)%nat) by (by eapply lookup_lt_Some).
  assert (Hwa : is_Some (wrapper_at h a)).
  { apply (proj1 (Forall_forall _ _) wrappers). by eapply list_elem_of_lookup_2. }
  destruct Hwa as [wa Hwa].
  unfold float_up, bind at 1. rewrite (reading_wrapper h a wa arr Hwa).
  assert (Ew : num_lt (Fin 0) (weight wa) = true).
  { unfold positive, weight_of in Hpos. by rewrite Hwa in Hpos. }
  rewrite Ew.
  set (L := (length arr - 1)%nat).
  (* up *)
  pose proof (swapInRange_run (not_depended_by h) (λ y, negb (dep h y a))
                arr i L a Ha ltac:(unfold L; lia)) as E1.
  lapply E1; [clear E1; intros E1|].
  2:{ intros y arr0 Hy. apply not_depended_by_ok; [by eexists|].
      by apply (proj1 (Forall_forall _ _) wrappers). }
  specialize (E1 ltac:(unfold L; lia)).
  destruct (neighbours_up arr i L 0 ltac:(unfold L; lia) ltac:(unfold L; lia)
              ltac:(unfold L; lia)) as [Hl1 Hn1].
  rewrite Nat.add_0_r, Hb in Hn1.
  pose proof (passed_first (λ y, negb (dep h y a)) _ b Hn1 ltac:(cbv beta; by rewrite Hdep)) as Hk1.
  pose proof (passed_le (λ y, negb (dep h y a)) (neighbours i L arr)) as Hk1'.
  rewrite Hl1 in Hk1'.
  set (k1 := passed _ (neighbours i L arr)) in *.
  unfold toward in E1.
  destruct (i <? L)%nat eqn:E0; [|apply Nat.ltb_ge in E0; unfold L in E0; lia].
  clear E0.
  set (p1 := (i + k1)%nat) in *.
  set (arr1 := move i p1 arr) in *.
  assert (Hp1 : (p1 < length arr)%nat) by (unfold p1, L in *; lia).
  assert (Hlen1 : length arr1 = length arr) by (by apply move_length).
  assert (Ha1 : arr1 !! p1 = Some a).
  { unfold arr1. rewrite (move_lookup arr i p1 a p1) by done.
    by rewrite decide_True. }
  assert (Hb1 : arr1 !! i = Some b).
  { unfold arr1. rewrite (move_lookup arr i p1 a i) by done.
    unfold p1. repeat case_decide; try lia. done. }
  unfold bind at 1. cbv beta.
  replace (Z.of_nat (length arr) - 1) with (Z.of_nat L) by (unfold L; lia).
  rewrite E1.
  (* and back down *)
  unfold swapBack.
  pose proof (swapInRange_run (lighter h) (λ y, num_lt (weight_of h a) (weight_of h y))
                arr1 p1 i a Ha1 ltac:(lia)) as E2.
  lapply E2; [clear E2; intros E2|].
  2:{ intros y arr0 Hy. rewrite <- weight_lt_of. apply lighter_ok; [by eexists|].
      apply (proj1 (Forall_forall _ _) wrappers).
      unfold arr1 in Hy. by rewrite move_Permutation in Hy. }
  specialize (E2 ltac:(unfold p1; lia)).
  destruct (neighbours_down arr1 p1 i (k1 - 1) ltac:(unfold p1; lia) ltac:(lia)
              ltac:(unfold p1; lia)) as [Hl2 Hn2].
  replace (p1 - S (k1 - 1))%nat with i in Hn2 by (unfold p1; lia).
  rewrite Hb1 in Hn2.
  pose proof (passed_stop (λ y, num_lt (weight_of h a) (weight_of h y)) _ _ b Hn2
                ltac:(cbv beta; by rewrite <- weight_lt_of)) as Hk2.
  set (k2 := passed _ (neighbours p1 i arr1)) in *.
  unfold toward in E2.
  destruct (p1 <? i)%nat eqn:E0; [apply Nat.ltb_lt in E0; unfold p1 in E0; lia|].
  unfold bind at 1. rewrite E2. unfold bind, ret.
  eexists. split; [reflexivity|]. split.
  - rewrite (move_lookup arr1 p1 (p1 - k2) a i) by (done || unfold p1; lia).
    unfold p1 in *. repeat case_decide; try lia. done.
  - rewrite move_Permutation. apply move_Permutation.
Qed.
End Swaps.

(** ** The movers of the two passes *)

(** C9, as stated, fails on a node of weight 0 before a node of weight -1:
    the negative pass runs its callback at index 1, the last index, and
    the node there swaps with the node at the front.  It fails the same
    way at the last of three nodes. *)
Lemma back_initiates_swap :
  1 ∈ negative_movers 2 ∧
  fst (float_down light_last_heap (arr_get [VRef 0%nat; VRef 1%nat] 1) 1
         [VRef 0%nat; VRef 1%nat])
  = [VRef 1%nat; VRef 0%nat] ∧
  ¬ boundaries_never_initiate light_last_heap [VRef 0%nat; VRef 1%nat] ∧
  ¬ boundaries_never_initiate three_nodes_heap [VRef 0%nat; VRef 1%nat; VRef 2%nat].
Proof.
  split; [vm_compute; left|]. split; [vm_compute; reflexivity|]. split.
  - intros Hnever. destruct (Hnever 1 ltac:(right; reflexivity)) as [Hdown _].
    specialize (Hdown ltac:(vm_compute; left)). vm_compute in Hdown. discriminate.
  - intros Hnever. destruct (Hnever 2 ltac:(right; reflexivity)) as [Hdown _].
    specialize (Hdown ltac:(vm_compute; right; left)). vm_compute in Hdown.
    discriminate.
Qed.

(** C9, amended. On an array of at least two nodes, the negative pass
    calls its callback on the nodes at indices 1 up to the last index, in
    that order, and the positive pass on the nodes at indices [length - 2]
    down to 1: the node at index 0 is a mover in neither pass, the node at
    the last index is a mover in the negative pass only.  At any stage of
    the passes, a negative mover that does not depend on the node before
    it, that node not being lighter, leaves it in its own place when its
    callback ends; a positive mover on which the node after it does not
    depend, that node not being heavier, does the same with that node.  So
    the nodes at the front and at the back are swap targets, and the node
    at the back initiates swaps in the negative pass. *)
Theorem weight_movers h (arr : list value) :
  nodes_ok h arr → (2 ≤ length arr)%nat →
  sortByWeight_array h arr
  = (let* _ := scan (float_down h) (negative_movers (length arr)) in
     scan (float_up h) (positive_movers (length arr))) arr ∧
  (∀ i, i ∈ negative_movers (length arr) ↔ 1 ≤ i ≤ Z.of_nat (length arr) - 1) ∧
  (∀ i, i ∈ positive_movers (length arr) ↔ 1 ≤ i ≤ Z.of_nat (length arr) - 2) ∧
  (∀ (arr1 : list value) (i : nat) a b,
     arr1 ≡ₚ arr → Z.of_nat i ∈ negative_movers (length arr) →
     arr1 !! i = Some a → arr1 !! (i - 1)%nat = Some b →
     negative h a → dep h a b = false → weight_lt h b a = false →
     ∃ arr2, float_down h (arr_get arr1 (Z.of_nat i)) (Z.of_nat i) arr1
             = (arr2, Ok None) ∧
             arr2 !! i = Some b ∧ arr2 ≡ₚ arr) ∧
  (∀ (arr1 : list value) (i : nat) a b,
     arr1 ≡ₚ arr → Z.of_nat i ∈ positive_movers (length arr) →
     arr1 !! i = Some a → arr1 !! S i = Some b →
     positive h a → dep h b a = false → weight_lt h a b = false →
     ∃ arr2, float_up h (arr_get arr1 (Z.of_nat i)) (Z.of_nat i) arr1
             = (arr2, Ok None) ∧
             arr2 !! i = Some b ∧ arr2 ≡ₚ arr).
Proof.
  intros Hok Hlen. split; [by apply weight_passes|].
  split; [intros i; apply negative_movers_spec|].
  split; [intros i; apply positive_movers_spec|].
  split.
  - intros arr1 i a b Hperm Hi%negative_movers_spec Ha Hb Hneg Hdep Hw.
    assert (Hok1 : nodes_ok h arr1) by (by eapply nodes_ok_Permutation).
    rewrite (arr_get_lookup arr1 _ a) by (lia || by rewrite Nat2Z.id).
    destruct (float_down_swaps h arr1 Hok1 i a b ltac:(lia) Ha Hb Hneg Hdep Hw)
      as (arr2 & E & Hb2 & Hp2).
    exists arr2. split; [done|]. split; [done|]. by rewrite Hp2.
  - intros arr1 i a b Hperm _ Ha Hb Hpos Hdep Hw.
    assert (Hok1 : nodes_ok h arr1) by (by eapply nodes_ok_Permutation).
    rewrite (arr_get_lookup arr1 _ a) by (lia || by rewrite Nat2Z.id).
    destruct (float_up_swaps h arr1 Hok1 i a b Ha Hb Hpos Hdep Hw)
      as (arr2 & E & Hb2 & Hp2).
    exists arr2. split; [done|]. split; [done|]. by rewrite Hp2.
Qed.

(** On the three nodes [a], [b], [c], where [c] depends on [a]: [c] at
    the back is a mover of the negative pass and ends in the place of [b];
    [b] at index 1 is the mover of the positive pass and, run on the
    array as given, ends in the place of [c] at the back. *)
Lemma weight_movers_witness :
  sortByWeight_array three_nodes_heap [VRef 0%nat; VRef 1%nat; VRef 2%nat]
  = (let* _ := scan (float_down three_nodes_heap) (negative_movers 3) in
     scan (float_up three_nodes_heap) (positive_movers 3))
      [VRef 0%nat; VRef 1%nat; VRef 2%nat] ∧
  (∀ i, i ∈ negative_movers 3 ↔ 1 ≤ i ≤ Z.of_nat 3 - 1) ∧
  (∀ i, i ∈ positive_movers 3 ↔ 1 ≤ i ≤ Z.of_nat 3 - 2) ∧
  (∃ arr2, float_down three_nodes_heap
             (arr_get [VRef 0%nat; VRef 1%nat; VRef 2%nat] (Z.of_nat 2)) (Z.of_nat 2)
             [VRef 0%nat; VRef 1%nat; VRef 2%nat]
           = (arr2, Ok None) ∧
           arr2 !! 2%nat = Some (VRef 1%nat) ∧
           arr2 ≡ₚ [VRef 0%nat; VRef 1%nat; VRef 2%nat]) ∧
  (∃ arr2, float_up three_nodes_heap
             (arr_get [VRef 0%nat; VRef 1%nat; VRef 2%nat] (Z.of_nat 1)) (Z.of_nat 1)
             [VRef 0%nat; VRef 1%nat; VRef 2%nat]
           = (arr2, Ok None) ∧
           arr2 !! 1%nat = Some (VRef 2%nat) ∧
           arr2 ≡ₚ [VRef 0%nat; VRef 1%nat; VRef 2%nat]).
Proof.
  destruct (weight_movers three_nodes_heap [VRef 0%nat; VRef 1%nat; VRef 2%nat])
    as (Hpasses & Hneg & Hpos & Hdown & Hup).
  - apply Forall_cons. split; [by eexists|].
    apply Forall_cons. split; [by eexists|].
    apply Forall_cons. split; [by eexists|]. by constructor.
  - simpl. lia.
  - split; [exact Hpasses|]. split; [exact Hneg|]. split; [exact Hpos|]. split.
    + apply (Hdown [VRef 0%nat; VRef 1%nat; VRef 2%nat] 2%nat (VRef 2%nat) (VRef 1%nat));
        [done|vm_compute; right; left|reflexivity..].
    + apply (Hup [VRef 0%nat; VRef 1%nat; VRef 2%nat] 1%nat (VRef 1%nat) (VRef 2%nat));
        [done|vm_compute; left|reflexivity..].
Defined.

(** The same, computed: in the negative pass [c] moves in front of [b] and
    stops behind [a], which it depends on; in the positive pass the mover
    at index 1 is then [c], which stays, and [b] at the back is no
    mover. *)
Lemma back_moves_to_the_middle :
  negative_movers 3 = [1; 2] ∧ positive_movers 3 = [1] ∧
  fst (float_down three_nodes_heap (VRef 2%nat) 2 [VRef 0%nat; VRef 1%nat; VRef 2%nat])
  = [VRef 0%nat; VRef 2%nat; VRef 1%nat] ∧
  fst (float_up three_nodes_heap (VRef 1%nat) 1 [VRef 0%nat; VRef 1%nat; VRef 2%nat])
  = [VRef 0%nat; VRef 2%nat; VRef 1%nat] ∧
  sortByWeight_array three_nodes_heap [VRef 0%nat; VRef 1%nat; VRef 2%nat]
  = ([VRef 0%nat; VRef 2%nat; VRef 1%nat], Ok tt).
Proof. repeat split; vm_compute; reflexivity. Qed.
